(** * Steady-state solvers of qutip/steadystate.py: a shallow embedding

    The module computes the steady state of a Liouvillian and its restricted
    pseudo-inverse.  Its code is control flow around numeric library calls
    (numpy, scipy, qutip.sparse, qutip.graph): the embedding keeps the control
    flow, the dictionaries of options and diagnostics, the conditioning of the
    matrix, the permutation of vectors and the post-processing of results as
    the source has them, and takes every library call as a field of one
    record of primitives, over which all theorems quantify.

    Numbers.  Python's complex doubles are modelled by exact Gaussian
    rationals (pairs of canonical rationals [Qc]); what is proved is the
    algebra of the code, rounding is outside the model. *)

From Stdlib Require Import QArith Qcanon Qround Psatz.
From stdpp Require Import gmap strings list fin_maps sorting.

(** ** Scalars *)

Module Scalar.

Local Open Scope Qc_scope.

Record C : Type := mkC { re : Qc; im : Qc }.

#[global] Instance C_eq_dec : EqDecision C.
Proof. solve_decision. Defined.

Definition C0 : C := mkC 0 0.
Definition C1 : C := mkC 1 0.
Definition Ci : C := mkC 0 1.
Definition ofQc (x : Qc) : C := mkC x 0.

Definition Cadd (a b : C) : C := mkC (re a + re b) (im a + im b).
Definition Csub (a b : C) : C := mkC (re a - re b) (im a - im b).
Definition Cmul (a b : C) : C :=
  mkC (re a * re b - im a * im b) (re a * im b + im a * re b).
Definition Cconj (a : C) : C := mkC (re a) (- im a).
Definition Cscale (r : Qc) (a : C) : C := mkC (r * re a) (r * im a).
Definition Cnorm2 (a : C) : Qc := re a * re a + im a * im a.
Definition Cinv (a : C) : C := Cscale (/ Cnorm2 a) (Cconj a).
Definition Cdiv (a b : C) : C := Cmul a (Cinv b).

Definition half : Qc := Q2Qc (1 # 2).

(** Order of numpy on complex numbers: by real part, then imaginary part. *)
Definition Clexlt (a b : C) : bool :=
  bool_decide (re a < re b) || (bool_decide (re a = re b) && bool_decide (im a < im b)).

End Scalar.

Export Scalar.

(** ** Vectors and matrices

    A numpy vector is a list of scalars, a matrix (dense array or scipy
    sparse matrix alike: only the linear map matters here) a list of rows. *)

Abbreviation vec := (list C).
Abbreviation matrix := (list (list C)).

Module Mat.

Definition vget (v : vec) (i : nat) : C := nth i v C0.
Definition mget (A : matrix) (i j : nat) : C := nth j (nth i A []) C0.
Definition nrows (A : matrix) : nat := length A.
Definition ncols (A : matrix) : nat := match A with [] => 0 | r :: _ => length r end.

Definition mk_vec (n : nat) (f : nat -> C) : vec := map f (seq 0 n).
Definition mk_matrix (r c : nat) (f : nat -> nat -> C) : matrix :=
  map (fun i => map (f i) (seq 0 c)) (seq 0 r).

Definition Csum (l : list C) : C := foldr Cadd C0 l.

Definition zeros (n : nat) : vec := replicate n C0.
Definition ones (n : nat) : vec := replicate n C1.
Definition identity (n : nat) : matrix :=
  mk_matrix n n (fun i j => if bool_decide (i = j) then C1 else C0).

Definition vadd (u v : vec) : vec := mk_vec (length u) (fun i => Cadd (vget u i) (vget v i)).
Definition vsub (u v : vec) : vec := mk_vec (length u) (fun i => Csub (vget u i) (vget v i)).
Definition vscale (r : Qc) (v : vec) : vec := map (Cscale r) v.
Definition vdivC (v : vec) (z : C) : vec := map (fun x => Cdiv x z) v.
Definition dot (u v : vec) : C := Csum (map (fun i => Cmul (vget u i) (vget v i)) (seq 0 (length u))).

Definition madd (A B : matrix) : matrix :=
  mk_matrix (nrows A) (ncols A) (fun i j => Cadd (mget A i j) (mget B i j)).
Definition msub (A B : matrix) : matrix :=
  mk_matrix (nrows A) (ncols A) (fun i j => Csub (mget A i j) (mget B i j)).
Definition mscale (r : Qc) (A : matrix) : matrix := map (map (Cscale r)) A.
Definition mdivC (A : matrix) (z : C) : matrix := map (map (fun x => Cdiv x z)) A.
Definition ctranspose (A : matrix) : matrix :=
  mk_matrix (ncols A) (nrows A) (fun i j => Cconj (mget A j i)).
Definition matvec (A : matrix) (v : vec) : vec := map (fun row => dot row v) A.
Definition matmul (A B : matrix) : matrix :=
  mk_matrix (nrows A) (ncols B)
    (fun i j => Csum (map (fun k => Cmul (mget A i k) (mget B k j)) (seq 0 (ncols A)))).
Definition trace (A : matrix) : C := Csum (map (fun k => mget A k k) (seq 0 (nrows A))).

(** [np.kron] of a column (N,1) and a row (1,N): the outer product. *)
Definition kron_col_row (c r : vec) : matrix :=
  mk_matrix (length c) (length r) (fun i j => Cmul (vget c i) (vget r j)).

(** Row-major flattening, [A.reshape(1, r*c)]. *)
Definition flatten (A : matrix) : vec := concat A.

(** Fancy indexing [v[np.ix_(p,)]]: entry [i] of the result is [v[p[i]]]. *)
Definition ix (v : vec) (p : list nat) : vec := map (vget v) p.

Definition is_hermitian (A : matrix) : Prop := ctranspose A = A.

#[global] Instance is_hermitian_dec A : Decision (is_hermitian A).
Proof. unfold is_hermitian. apply _. Defined.

End Mat.
Export Mat.

(** ** Python values, exceptions and effects *)

Module Py.

(** The values that the option and diagnostics dictionaries hold. *)
#[warnings="-register-all"]
Inductive pyval : Type :=
| PNone
| PBool (b : bool)
| PInt (z : Z)
| PFloat (x : Qc)
| PStr (s : string)
| PArr (v : list C)                  (* a numpy vector *)
| PLinOp (f : list C -> option (list C))  (* a scipy LinearOperator; None: it raises *)
| PList (l : list pyval)
| PDict (d : list (string * pyval))  (* a dict, in insertion order *)
| PElapsed.                          (* a difference of two time.time() readings *)

(** The exceptions, named by the kind of failure that each [raise] of the
    module reports (the module itself raises [Exception], [ValueError] and
    [TypeError] with distinct messages):
    - [ConfigurationError]: "Invalid keyword argument ...", "Invalid method
      argument ...", "Invalid iterative solver method.", "Invalid
      preconditioning method.", "Unsupported method ...";
    - [InvalidInputError]: the two [TypeError]s of [_steadystate_setup];
    - [ConvergenceError]: "Did not reach tolerance after ..." and "Failed to
      find steady state after ...", with the values that the message shows;
    - [SolverFailureError]: "Failed with fatal error: ...";
    - [PreconditionerError]: "Failed to build preconditioner. ...";
    the remaining ones are raised by the interpreter or by a library call. *)
Inductive error : Type :=
| ConfigurationError (what : string)
| InvalidInputError (what : string)
| ConvergenceError (shown : list pyval)
| SolverFailureError (check : Z)
| PreconditionerError
| PyTypeError (what : string)
| PyValueError (what : string)
| PyIndexError
| PyKeyError (key : string)
| PyNameError (name : string)
| NonFinite
| LibraryError (what : string).

Inductive result (A : Type) : Type :=
| Ok (a : A)
| Err (e : error).
Arguments Ok {A} a.
Arguments Err {A} e.

(** What a call leaves behind besides its result. *)
Inductive effect : Type :=
| EBuildLiouvillian                                  (* qutip.superoperator.liouvillian was called *)
| EUseSolver (assume_sorted : bool) (umfpack : pyval)  (* scipy's use_solver *)
| EWarn (msg : string).                              (* warnings.warn *)

Definition M (A : Type) : Type := list effect -> result A * list effect.

Definition ret {A} (a : A) : M A := fun w => (Ok a, w).
Definition bind {A B} (m : M A) (f : A -> M B) : M B :=
  fun w => match m w with
           | (Ok a, w') => f a w'
           | (Err e, w') => (Err e, w')
           end.
Definition raise {A} (e : error) : M A := fun w => (Err e, w).
Definition lift {A} (r : result A) : M A := fun w => (r, w).
Definition emit (e : effect) : M unit := fun w => (Ok tt, w ++ [e]).

(** [try: body except: raise e]. *)
Definition try_reraise {A} (body : M A) (e : error) : M A :=
  fun w => match body w with
           | (Ok a, w') => (Ok a, w')
           | (Err _, w') => (Err e, w')
           end.

End Py.
Export Py.

Notation "'let*' x ':=' m 'in' k" := (bind m (fun x => k))
  (at level 10, x name, m at level 100, k at level 200).
Notation "'let*' ' p ':=' m 'in' k" := (bind m (fun x => match x with p => k end))
  (at level 10, p pattern, m at level 100, k at level 200).
Notation "'run' m 'in' k" := (bind m (fun _ => k))
  (at level 10, m at level 100, k at level 200).


Module PyOps.

(** *** Dictionaries of diagnostics (insertion ordered) *)

Fixpoint dict_get (d : list (string * pyval)) (k : string) : option pyval :=
  match d with
  | [] => None
  | (k', v) :: d' => if bool_decide (k = k') then Some v else dict_get d' k
  end.

Fixpoint dict_set (d : list (string * pyval)) (k : string) (v : pyval) : list (string * pyval) :=
  match d with
  | [] => [(k, v)]
  | (k', v') :: d' => if bool_decide (k = k') then (k, v) :: d' else (k', v') :: dict_set d' k v
  end.

(** [d.pop(k, None)] *)
Fixpoint dict_pop (d : list (string * pyval)) (k : string) : list (string * pyval) :=
  match d with
  | [] => []
  | (k', v') :: d' => if bool_decide (k = k') then d' else (k', v') :: dict_pop d' k
  end.

(** *** Reading options *)

Definition get (args : gmap string pyval) (k : string) : M pyval :=
  match args !! k with
  | Some v => ret v
  | None => raise (PyKeyError k)
  end.

(** Truth value of an object; an array of several elements has none. *)
Definition truthy (v : pyval) : result bool :=
  match v with
  | PNone => Ok false
  | PBool b => Ok b
  | PInt z => Ok (negb (Z.eqb z 0))
  | PFloat x => Ok (negb (bool_decide (x = 0%Qc)))
  | PStr s => Ok (negb (bool_decide (s = EmptyString)))
  | PArr [] => Ok false
  | PArr [x] => Ok (negb (bool_decide (x = C0)))
  | PArr _ => Err (PyValueError "truth value of an array is ambiguous")
  | PLinOp _ => Ok true
  | PList l => Ok (negb (bool_decide (length l = 0)))
  | PDict d => Ok (negb (bool_decide (length d = 0)))
  | PElapsed => Ok true
  end.

Definition flag (args : gmap string pyval) (k : string) : M bool :=
  let* v := get args k in lift (truthy v).

(** A real number where the code computes with an option. *)
Definition as_real (v : pyval) : result Qc :=
  match v with
  | PBool b => Ok (if b then 1%Qc else 0%Qc)
  | PInt z => Ok (Q2Qc (inject_Z z))
  | PFloat x => Ok x
  | _ => Err (PyTypeError "not a number")
  end.

Definition num (args : gmap string pyval) (k : string) : M Qc :=
  let* v := get args k in lift (as_real v).

(** [v == 'name'] *)
Definition is_str (v : pyval) (s : string) : bool :=
  match v with
  | PStr s' => bool_decide (s' = s)
  | _ => false
  end.

Definition str_in (v : pyval) (l : list string) : bool := existsb (is_str v) l.

(** [args['info'][k]], [args['info'][k] = v], [args['info'].pop(k, None)] and
    [args['info']['perm'].append(name)] *)
Definition info_of (args : gmap string pyval) : M (list (string * pyval)) :=
  let* v := get args "info" in
  match v with
  | PDict d => ret d
  | _ => raise (PyTypeError "info is not a dict")
  end.

Definition info_get (args : gmap string pyval) (k : string) : M pyval :=
  let* d := info_of args in
  match dict_get d k with
  | Some v => ret v
  | None => raise (PyKeyError k)
  end.

Definition info_set (args : gmap string pyval) (k : string) (v : pyval) : M (gmap string pyval) :=
  let* d := info_of args in ret (<["info" := PDict (dict_set d k v)]> args).

Definition info_pop (args : gmap string pyval) (k : string) : M (gmap string pyval) :=
  let* d := info_of args in ret (<["info" := PDict (dict_pop d k)]> args).

Definition info_perm_append (args : gmap string pyval) (name : string) : M (gmap string pyval) :=
  let* p := info_get args "perm" in
  match p with
  | PList l => info_set args "perm" (PList (l ++ [PStr name]))
  | _ => raise (PyTypeError "perm is not a list")
  end.

(** *** numpy helpers *)

(** [v[np.ix_(p,)]], an index out of range raises. *)
Definition take_ix (v : vec) (p : list nat) : result vec :=
  if forallb (fun i => i <? length v) p then Ok (ix v p) else Err PyIndexError.

(** [np.any(p)] on an optional index array ([None] has no true element). *)
Definition np_any (p : option (list nat)) : bool :=
  match p with
  | None => false
  | Some l => existsb (fun i => negb (i =? 0)) l
  end.

(** [np.argsort(l)]: the indices that sort [l]. *)
Definition key_le (a b : nat * nat) : Prop := a.1 <= b.1.
#[global] Instance key_le_dec : RelDecision key_le.
Proof. intros a b. unfold key_le. apply _. Defined.

#[global] Instance key_le_total : Total key_le.
Proof. intros a b. unfold key_le. lia. Qed.
#[global] Instance key_le_trans : Transitive key_le.
Proof. intros a b c. unfold key_le. lia. Qed.

Definition argsort (l : list nat) : list nat :=
  (merge_sort key_le (zip l (seq 0 (length l)))).*2.

(** [b = np.zeros(m); b[0] = w] *)
Definition rhs (m : nat) (w : Qc) : result vec :=
  match m with
  | O => Err PyIndexError
  | S m' => Ok (ofQc w :: zeros m')
  end.

(** The stored entries [A.data] of a sparse matrix, in row order. *)
Definition stored (A : matrix) : list C :=
  filter (fun z => z <> C0) (concat A).

Definition nnz (A : matrix) : nat := length (stored A).

(** [x.max()] of a complex array: numpy orders complex numbers by real part,
    then by imaginary part; an empty array has no maximum. *)
Definition Cmax (a b : C) : C := if Clexlt a b then b else a.
Definition arr_max (l : list C) : result C :=
  match l with
  | [] => Err (PyValueError "zero-size array to reduction operation maximum")
  | x :: l' => Ok (foldl Cmax x l')
  end.

End PyOps.
Export PyOps.

(** ** Quantum objects and the library calls *)

Module Qutip.

(** A [Qobj] as far as the module looks at it: its matrix, whether it is an
    operator or a superoperator, the dimensions [d] of the subsystems (the
    [dims] of an operator are [[d, d]], those of a superoperator
    [[[d, d], [d, d]]]), and the Hermiticity flag when the constructor is
    given one. *)
Inductive qtype : Type := Oper | Super | OtherType.

Record Qobj : Type := mkQobj {
  qdata : matrix;
  qtype_of : qtype;
  qdims : list nat;
  qisherm : option bool
}.

Definition isoper (A : Qobj) : bool := match qtype_of A with Oper => true | _ => false end.
Definition issuper (A : Qobj) : bool := match qtype_of A with Super => true | _ => false end.

Definition prod_dims (d : list nat) : nat := foldr Nat.mul 1 d.

(** [A.tr()] and [A / z].  A division by zero, which gives entries that are
    not finite in floating point, is the failure [NonFinite] here. *)
Definition qobj_tr (A : Qobj) : C := trace (qdata A).
Definition qobj_div (A : Qobj) (z : C) : result Qobj :=
  if bool_decide (z = C0) then Err NonFinite
  else Ok (mkQobj (mdivC (qdata A) z) (qtype_of A) (qdims A) None).

(** Modelled from the spec: [vec2mat] of qutip.superoperator, which is not
    among the sources; the solution vector is reshaped into an n x n matrix,
    column by column, so that entry (i, j) is element j*n + i. *)
Definition vec2mat (v : vec) : matrix :=
  let n := Nat.sqrt (length v) in
  mk_matrix n n (fun i j => vget v (j * n + i)).

(** Modelled from the spec: [mat2vec] of qutip.superoperator, which is not
    among the sources; the vectorization of an operator, column by column. *)
Definition mat2vec (A : matrix) : vec :=
  mk_vec (nrows A * ncols A) (fun k => mget A (k mod nrows A) (k / nrows A)).

(** Modelled from the spec: [tensor([identity(n) for n in d])] of qutip, not
    among the sources: the identity operator on the Hilbert space of
    dimensions [d]. *)
Definition tensor_identity (d : list nat) : matrix := identity (prod_dims d).

(** [0.5 * (data + data.conj().T)] *)
Definition hermitize (A : matrix) : matrix := mscale half (madd A (ctranspose A)).

(** The object that [splu] and [spilu] return. *)
Record LUobj : Type := mkLU {
  lu_solve : vec -> result vec;
  lu_solve_mat : matrix -> result matrix;
  lu_L_nnz : nat;
  lu_U_nnz : nat
}.

Inductive krylov : Type := Gmres | Lgmres | Bicgstab.

(** The library calls.  Each one may raise ([Err]).  [krylov_solve] returns
    the solution, the status code and the number of times it invoked the
    callback.  [scipy_check] is the module's [_scipy_check]; [float_axis_ok]
    tells whether the numpy at hand coerces a float [axis] argument to an
    integer (as numpy did before 1.12) or rejects it with a [TypeError]. *)
Record Prims : Type := mkPrims {
  liouvillian : Qobj -> list Qobj -> result Qobj;
  weighted_bipartite_matching : matrix -> result (list nat);
  reverse_cuthill_mckee : matrix -> result (list nat);
  sp_permute : matrix -> list nat -> list nat -> result matrix;
  splu : matrix -> pyval -> pyval -> pyval -> result LUobj;
  spilu : matrix -> pyval -> pyval -> pyval -> pyval -> pyval -> result LUobj;
  spsolve : matrix -> vec -> result vec;
  np_linalg_solve : matrix -> vec -> result vec;
  np_linalg_solve_mat : matrix -> matrix -> result matrix;
  np_linalg_pinv : matrix -> result matrix;
  la_pinv : matrix -> result matrix;
  la_pinv2 : matrix -> result matrix;
  eigs : matrix -> pyval -> pyval -> result (C * vec);
  svd : matrix -> result (matrix * list Qc * matrix);
  krylov_solve : krylov -> matrix -> vec -> pyval -> pyval -> pyval -> pyval -> pyval
                 -> result (vec * Z * nat);
  la_norm : vec -> Qc;
  la_norm_inf : vec -> Qc;
  np_abs : C -> Qc;
  scipy_check : bool;
  float_axis_ok : bool
}.

(** What [steadystate] returns: a state, a state with the diagnostics, or
    (method svd with all_states) a list of states, with or without them. *)
Inductive ss_ret : Type :=
| RetState (rho : Qobj)
| RetStateInfo (rho : Qobj) (info : pyval)
| RetStates (rhos : list Qobj)
| RetStatesInfo (rhos : list Qobj) (info : pyval).

End Qutip.
Export Qutip.

(** ** The module *)

Module Steadystate.

Local Open Scope Qc_scope.

Definition q_1em15 : Qc := Q2Qc (1 # 1000000000000000).
Definition q_1em12 : Qc := Q2Qc (1 # 1000000000000).
Definition q_1em4 : Qc := Q2Qc (1 # 10000).

Definition _empty_info_dict : list (string * pyval) :=
  [("perm", PList []); ("solution_time", PNone); ("iterations", PNone);
   ("residual_norm", PNone); ("rcm_time", PNone); ("wbm_time", PNone);
   ("iter_time", PNone); ("precond_time", PNone); ("ILU_MILU", PNone);
   ("fill_factor", PNone); ("diag_pivot_thresh", PNone);
   ("drop_tol", PNone); ("permc_spec", PNone); ("weight", PNone)]%string.

Definition default_items : list (string * pyval) :=
  [("method", PStr "direct"); ("sparse", PBool true); ("use_rcm", PBool false);
   ("use_wbm", PBool false); ("use_umfpack", PBool false); ("weight", PNone);
   ("use_precond", PBool false); ("all_states", PBool false);
   ("M", PNone); ("x0", PNone); ("drop_tol", PFloat q_1em4); ("fill_factor", PInt 100);
   ("diag_pivot_thresh", PNone); ("maxiter", PInt 1000); ("tol", PFloat q_1em12);
   ("permc_spec", PStr "COLAMD"); ("ILU_MILU", PStr "smilu_2"); ("restart", PInt 20);
   ("return_info", PBool false); ("info", PDict _empty_info_dict)]%string.

Definition _default_steadystate_args : gmap string pyval := list_to_map default_items.

(** The loop over [kwargs.keys()] that opens [steadystate],
    [build_preconditioner] and [pseudo_inverse]. *)
Fixpoint apply_kwargs (kwargs : list (string * pyval)) (ss_args : gmap string pyval)
  : result (gmap string pyval) :=
  match kwargs with
  | [] => Ok ss_args
  | (key, val) :: rest =>
      if bool_decide (is_Some (ss_args !! key))
      then apply_kwargs rest (<[key := val]> ss_args)
      else Err (ConfigurationError key)
  end.

(** [key in kwargs.keys()] *)
Definition has_key (kwargs : list (string * pyval)) (key : string) : bool :=
  bool_decide (key ∈ kwargs.*1).

(** "Set column perm to NATURAL if using RCM and not specified by user" *)
Definition natural_if_rcm (kwargs : list (string * pyval)) (ss_args : gmap string pyval)
  : M (gmap string pyval) :=
  let* use_rcm := flag ss_args "use_rcm" in
  if use_rcm && negb (has_key kwargs "permc_spec")
  then ret (<["permc_spec" := PStr "NATURAL"]> ss_args)
  else ret ss_args.

Definition _steadystate_setup (P : Prims) (A : Qobj) (c_op_list : list Qobj) : M Qobj :=
  if isoper A then
    if bool_decide (0 < length c_op_list)%nat
    then run emit EBuildLiouvillian in lift (liouvillian P A c_op_list)
    else raise (InvalidInputError "non-dissipative system (no collapse operators given)")
  else if issuper A then ret A
  else raise (InvalidInputError "requires Liouvillian (super) operators").

(** [np.mean(np.abs(A.data.data.max()))]: the mean of a single number is the
    number. *)
Definition np_mean_scalar (x : Qc) : Qc := x.
Definition auto_weight (P : Prims) (A : Qobj) : result Qc :=
  match arr_max (stored (qdata A)) with
  | Ok z => Ok (np_mean_scalar (np_abs P z))
  | Err e => Err e
  end.

(** *** Conditioning for the LU based methods *)

(** [sp.csc_matrix((data, (rows, cols)), shape=(r, c))]; entries given for the
    same place add up. *)
Definition coo_matrix (data : vec) (rows cols : list nat) (r c : nat) : matrix :=
  mk_matrix r c (fun i j =>
    Csum (map (fun k => if bool_decide (nth k rows 0%nat = i ∧ nth k cols 0%nat = j)
                        then vget data k else C0)
              (seq 0 (length data)))).

(** [[nn * (n + 1) for nn in range(n)]] *)
Definition trace_cols (n : nat) : list nat := map (fun nn => nn * (n + 1))%nat (seq 0 n).

(** [A + B] of two sparse matrices, which must have one shape. *)
Definition sp_add (A B : matrix) : result matrix :=
  if bool_decide (nrows A = nrows B ∧ ncols A = ncols B)
  then Ok (madd A B) else Err (PyValueError "inconsistent shapes").

(** The two reorderings, as [_steadystate_LU_liouvillian] and
    [_steadystate_power_liouvillian] apply them: the matching to the rows
    only, the Cuthill-McKee ordering to rows and columns. *)
Definition reorder_wbm (P : Prims) (L : matrix) (ss_args : gmap string pyval)
  : M (matrix * option (list nat) * gmap string pyval) :=
  let* use_wbm := flag ss_args "use_wbm" in
  if use_wbm then
    let* perm := lift (weighted_bipartite_matching P L) in
    let* L' := lift (sp_permute P L perm []) in
    let* ss_args := info_perm_append ss_args "wbm" in
    let* ss_args := info_set ss_args "wbm_time" PElapsed in
    ret (L', Some perm, ss_args)
  else ret (L, None, ss_args).

Definition reorder_rcm (P : Prims) (L : matrix) (ss_args : gmap string pyval)
  : M (matrix * option (list nat) * option (list nat) * gmap string pyval) :=
  let* use_rcm := flag ss_args "use_rcm" in
  if use_rcm then
    let* perm2 := lift (reverse_cuthill_mckee P L) in
    let* L' := lift (sp_permute P L perm2 perm2) in
    let* ss_args := info_perm_append ss_args "rcm" in
    let* ss_args := info_set ss_args "rcm_time" PElapsed in
    ret (L', Some perm2, Some (argsort perm2), ss_args)
  else ret (L, None, None, ss_args).

Definition _steadystate_LU_liouvillian (P : Prims) (L : Qobj) (ss_args : gmap string pyval)
  : M (matrix * option (list nat) * option (list nat) * option (list nat) * gmap string pyval) :=
  let n := Nat.sqrt (nrows (qdata L)) in
  let* w := num ss_args "weight" in
  let* L1 := lift (sp_add (qdata L)
               (coo_matrix (vscale w (ones n)) (repeat 0%nat n) (trace_cols n) (n ^ 2) (n ^ 2))) in
  let* '(L2, perm, ss_args) := reorder_wbm P L1 ss_args in
  let* '(L3, perm2, rev_perm, ss_args) := reorder_rcm P L2 ss_args in
  ret (L3, perm, perm2, rev_perm, ss_args).

(** [if np.any(perm): b = b[np.ix_(perm,)]], then the same with [perm2]. *)
Definition permute_if_any (b : vec) (perm : option (list nat)) : M vec :=
  if np_any perm then lift (take_ix b (default [] perm)) else ret b.

Definition permuted_rhs (b : vec) (perm perm2 : option (list nat)) : M vec :=
  let* b := permute_if_any b perm in permute_if_any b perm2.

(** [v[np.ix_(rev_perm,)]] *)
Definition unpermute (v : vec) (rev_perm : option (list nat)) : M vec :=
  match rev_perm with
  | Some rp => lift (take_ix v rp)
  | None => raise (PyTypeError "index is None")
  end.

(** The five solver parameters copied into the diagnostics. *)
Definition record_lu_options (ss_args : gmap string pyval) : M (gmap string pyval) :=
  let* x := get ss_args "permc_spec" in let* ss_args := info_set ss_args "permc_spec" x in
  let* x := get ss_args "drop_tol" in let* ss_args := info_set ss_args "drop_tol" x in
  let* x := get ss_args "diag_pivot_thresh" in let* ss_args := info_set ss_args "diag_pivot_thresh" x in
  let* x := get ss_args "fill_factor" in let* ss_args := info_set ss_args "fill_factor" x in
  let* x := get ss_args "ILU_MILU" in info_set ss_args "ILU_MILU" x.

Definition ratio (a b : nat) : result pyval :=
  if bool_decide (b = 0%nat) then Err (LibraryError "ZeroDivisionError")
  else Ok (PFloat (Q2Qc (inject_Z (Z.of_nat a)) / Q2Qc (inject_Z (Z.of_nat b)))).

(** [Qobj(data, dims=dims, isherm=True)] with, when asked for, the
    diagnostics. *)
Definition return_state (data : matrix) (dims : list nat) (ss_args : gmap string pyval)
  : M ss_ret :=
  let* return_info := flag ss_args "return_info" in
  if return_info
  then let* info := get ss_args "info" in ret (RetStateInfo (mkQobj data Oper dims (Some true)) info)
  else ret (RetState (mkQobj data Oper dims (Some true))).

(** *** The direct solvers *)

(** The factorization or the umfpack solve of [_steadystate_direct_sparse]. *)
Definition direct_sparse_solve (P : Prims) (L : matrix) (b : vec) (ss_args : gmap string pyval)
  : M (vec * gmap string pyval) :=
  let* use_umfpack := flag ss_args "use_umfpack" in
  if negb use_umfpack then
    let* permc := get ss_args "permc_spec" in
    let* thresh := get ss_args "diag_pivot_thresh" in
    let* milu := get ss_args "ILU_MILU" in
    let* lu := lift (splu P L permc thresh milu) in
    let* v := lift (lu_solve lu b) in
    let* ss_args := info_set ss_args "solution_time" PElapsed in
    let* return_info := flag ss_args "return_info" in
    if return_info && scipy_check P then
      let* ss_args := info_set ss_args "l_nnz" (PInt (Z.of_nat (lu_L_nnz lu))) in
      let* ss_args := info_set ss_args "u_nnz" (PInt (Z.of_nat (lu_U_nnz lu))) in
      let* r := lift (ratio (lu_L_nnz lu + lu_U_nnz lu) (nnz L)) in
      let* ss_args := info_set ss_args "lu_fill_factor" r in
      ret (v, ss_args)
    else ret (v, ss_args)
  else
    let* v := lift (spsolve P L b) in
    let* ss_args := info_set ss_args "solution_time" PElapsed in
    ret (v, ss_args).

(** Lines 339-355 of [_steadystate_direct_sparse]: the conditioned matrix and
    the right-hand side. *)
Definition direct_sparse_prepare (P : Prims) (L : Qobj) (ss_args : gmap string pyval)
  : M (matrix * vec * option (list nat) * gmap string pyval) :=
  let n := Nat.sqrt (nrows (qdata L)) in
  let* w := num ss_args "weight" in
  let* b := lift (rhs (n ^ 2) w) in
  let* '(L', perm, perm2, rev_perm, ss_args) := _steadystate_LU_liouvillian P L ss_args in
  let* b := permuted_rhs b perm perm2 in
  let* umf := get ss_args "use_umfpack" in
  run emit (EUseSolver true umf) in
  let* ss_args := record_lu_options ss_args in
  ret (L', b, rev_perm, ss_args).

(** Lines 384-395: the residual, the solution in the original order, the
    result. *)
Definition direct_sparse_finish (P : Prims) (dims : list nat) (A : matrix) (b : vec)
    (rev_perm : option (list nat)) (ss_args : gmap string pyval) (v : vec) : M ss_ret :=
  let* return_info := flag ss_args "return_info" in
  let* ss_args := (if return_info
                   then info_set ss_args "residual_norm"
                          (PFloat (la_norm P (vsub b (matvec A v))))
                   else ret ss_args) in
  let* use_umfpack := flag ss_args "use_umfpack" in
  let* use_rcm := (if negb use_umfpack then flag ss_args "use_rcm" else ret false) in
  let* v := (if use_rcm then unpermute v rev_perm else ret v) in
  return_state (hermitize (vec2mat v)) dims ss_args.

Definition _steadystate_direct_sparse (P : Prims) (L : Qobj) (ss_args : gmap string pyval)
  : M ss_ret :=
  let* '(L', b, rev_perm, ss_args) := direct_sparse_prepare P L ss_args in
  let* '(v, ss_args) := direct_sparse_solve P L' b ss_args in
  direct_sparse_finish P (qdims L) L' b rev_perm ss_args v.

(** [L[0, :] = np.diag(weight * np.ones(n)).reshape((1, n ** 2))] *)
Definition diag_matrix (d : vec) : matrix :=
  mk_matrix (length d) (length d) (fun i j => if bool_decide (i = j) then vget d i else C0).

Definition set_row0 (A : matrix) (row : vec) : result matrix :=
  match A with
  | [] => Err PyIndexError
  | r0 :: rest =>
      if bool_decide (length row = length r0) then Ok (row :: rest)
      else match row with
           | [x] => Ok (repeat x (length r0) :: rest)
           | _ => Err (PyValueError "could not broadcast input array")
           end
  end.

Definition dense_conditioned (L : matrix) (w : Qc) : result matrix :=
  let n := Nat.sqrt (nrows L) in
  set_row0 L (flatten (diag_matrix (vscale w (ones n)))).

(** [A - B] of two numpy arrays, with numpy's broadcasting of an axis of
    length one. *)
Definition bget (A : matrix) (i j : nat) : C :=
  mget A (if bool_decide (nrows A = 1%nat) then 0%nat else i)
         (if bool_decide (ncols A = 1%nat) then 0%nat else j).

Definition broadcast (a b : nat) : option nat :=
  if bool_decide (a = b) then Some a
  else if bool_decide (a = 1%nat) then Some b
  else if bool_decide (b = 1%nat) then Some a
  else None.

Definition np_sub (A B : matrix) : result matrix :=
  match broadcast (nrows A) (nrows B), broadcast (ncols A) (ncols B) with
  | Some r, Some c => Ok (mk_matrix r c (fun i j => Csub (bget A i j) (bget B i j)))
  | _, _ => Err (PyValueError "operands could not be broadcast together")
  end.

(** [L*v] of an [np.matrix] and a one-dimensional array [v]: numpy turns
    [v] into the matrix of one row and multiplies, which needs [L] to have
    one column. *)
Definition matrix_times_1d (L : matrix) (v : vec) : result matrix :=
  if bool_decide (ncols L = 1%nat)
  then Ok (mk_matrix (nrows L) (length v) (fun i j => Cmul (mget L i 0) (vget v j)))
  else Err (PyValueError "shapes not aligned").

(** [la.norm(b - L*v)] of the dense solver, where [L] is an [np.matrix] and
    [v] the one-dimensional answer of [np.linalg.solve]: [b] is broadcast as
    one row, and the norm of a matrix is that of its entries in one row. *)
Definition dense_residual (P : Prims) (L : matrix) (b v : vec) : result Qc :=
  match matrix_times_1d L v with
  | Ok Lv => match np_sub [b] Lv with
             | Ok D => Ok (la_norm P (flatten D))
             | Err e => Err e
             end
  | Err e => Err e
  end.

Definition _steadystate_direct_dense (P : Prims) (L : Qobj) (ss_args : gmap string pyval)
  : M ss_ret :=
  let dims := qdims L in
  let n := Nat.sqrt (nrows (qdata L)) in
  let* w := num ss_args "weight" in
  let* b := lift (rhs (n ^ 2) w) in
  let* w := num ss_args "weight" in
  let* L' := lift (dense_conditioned (qdata L) w) in
  let* v := lift (np_linalg_solve P L' b) in
  let* ss_args := info_set ss_args "solution_time" PElapsed in
  let* return_info := flag ss_args "return_info" in
  let* ss_args := (if return_info
             then let* res := lift (dense_residual P L' b v) in
                  info_set ss_args "residual_norm" (PFloat res)
             else ret ss_args) in
  ret (RetState (mkQobj (hermitize (vec2mat v)) Oper dims (Some true))).

(** *** The eigenvalue solver *)

Definition eigen_reorder (P : Prims) (L : matrix) (ss_args : gmap string pyval)
  : M (matrix * option (list nat) * gmap string pyval) :=
  let* use_rcm := flag ss_args "use_rcm" in
  if use_rcm then
    let* ss_args := info_perm_append ss_args "rcm" in
    let* perm := lift (reverse_cuthill_mckee P L) in
    let* L' := lift (sp_permute P L perm perm) in
    ret (L', Some (argsort perm), ss_args)
  else ret (L, None, ss_args).

Definition _steadystate_eigen (P : Prims) (L : Qobj) (ss_args : gmap string pyval) : M ss_ret :=
  let* ss_args := info_pop ss_args "weight" in
  let dims := qdims L in
  let* '(L', rev_perm, ss_args) := eigen_reorder P (qdata L) ss_args in
  let* tol := get ss_args "tol" in
  let* maxiter := get ss_args "maxiter" in
  let* '(eigval, eigvec) := lift (eigs P L' tol maxiter) in
  let* ss_args := info_set ss_args "solution_time" PElapsed in
  let* return_info := flag ss_args "return_info" in
  let* ss_args := (if return_info
             then info_set ss_args "residual_norm" (PFloat (la_norm P (matvec L' eigvec)))
             else ret ss_args) in
  let* use_rcm := flag ss_args "use_rcm" in
  let* eigvec := (if use_rcm then unpermute eigvec rev_perm else ret eigvec) in
  let out := mkQobj (hermitize (vec2mat eigvec)) Oper dims (Some true) in
  let* return_info := flag ss_args "return_info" in
  if return_info then
    let* rho := lift (qobj_div out (qobj_tr out)) in
    let* info := get ss_args "info" in
    ret (RetStateInfo rho info)
  else
    let* rho := lift (qobj_div out (qobj_tr out)) in
    ret (RetState rho).


(** *** The iterative solvers *)

Definition is_none (v : pyval) : bool := match v with PNone => true | _ => false end.

(** [LinearOperator((n ** 2, n ** 2), matvec=lambda x: P.solve(x))] *)
Definition linear_operator (lu : LUobj) : pyval :=
  PLinOp (fun x => match lu_solve lu x with Ok y => Some y | Err _ => None end).

(** Everything in [_iterative_precondition] happens inside one [try], whose
    [except] turns any failure into the preconditioner error. *)
Definition _iterative_precondition (P : Prims) (A : matrix) (n : nat)
    (ss_args : gmap string pyval) : M (pyval * gmap string pyval) :=
  try_reraise
    (let* permc := get ss_args "permc_spec" in
     let* drop_tol := get ss_args "drop_tol" in
     let* thresh := get ss_args "diag_pivot_thresh" in
     let* fill := get ss_args "fill_factor" in
     let* milu := get ss_args "ILU_MILU" in
     let* ilu := lift (spilu P A permc drop_tol thresh fill milu) in
     let* ss_args := record_lu_options ss_args in
     let* ss_args := info_set ss_args "precond_time" PElapsed in
     let* return_info := flag ss_args "return_info" in
     if return_info && scipy_check P then
       let* ss_args := info_set ss_args "l_nnz" (PInt (Z.of_nat (lu_L_nnz ilu))) in
       let* ss_args := info_set ss_args "u_nnz" (PInt (Z.of_nat (lu_U_nnz ilu))) in
       let* r := lift (ratio (lu_L_nnz ilu + lu_U_nnz ilu) (nnz A)) in
       let* ss_args := info_set ss_args "ilu_fill_factor" r in
       let* Me := lift (lu_solve ilu (ones (n ^ 2))) in
       let* ss_args := info_set ss_args "ilu_condest" (PFloat (la_norm_inf P Me)) in
       ret (linear_operator ilu, ss_args)
     else ret (linear_operator ilu, ss_args))
    PreconditionerError.

(** [if ss_args['M'] is None and ss_args['use_precond'] [and method in ...]: ...];
    [applicable] is the third conjunct, which only the power method has. *)
Definition precondition_if_asked (P : Prims) (A : matrix) (n : nat) (applicable : bool)
    (ss_args : gmap string pyval) : M (gmap string pyval) :=
  let* m := get ss_args "M" in
  let* wanted := (if is_none m then flag ss_args "use_precond" else ret false) in
  if wanted && applicable then
    let* '(m', ss_args) := _iterative_precondition P A n ss_args in
    let ss_args := <["M" := m']> ss_args in
    if is_none m'
    then run emit (EWarn "Preconditioning failed. Continuing without.") in ret ss_args
    else ret ss_args
  else ret ss_args.

(** Lines 537-554 of [_steadystate_iterative]: the conditioned matrix, the
    right-hand side and the preconditioner. *)
Definition iterative_prepare (P : Prims) (L : Qobj) (ss_args : gmap string pyval)
  : M (matrix * vec * option (list nat) * gmap string pyval) :=
  let n := Nat.sqrt (nrows (qdata L)) in
  let* w := num ss_args "weight" in
  let* b := lift (rhs (n ^ 2) w) in
  let* '(L', perm, perm2, rev_perm, ss_args) := _steadystate_LU_liouvillian P L ss_args in
  let* b := permuted_rhs b perm perm2 in
  let* umf := get ss_args "use_umfpack" in
  run emit (EUseSolver true umf) in
  let* ss_args := precondition_if_asked P L' n true ss_args in
  ret (L', b, rev_perm, ss_args).

(** Lines 557-573: the call of the solver that [method] names (after the
    given prefix), with the options it is handed. *)
Definition which_krylov (method : pyval) (pre : string) : option krylov :=
  if is_str method (pre +:+ "gmres") then Some Gmres
  else if is_str method (pre +:+ "lgmres") then Some Lgmres
  else if is_str method (pre +:+ "bicgstab") then Some Bicgstab
  else None.

Definition call_krylov (P : Prims) (k : krylov) (A : matrix) (b : vec) (tol : pyval)
    (ss_args : gmap string pyval) : M (vec * Z * nat) :=
  let* m := get ss_args "M" in
  let* x0 := get ss_args "x0" in
  let* restart := (match k with Gmres => get ss_args "restart" | _ => ret PNone end) in
  let* maxiter := get ss_args "maxiter" in
  lift (krylov_solve P k A b tol m x0 restart maxiter).

Definition iterative_solve (P : Prims) (A : matrix) (b : vec) (ss_args : gmap string pyval)
  : M (vec * Z * nat) :=
  let* method := get ss_args "method" in
  match which_krylov method "iterative-" with
  | Some k => let* tol := get ss_args "tol" in call_krylov P k A b tol ss_args
  | None => raise (ConfigurationError "Invalid iterative solver method.")
  end.

(** Lines 574-608: diagnostics, the status code, and the result. *)
Definition iterative_finish (P : Prims) (dims : list nat) (A : matrix) (b : vec)
    (rev_perm : option (list nat)) (ss_args : gmap string pyval)
    (v : vec) (check : Z) (iters : nat) : M ss_ret :=
  let* ss_args := info_set ss_args "iter_time" PElapsed in
  let* pt := info_get ss_args "precond_time" in
  let* ss_args := info_set ss_args "solution_time" PElapsed in
  let* ss_args := info_set ss_args "iterations" (PInt (Z.of_nat iters)) in
  let* return_info := flag ss_args "return_info" in
  let* ss_args := (if return_info
                   then info_set ss_args "residual_norm"
                          (PFloat (la_norm P (vsub b (matvec A v))))
                   else ret ss_args) in
  if bool_decide (0 < check)%Z then
    let* maxiter := get ss_args "maxiter" in
    let* residual := info_get ss_args "residual_norm" in
    raise (ConvergenceError [maxiter; residual])
  else if bool_decide (check < 0)%Z then
    raise (SolverFailureError check)
  else
    let* use_rcm := flag ss_args "use_rcm" in
    let* v := (if use_rcm then unpermute v rev_perm else ret v) in
    return_state (hermitize (vec2mat v)) dims ss_args.

Definition _steadystate_iterative (P : Prims) (L : Qobj) (ss_args : gmap string pyval)
  : M ss_ret :=
  let* '(L', b, rev_perm, ss_args) := iterative_prepare P L ss_args in
  let* '(v, check, iters) := iterative_solve P L' b ss_args in
  iterative_finish P (qdims L) L' b rev_perm ss_args v check iters.

(** *** The singular value decomposition *)

(** [rhoss = Qobj(vec2mat(ns[:, k]), dims=L.dims[0])] then [rhoss / rhoss.tr()],
    where [ns = vh[nnz:].conj().T]: column [k] of [ns] is the conjugate of
    row [k] of the rows of [vh] that are kept. *)
Definition svd_state (dims : list nat) (row : vec) : result Qobj :=
  let rhoss := mkQobj (vec2mat (map Cconj row)) Oper dims None in
  qobj_div rhoss (qobj_tr rhoss).

Fixpoint all_ok {A} (l : list (result A)) : result (list A) :=
  match l with
  | [] => Ok []
  | Ok a :: l' => match all_ok l' with Ok r => Ok (a :: r) | Err e => Err e end
  | Err e :: _ => Err e
  end.

Definition Qcmax (a b : Qc) : Qc := if bool_decide (a < b) then b else a.

Definition _steadystate_svd_dense (P : Prims) (L : Qobj) (ss_args : gmap string pyval)
  : M ss_ret :=
  let* ss_args := info_pop ss_args "weight" in
  let atol := q_1em12 in
  let rtol := q_1em12 in
  let* '(u, s, vh) := lift (svd P (qdata L)) in
  let* s0 := (match s with x :: _ => ret x | [] => raise PyIndexError end) in
  let tol := Qcmax atol (rtol * s0) in
  let nnz := length (filter (fun x => tol <= x) s) in
  let ns_rows := drop nnz vh in
  let* ss_args := info_set ss_args "solution_time" PElapsed in
  let* all_states := flag ss_args "all_states" in
  if all_states then
    let* rhoss_list := lift (all_ok (map (svd_state (qdims L)) ns_rows)) in
    let* return_info := flag ss_args "return_info" in
    if return_info
    then let* info := get ss_args "info" in ret (RetStatesInfo rhoss_list info)
    else ret (RetStates rhoss_list)
  else
    match ns_rows with
    | row :: _ => let* rho := lift (svd_state (qdims L) row) in ret (RetState rho)
    | [] => raise PyIndexError
    end.


(** *** The inverse power method *)

Definition shifted (L : matrix) : result matrix :=
  let n := nrows L in
  if bool_decide (ncols L = n) then Ok (msub L (mscale q_1em15 (identity n)))
  else Err (PyValueError "inconsistent shapes").

Definition reorder_rcm_power (P : Prims) (L : matrix) (ss_args : gmap string pyval)
  : M (matrix * option (list nat) * option (list nat) * gmap string pyval) :=
  let* use_rcm := flag ss_args "use_rcm" in
  if use_rcm then
    let* ss_args := info_perm_append ss_args "rcm" in
    let* perm2 := lift (reverse_cuthill_mckee P L) in
    let* ss_args := info_set ss_args "rcm_time" PElapsed in
    let* L' := lift (sp_permute P L perm2 perm2) in
    ret (L', Some perm2, Some (argsort perm2), ss_args)
  else ret (L, None, None, ss_args).

Definition _steadystate_power_liouvillian (P : Prims) (L : Qobj) (ss_args : gmap string pyval)
  : M (matrix * option (list nat) * option (list nat) * option (list nat) * gmap string pyval) :=
  let* L1 := lift (shifted (qdata L)) in
  let* '(L2, perm, ss_args) := reorder_wbm P L1 ss_args in
  let* '(L3, perm2, rev_perm, ss_args) := reorder_rcm_power P L2 ss_args in
  ret (L3, perm, perm2, rev_perm, ss_args).

(** [np.max(a, axis)] of a number [a] (the second positional argument of
    [np.max] is the axis): the reduction of a zero-dimensional array, whose
    only element is the result; numpy lets the axes 0 and -1 pass for it.  A
    float axis is truncated to an integer or rejected, by the numpy at
    hand. *)
Definition int_of (x : Qc) : Z := Z.quot (Qnum x) (Zpos (Qden x)).

Definition np_max_scalar (P : Prims) (a : Qc) (axis : pyval) : result Qc :=
  let along (z : Z) : result Qc :=
    if bool_decide (z = 0 ∨ z = -1)%Z then Ok a
    else Err (PyValueError "axis out of bounds") in
  match axis with
  | PNone => Ok a
  | PBool b => along (if b then 1 else 0)%Z
  | PInt z => along z
  | PFloat x =>
      if float_axis_ok P then along (int_of x)
      else Err (PyTypeError "'float' object cannot be interpreted as an integer")
  | _ => Err (PyTypeError "an integer is required for the axis")
  end.

(** [_tol = np.max(ss_args['tol']/10,1e-15)] *)
Definition power_inner_tol (P : Prims) (ss_args : gmap string pyval) : M Qc :=
  let* tol := num ss_args "tol" in
  lift (np_max_scalar P (tol / Q2Qc (inject_Z 10)) (PFloat q_1em15)).

(** One pass of the body of the [while] loop, before the rescaling. *)
Definition power_refine (P : Prims) (lu : option LUobj) (A : matrix) (_tol : Qc)
    (ss_args : gmap string pyval) (v : vec) : M vec :=
  let* method := get ss_args "method" in
  if is_str method "power" then
    match lu with
    | Some lu => lift (lu_solve lu v)
    | None => raise (PyNameError "lu")
    end
  else
    match which_krylov method "power-" with
    | Some k => let* '(v', check, iters) := call_krylov P k A v (PFloat _tol) ss_args in ret v'
    | None => raise (ConfigurationError "Invalid iterative solver method.")
    end.

(** [v / la.norm(v, np.inf)] *)
Definition rescale (P : Prims) (v : vec) : result vec :=
  if bool_decide (la_norm_inf P v = 0) then Err NonFinite
  else Ok (vscale (/ la_norm_inf P v) v).

(** The number of passes that [it < maxiter] allows, counting from zero. *)
Definition budget (maxiter : Qc) : nat := Z.to_nat (Qceiling maxiter).

(** [while (la.norm(L * v, np.inf) > tol) and (it < maxiter): ...], by
    recursion on the number of passes that are left; [it] counts those made. *)
Fixpoint power_loop (P : Prims) (refine : vec -> M vec) (A : matrix) (tol : Qc)
    (left : nat) (it : nat) (v : vec) : M (nat * vec) :=
  if bool_decide (tol < la_norm_inf P (matvec A v)) then
    match left with
    | O => ret (it, v)
    | S left' =>
        let* v' := refine v in
        let* v' := lift (rescale P v') in
        power_loop P refine A tol left' (S it) v'
    end
  else ret (it, v).

(** Modelled from the spec: the [shape] of the empty [Qobj()] whose [dims]
    were set to those of the density matrix (class Qobj is not among the
    sources); "normalize by the partial trace of the reshaped result":
    [trow] is the identity of the Hilbert space, reshaped into one row of
    length [n]. *)
Definition trace_row (L : Qobj) (n : nat) : result vec :=
  let m := prod_dims (qdims L) in
  if bool_decide (m * m = n)%nat then Ok (flatten (identity m))
  else Err (PyValueError "Total size of new array must be unchanged.").

Definition power_normalise (L : Qobj) (n : nat) (v : vec) : M vec :=
  if issuper L then
    let* trow := lift (trace_row L n) in
    let t := dot trow v in
    if bool_decide (t = C0) then raise NonFinite else ret (vdivC v t)
  else raise (PyNameError "data").

Definition _steadystate_power (P : Prims) (L : Qobj) (ss_args : gmap string pyval) : M ss_ret :=
  let* ss_args := info_pop ss_args "weight" in
  run emit (EUseSolver true PNone) in
  let n := nrows (qdata L) in
  let* '(L', perm, perm2, rev_perm, ss_args) := _steadystate_power_liouvillian P L ss_args in
  let* use_rcm := flag ss_args "use_rcm" in
  let* v := (if use_rcm then unpermute (ones n) perm2 else ret (ones n)) in
  let* method := get ss_args "method" in
  let* ss_args :=
    precondition_if_asked P L' (Nat.sqrt n)
      (str_in method ["power-gmres"; "power-lgmres"; "power-bicgstab"]%string) ss_args in
  let* lu := (if is_str method "power" then
                let* permc := get ss_args "permc_spec" in
                let* thresh := get ss_args "diag_pivot_thresh" in
                let* milu := get ss_args "ILU_MILU" in
                let* lu := lift (splu P L' permc thresh milu) in ret (Some lu)
              else ret None) in
  let* _tol := power_inner_tol P ss_args in
  let* tol := num ss_args "tol" in
  let* maxiter := num ss_args "maxiter" in
  let* '(it, v) := power_loop P (power_refine P lu L' _tol ss_args) L' tol (budget maxiter) 0 v in
  if bool_decide (maxiter <= Q2Qc (inject_Z (Z.of_nat it))) then
    let* shown := get ss_args "maxiter" in
    raise (ConvergenceError [shown])
  else
    let* ss_args := info_set ss_args "solution_time" PElapsed in
    let* ss_args := info_set ss_args "iterations" (PInt (Z.of_nat it)) in
    let* return_info := flag ss_args "return_info" in
    let* ss_args := (if return_info
                     then info_set ss_args "residual_norm" (PFloat (la_norm P (matvec L' v)))
                     else ret ss_args) in
    let* use_rcm := flag ss_args "use_rcm" in
    let* v := (if use_rcm then unpermute v rev_perm else ret v) in
    let* data := power_normalise L n v in
    return_state (hermitize (vec2mat data)) (qdims L) ss_args.

(** *** The entry points *)

(** Lines 205-224 of [steadystate]: the options, the Liouvillian, the
    weight. *)
Definition ss_prepare (P : Prims) (A : Qobj) (c_op_list : list Qobj)
    (kwargs : list (string * pyval)) : M (Qobj * gmap string pyval) :=
  let* ss_args := lift (apply_kwargs kwargs _default_steadystate_args) in
  let* ss_args := natural_if_rcm kwargs ss_args in
  let* A := _steadystate_setup P A c_op_list in
  let* ss_args := (if negb (has_key kwargs "weight") then
                     let* _ := info_get ss_args "weight" in
                     let* w := lift (auto_weight P A) in
                     info_set (<["weight" := PFloat w]> ss_args) "weight" (PFloat w)
                   else ret ss_args) in
  ret (A, ss_args).

(** Lines 226-247: the choice of the solver. *)
Definition ss_dispatch (P : Prims) (A : Qobj) (ss_args : gmap string pyval) : M ss_ret :=
  let* method := get ss_args "method" in
  if is_str method "direct" then
    let* sparse := flag ss_args "sparse" in
    if sparse then _steadystate_direct_sparse P A ss_args
    else _steadystate_direct_dense P A ss_args
  else if is_str method "eigen" then _steadystate_eigen P A ss_args
  else if str_in method ["iterative-gmres"; "iterative-lgmres"; "iterative-bicgstab"]%string
  then _steadystate_iterative P A ss_args
  else if is_str method "svd" then _steadystate_svd_dense P A ss_args
  else if str_in method ["power"; "power-gmres"; "power-lgmres"; "power-bicgstab"]%string
  then _steadystate_power P A ss_args
  else raise (ConfigurationError "Invalid method argument for steadystate.").

Definition steadystate (P : Prims) (A : Qobj) (c_op_list : list Qobj)
    (kwargs : list (string * pyval)) : M ss_ret :=
  let* '(A, ss_args) := ss_prepare P A c_op_list kwargs in
  ss_dispatch P A ss_args.

(** The method that a call selects: the default, or the one it is given. *)
Definition method_of (kwargs : list (string * pyval)) : option pyval :=
  match apply_kwargs kwargs _default_steadystate_args with
  | Ok ss_args => ss_args !! "method"
  | Err _ => None
  end.

(** The density matrices among the values returned. *)
Definition ret_states (r : ss_ret) : list Qobj :=
  match r with
  | RetState rho | RetStateInfo rho _ => [rho]
  | RetStates rhos | RetStatesInfo rhos _ => rhos
  end.

(** What [build_preconditioner] returns. *)
Inductive precond_ret : Type :=
| RetPrecond (m : pyval)
| RetPrecondInfo (m : pyval) (info : pyval).

Definition build_preconditioner (P : Prims) (A : Qobj) (c_op_list : list Qobj)
    (kwargs : list (string * pyval)) : M precond_ret :=
  let* ss_args := lift (apply_kwargs kwargs
                          (<["method" := PStr "iterative"]> _default_steadystate_args)) in
  let* ss_args := natural_if_rcm kwargs ss_args in
  let* L := _steadystate_setup P A c_op_list in
  let* ss_args := (if negb (has_key kwargs "weight") then
                     let* w := lift (auto_weight P L) in
                     info_set (<["weight" := PFloat w]> ss_args) "weight" (PFloat w)
                   else ret ss_args) in
  let n := Nat.sqrt (nrows (qdata L)) in
  let* method := get ss_args "method" in
  let* '(L', perm, perm2, rev_perm, ss_args) :=
    (if is_str method "iterative" then _steadystate_LU_liouvillian P L ss_args
     else if is_str method "power" then _steadystate_power_liouvillian P L ss_args
     else raise (ConfigurationError "Invalid preconditioning method.")) in
  let* '(m, ss_args) := _iterative_precondition P L' n ss_args in
  let* return_info := flag ss_args "return_info" in
  if return_info
  then let* info := get ss_args "info" in ret (RetPrecondInfo m info)
  else ret (RetPrecond m).


(** *** The pseudo-inverse *)

(** [A - B] of two sparse matrices. *)
Definition sp_sub (A B : matrix) : result matrix :=
  if bool_decide (nrows A = nrows B ∧ ncols A = ncols B)
  then Ok (msub A B) else Err (PyValueError "inconsistent shapes").

(** [np.dot(A, B)] and [A * B] of matrices. *)
Definition np_dot (A B : matrix) : result matrix :=
  if bool_decide (ncols A = nrows B) then Ok (matmul A B)
  else Err (PyValueError "shapes not aligned").

(** [L.dims[0][0]], a list for a superoperator only. *)
Definition hilbert_dims (L : Qobj) : result (list nat) :=
  if issuper L then Ok (qdims L) else Err (PyTypeError "'int' object is not iterable").

(** [Qobj(R, dims=L.dims)] *)
Definition like (L : Qobj) (R : matrix) : Qobj := mkQobj R (qtype_of L) (qdims L) None.

Definition _pseudo_inverse_dense (P : Prims) (L rhoss : Qobj) (method : pyval)
    (pseudo_args : gmap string pyval) : M Qobj :=
  if is_str method "direct" then
    let rho_vec := mat2vec (qdata rhoss) in
    let* d := lift (hilbert_dims L) in
    let tr_vec := mat2vec (tensor_identity d) in
    let N := prod_dims d in
    let I := identity (N * N) in
    let Pm := kron_col_row rho_vec tr_vec in
    let* Q := lift (np_sub I Pm) in
    let* LIQ := lift (np_linalg_solve_mat P (qdata L) Q) in
    let* R := lift (np_dot Q LIQ) in
    ret (like L R)
  else if is_str method "numpy" then
    let* R := lift (np_linalg_pinv P (qdata L)) in ret (like L R)
  else if is_str method "scipy" then
    let* R := lift (la_pinv P (qdata L)) in ret (like L R)
  else if is_str method "scipy2" then
    let* R := lift (la_pinv2 P (qdata L)) in ret (like L R)
  else raise (ConfigurationError "Unsupported method. Use 'direct' or 'numpy'").

Definition pseudo_sparse_solve (P : Prims) (A Q : matrix) (method : pyval)
    (pseudo_args : gmap string pyval) : M matrix :=
  if is_str method "spsolve" then raise (PyNameError "use_umfpack")
  else if is_str method "splu" then
    let* permc := get pseudo_args "permc_spec" in
    let* thresh := get pseudo_args "diag_pivot_thresh" in
    let* milu := get pseudo_args "ILU_MILU" in
    let* lu := lift (splu P A permc thresh milu) in
    lift (lu_solve_mat lu Q)
  else if is_str method "spilu" then
    let* permc := get pseudo_args "permc_spec" in
    let* fill := get pseudo_args "fill_factor" in
    let* drop_tol := get pseudo_args "drop_tol" in
    let* lu := lift (spilu P A permc drop_tol PNone fill PNone) in
    lift (lu_solve_mat lu Q)
  else raise (ConfigurationError "unsupported method").

Definition _pseudo_inverse_sparse (P : Prims) (L rhoss : Qobj) (method : pyval)
    (pseudo_args : gmap string pyval) : M Qobj :=
  let* d := lift (hilbert_dims L) in
  let N := prod_dims d in
  let rhoss_vec := mat2vec (qdata rhoss) in
  let tr_op_vec := mat2vec (tensor_identity d) in
  let Pm := kron_col_row rhoss_vec tr_op_vec in
  let I := identity (N * N) in
  let* Q := lift (sp_sub I Pm) in
  let* use_rcm := flag pseudo_args "use_rcm" in
  let* '(A, Q, perm) :=
    (if use_rcm then
       let* perm := lift (reverse_cuthill_mckee P (qdata L)) in
       let* A := lift (sp_permute P (qdata L) perm perm) in
       let* Q := lift (sp_permute P Q perm perm) in
       ret (A, Q, Some perm)
     else ret (qdata L, Q, None)) in
  let* LIQ := pseudo_sparse_solve P A Q method pseudo_args in
  let* R := lift (np_dot Q LIQ) in
  let* use_rcm := flag pseudo_args "use_rcm" in
  let* R := (match perm with
             | Some perm => if use_rcm
                            then lift (sp_permute P R (argsort perm) (argsort perm))
                            else ret R
             | None => if use_rcm then raise (PyNameError "perm") else ret R
             end) in
  ret (like L R).

(** [f(..., name=value, ** kwargs)]: a keyword that comes both by name and
    through the dictionary is a [TypeError] of the call, raised before the
    body of [f] runs. *)
Definition call_with_kwargs {A} (named : list string) (kwargs : gmap string pyval)
    (body : M A) : M A :=
  if existsb (fun k => bool_decide (is_Some (kwargs !! k))) named
  then raise (PyTypeError "got multiple values for keyword argument")
  else body.

(** The value [rhoss] as the two internal functions use it. *)
Definition state_of (r : ss_ret) : M Qobj :=
  match r with
  | RetState rho => ret rho
  | _ => raise (PyTypeError "not a Qobj")
  end.

Definition pseudo_inverse (P : Prims) (L : Qobj) (rhoss : option Qobj) (sparse : pyval)
    (method : pyval) (kwargs : list (string * pyval)) : M Qobj :=
  let* pseudo_args := lift (apply_kwargs kwargs _default_steadystate_args) in
  let* pseudo_args := natural_if_rcm kwargs pseudo_args in
  let* rhoss := (match rhoss with
                 | Some rho => ret (RetState rho)
                 | None => steadystate P L [] (map_to_list pseudo_args)
                 end) in
  let* sparse := lift (truthy sparse) in
  if sparse then
    call_with_kwargs ["method"%string] pseudo_args
      (let* rho := state_of rhoss in _pseudo_inverse_sparse P L rho method pseudo_args)
  else
    let method := if is_str method "splu" then PStr "direct" else method in
    call_with_kwargs ["method"%string] pseudo_args
      (let* rho := state_of rhoss in _pseudo_inverse_dense P L rho method pseudo_args).

(** [steady]: deprecated; it warns and calls [steadystate] with four of its
    seven arguments. *)
Definition steady (P : Prims) (L : Qobj) (maxiter tol itertol method use_umfpack
    use_precond : pyval) : M ss_ret :=
  run emit (EWarn "steady has been deprecated, use steadystate instead") in
  steadystate P L [] [("maxiter", maxiter); ("tol", tol); ("use_umfpack", use_umfpack);
                      ("use_precond", use_precond)]%string.

(** The value of an option after the keywords of a call were applied. *)
Definition option_of (kwargs : list (string * pyval)) (key : string) : option pyval :=
  match apply_kwargs kwargs _default_steadystate_args with
  | Ok ss_args => ss_args !! key
  | Err _ => None
  end.

End Steadystate.
Export Steadystate.

(** ** Concrete inputs

    Small generators and a table of library results for them: each entry of
    [demo] answers the calls that the examples make with the result that the
    library call has there, and raises on any other call. *)

Module Examples.

Local Open Scope Qc_scope.

Definition qq (n : Z) (d : positive) : C := ofQc (Q2Qc (n # d)).
Definition qz (n : Z) : C := qq n 1.

(** Amplitude damping of a two-level system at unit rate, in the basis
    (rho00, rho10, rho01, rho11). *)
Definition damping : matrix :=
  [[qz 0; qz 0; qz 0; qz 1];
   [qz 0; qq (-1) 2; qz 0; qz 0];
   [qz 0; qz 0; qq (-1) 2; qz 0];
   [qz 0; qz 0; qz 0; qz (-1)]].
Definition L_damping : Qobj := mkQobj damping Super [2%nat] None.

(** A superoperator whose kernel is spanned by the vectorization of the
    matrix [[3/5, 4/5], [0, 0]], which is not Hermitian: the projector on
    the complement of v = (3/5, 0, 4/5, 0). *)
Definition skew : matrix :=
  [[qq 16 25; qz 0; qq (-12) 25; qz 0];
   [qz 0; qz 1; qz 0; qz 0];
   [qq (-12) 25; qz 0; qq 9 25; qz 0];
   [qz 0; qz 0; qz 0; qz 1]].
Definition L_skew : Qobj := mkQobj skew Super [2%nat] None.

(** Its singular value decomposition [skew = u * diag(s) * vh]. *)
Definition skew_u : matrix :=
  [[qz 0; qz 0; qq 4 5; qq 3 5];
   [qz 1; qz 0; qz 0; qz 0];
   [qz 0; qz 0; qq (-3) 5; qq 4 5];
   [qz 0; qz 1; qz 0; qz 0]].
Definition skew_s : list Qc := [Q2Qc 1; Q2Qc 1; Q2Qc 1; Q2Qc 0].
Definition skew_vh : matrix :=
  [[qz 0; qz 1; qz 0; qz 0];
   [qz 0; qz 0; qz 0; qz 1];
   [qq 4 5; qz 0; qq (-3) 5; qz 0];
   [qq 3 5; qz 0; qq 4 5; qz 0]].

(** The dense system of the damping generator with weight one, and its
    solution. *)
Definition damping_dense : matrix :=
  [[qz 1; qz 0; qz 0; qz 1];
   [qz 0; qq (-1) 2; qz 0; qz 0];
   [qz 0; qz 0; qq (-1) 2; qz 0];
   [qz 0; qz 0; qz 0; qz (-1)]].
Definition e0 : vec := [qz 1; qz 0; qz 0; qz 0].

(** The damping generator shifted by 1e-15, and the solution [x] of
    [shifted * x = ones]. *)
Definition eps : Qc := q_1em15.
Definition damping_shifted : matrix :=
  [[ofQc (- eps); qz 0; qz 0; qz 1];
   [qz 0; ofQc (Q2Qc (-1 # 2) - eps); qz 0; qz 0];
   [qz 0; qz 0; ofQc (Q2Qc (-1 # 2) - eps); qz 0];
   [qz 0; qz 0; qz 0; ofQc (Q2Qc (-1) - eps)]].
Definition damping_solved : vec :=
  [ofQc (- (Q2Qc 2 + eps) / (eps * (Q2Qc 1 + eps)));
   ofQc (- Q2Qc 1 / (Q2Qc (1 # 2) + eps));
   ofQc (- Q2Qc 1 / (Q2Qc (1 # 2) + eps));
   ofQc (- Q2Qc 1 / (Q2Qc 1 + eps))].

(** Moduli and norms of real numbers and real vectors.  The root of a
    rational number in lowest terms is taken on numerator and denominator:
    it is exact for the square of a rational number, which the sums of
    squares that the examples meet are. *)
Definition Qcabs (x : Qc) : Qc := if bool_decide (x < 0) then - x else x.
Definition abs_real (z : C) : Qc := Qcabs (re z).
Definition norm_inf_real (v : vec) : Qc := foldr Qcmax 0 (map abs_real v).
Definition Qcsqrt (x : Qc) : Qc := Q2Qc (Z.sqrt (Qnum x) # Pos.sqrt (Qden x)).
Definition norm_2 (v : vec) : Qc := Qcsqrt (foldr Qcplus 0 (map Cnorm2 v)).

(** Rows and columns in a new order; an empty order leaves them. *)
Definition reorder (A : matrix) (rperm cperm : list nat) : matrix :=
  let rp := if bool_decide (rperm = []) then seq 0 (nrows A) else rperm in
  let cp := if bool_decide (cperm = []) then seq 0 (ncols A) else cperm in
  map (fun i => map (fun j => mget A i j) cp) rp.

Definition untabulated {A} : result A := Err (LibraryError "not tabulated").

Definition demo_lu : LUobj :=
  mkLU (fun v => if bool_decide (v = ones 4) then Ok damping_solved else untabulated)
       (fun _ => untabulated) 4 4.

Definition demo : Prims := {|
  liouvillian := fun _ _ => untabulated;
  weighted_bipartite_matching := fun A => Ok (seq 0 (nrows A));
  reverse_cuthill_mckee := fun A => Ok (reverse (seq 0 (nrows A)));
  sp_permute := fun A rperm cperm => Ok (reorder A rperm cperm);
  splu := fun A _ _ _ => if bool_decide (A = damping_shifted) then Ok demo_lu else untabulated;
  spilu := fun _ _ _ _ _ _ => untabulated;
  spsolve := fun _ _ => untabulated;
  np_linalg_solve := fun A b =>
    if bool_decide (A = damping_dense /\ b = e0) then Ok e0 else untabulated;
  np_linalg_solve_mat := fun _ _ => untabulated;
  np_linalg_pinv := fun _ => untabulated;
  la_pinv := fun _ => untabulated;
  la_pinv2 := fun _ => untabulated;
  eigs := fun _ _ _ => untabulated;
  svd := fun A => if bool_decide (A = skew) then Ok (skew_u, skew_s, skew_vh) else untabulated;
  krylov_solve := fun _ _ b _ _ x0 _ _ =>
    Ok (match x0 with PArr v => v | _ => b end, 0%Z, 0%nat);
  la_norm := norm_2;
  la_norm_inf := norm_inf_real;
  np_abs := abs_real;
  scipy_check := true;
  float_axis_ok := true
|}.

(** The default options with the weight set to one. *)
Definition weighted_args : gmap string pyval :=
  <["weight" := PFloat (Q2Qc 1)]> _default_steadystate_args.

(** An iterative solve with the Cuthill-McKee reordering and an initial
    guess. *)
Definition guess : vec := [qz 1; qz 2; qz 3; qz 4].
Definition rcm_args : gmap string pyval :=
  <["x0" := PArr guess]>
    (<["use_rcm" := PBool true]> (<["method" := PStr "iterative-gmres"]> weighted_args)).

(** The runs of the examples, computed once. *)
Definition damping_LU_matrix : matrix :=
  Eval vm_compute in
    match _steadystate_LU_liouvillian demo L_damping weighted_args [] with
    | (Ok (L', _, _, _, _), _) => L'
    | _ => []
    end.
Definition damping_LU_args : gmap string pyval :=
  Eval vm_compute in
    match _steadystate_LU_liouvillian demo L_damping weighted_args [] with
    | (Ok (_, _, _, _, a), _) => a
    | _ => ∅
    end.
Definition damping_dense_matrix : matrix :=
  Eval vm_compute in
    match dense_conditioned damping (Q2Qc 1) with Ok A => A | Err _ => [] end.

Definition rcm_matrix : matrix :=
  Eval vm_compute in
    match iterative_prepare demo L_damping rcm_args [] with
    | (Ok (L', _, _, _), _) => L'
    | _ => []
    end.
Definition rcm_rhs : vec :=
  Eval vm_compute in
    match iterative_prepare demo L_damping rcm_args [] with
    | (Ok (_, b, _, _), _) => b
    | _ => []
    end.
Definition rcm_prepared_args : gmap string pyval :=
  Eval vm_compute in
    match iterative_prepare demo L_damping rcm_args [] with
    | (Ok (_, _, _, a), _) => a
    | _ => ∅
    end.

(** Two-level operators.  With the Hamiltonian zero and the collapse
    operator [lowering], which takes the second basis state to the first,
    the Liouvillian c rho c+ - (c+ c rho + rho c+ c)/2 is the damping
    generator; [demo_built] holds this one construction and is [demo]
    otherwise. *)
Definition sigma_z : Qobj := mkQobj [[qz 1; qz 0]; [qz 0; qz (-1)]] Oper [2%nat] None.
Definition sigma_minus : Qobj := mkQobj [[qz 0; qz 0]; [qz 1; qz 0]] Oper [2%nat] None.
Definition H_free : Qobj := mkQobj [[qz 0; qz 0]; [qz 0; qz 0]] Oper [2%nat] None.
Definition lowering : Qobj := mkQobj [[qz 0; qz 1]; [qz 0; qz 0]] Oper [2%nat] None.

Definition demo_built : Prims := {|
  liouvillian := fun H c_ops =>
    if bool_decide (qdata H = qdata H_free /\ qdata <$> c_ops = [qdata lowering])
    then Ok L_damping else untabulated;
  weighted_bipartite_matching := weighted_bipartite_matching demo;
  reverse_cuthill_mckee := reverse_cuthill_mckee demo;
  sp_permute := sp_permute demo;
  splu := splu demo;
  spilu := spilu demo;
  spsolve := spsolve demo;
  np_linalg_solve := np_linalg_solve demo;
  np_linalg_solve_mat := np_linalg_solve_mat demo;
  np_linalg_pinv := np_linalg_pinv demo;
  la_pinv := la_pinv demo;
  la_pinv2 := la_pinv2 demo;
  eigs := eigs demo;
  svd := svd demo;
  krylov_solve := krylov_solve demo;
  la_norm := la_norm demo;
  la_norm_inf := la_norm_inf demo;
  np_abs := np_abs demo;
  scipy_check := scipy_check demo;
  float_axis_ok := float_axis_ok demo
|}.

(** The options after the preparation of a call without keywords. *)
Definition damping_prepared_args : gmap string pyval :=
  Eval vm_compute in
    match ss_prepare demo L_damping [] [] [] with
    | (Ok (_, a), _) => a
    | _ => ∅
    end.

(** A table whose only entry is the singular value decomposition of the
    identity of dimension four, which has full rank. *)
Definition demo_full_rank : Prims := {|
  liouvillian := liouvillian demo;
  weighted_bipartite_matching := weighted_bipartite_matching demo;
  reverse_cuthill_mckee := reverse_cuthill_mckee demo;
  sp_permute := sp_permute demo;
  splu := splu demo;
  spilu := spilu demo;
  spsolve := spsolve demo;
  np_linalg_solve := np_linalg_solve demo;
  np_linalg_solve_mat := np_linalg_solve_mat demo;
  np_linalg_pinv := np_linalg_pinv demo;
  la_pinv := la_pinv demo;
  la_pinv2 := la_pinv2 demo;
  eigs := eigs demo;
  svd := fun A => if bool_decide (A = identity 4)
                  then Ok (identity 4, [Q2Qc 1; Q2Qc 1; Q2Qc 1; Q2Qc 1], identity 4)
                  else untabulated;
  krylov_solve := krylov_solve demo;
  la_norm := la_norm demo;
  la_norm_inf := la_norm_inf demo;
  np_abs := np_abs demo;
  scipy_check := scipy_check demo;
  float_axis_ok := float_axis_ok demo
|}.
Definition L_identity : Qobj := mkQobj (identity 4) Super [2%nat] None.

(** The state that the direct solvers return for the damping generator: the
    vector [e0] as a matrix, averaged with its conjugate transpose. *)
Definition damping_state : Qobj := mkQobj (hermitize (vec2mat e0)) Oper [2%nat] (Some true).

(** The power method with a budget of two passes, and what it returns for
    the damping generator, without and with the diagnostics. *)
Definition power_args : gmap string pyval :=
  <["maxiter" := PInt 2]> (<["method" := PStr "power"]> _default_steadystate_args).
Definition power_result : ss_ret :=
  Eval vm_compute in
    match _steadystate_power demo L_damping power_args [] with
    | (Ok r, _) => r
    | _ => RetStates []
    end.

Definition power_info_args : gmap string pyval := <["return_info" := PBool true]> power_args.
Definition power_info_state : Qobj :=
  Eval vm_compute in
    match _steadystate_power demo L_damping power_info_args [] with
    | (Ok (RetStateInfo rho _), _) => rho
    | _ => L_damping
    end.
Definition power_info : pyval :=
  Eval vm_compute in
    match _steadystate_power demo L_damping power_info_args [] with
    | (Ok (RetStateInfo _ info), _) => info
    | _ => PNone
    end.

(** The superoperator without entries, and a steady state of the damping
    generator as an operator. *)
Definition L_zero : Qobj := mkQobj (mk_matrix 4 4 (fun _ _ => C0)) Super [2%nat] None.
Definition ground : Qobj := mkQobj [[qz 1; qz 0]; [qz 0; qz 0]] Oper [2%nat] None.

(** A table for the sparse direct solve of the damping generator with weight
    one: the conditioned matrix has the rows (1,0,0,2), (0,-1/2,0,0),
    (0,0,-1/2,0), (0,0,0,-1), and [e0] solves the system with right-hand
    side [e0]; the factors L = 1 and U = A have four and five entries. *)
Definition demo_direct_lu : LUobj :=
  mkLU (fun b => if bool_decide (b = e0) then Ok e0 else untabulated)
       (fun _ => untabulated) 4 5.

Definition demo_direct : Prims := {|
  liouvillian := liouvillian demo;
  weighted_bipartite_matching := weighted_bipartite_matching demo;
  reverse_cuthill_mckee := reverse_cuthill_mckee demo;
  sp_permute := sp_permute demo;
  splu := fun A _ _ _ => if bool_decide (A = damping_LU_matrix) then Ok demo_direct_lu
                         else untabulated;
  spilu := spilu demo;
  spsolve := spsolve demo;
  np_linalg_solve := np_linalg_solve demo;
  np_linalg_solve_mat := np_linalg_solve_mat demo;
  np_linalg_pinv := np_linalg_pinv demo;
  la_pinv := la_pinv demo;
  la_pinv2 := la_pinv2 demo;
  eigs := eigs demo;
  svd := svd demo;
  krylov_solve := krylov_solve demo;
  la_norm := la_norm demo;
  la_norm_inf := la_norm_inf demo;
  np_abs := np_abs demo;
  scipy_check := scipy_check demo;
  float_axis_ok := float_axis_ok demo
|}.

Definition direct_info_args : gmap string pyval :=
  <["return_info" := PBool true]> weighted_args.
Definition direct_info : pyval :=
  Eval vm_compute in
    match _steadystate_direct_sparse demo_direct L_damping direct_info_args [] with
    | (Ok (RetStateInfo _ info), _) => info
    | _ => PNone
    end.

(** An iterative solve with both reorderings and an initial guess, and what
    it returns. *)
Definition both_args : gmap string pyval := <["use_wbm" := PBool true]> rcm_args.
Definition both_result : ss_ret :=
  Eval vm_compute in
    match _steadystate_iterative demo L_damping both_args [] with
    | (Ok r, _) => r
    | _ => RetStates []
    end.

(** A sparse direct solve with both reorderings.  The conditioned matrix of
    the damping generator with rows and columns reversed has the rows
    (-1,0,0,0), (0,-1/2,0,0), (0,0,-1/2,0), (2,0,0,1); the right-hand side
    reversed is [e3], and [e3] solves the system. *)
Definition direct_both_args : gmap string pyval :=
  <["use_wbm" := PBool true]> (<["use_rcm" := PBool true]> weighted_args).
Definition reordered_LU_matrix : matrix :=
  Eval vm_compute in
    match _steadystate_LU_liouvillian demo L_damping direct_both_args [] with
    | (Ok (L', _, _, _, _), _) => L'
    | _ => []
    end.
Definition e3 : vec := [qz 0; qz 0; qz 0; qz 1].
Definition demo_reordered_lu : LUobj :=
  mkLU (fun b => if bool_decide (b = e3) then Ok e3 else untabulated)
       (fun _ => untabulated) 4 5.

(** A table of exact answers: the factorizations of the conditioned damping
    matrix, of that matrix reordered and of the shifted damping generator
    (as in [demo_direct] and [demo]), the umfpack solve of the conditioned
    damping system, and its iterative solve as it is and reordered.  Every
    answer solves its system. *)
Definition demo_exact : Prims := {|
  liouvillian := liouvillian demo;
  weighted_bipartite_matching := weighted_bipartite_matching demo;
  reverse_cuthill_mckee := reverse_cuthill_mckee demo;
  sp_permute := sp_permute demo;
  splu := fun A _ _ _ =>
    if bool_decide (A = damping_LU_matrix) then Ok demo_direct_lu
    else if bool_decide (A = reordered_LU_matrix) then Ok demo_reordered_lu
    else if bool_decide (A = damping_shifted) then Ok demo_lu
    else untabulated;
  spilu := spilu demo;
  spsolve := fun A b =>
    if bool_decide (A = damping_LU_matrix /\ b = e0) then Ok e0 else untabulated;
  np_linalg_solve := np_linalg_solve demo;
  np_linalg_solve_mat := np_linalg_solve_mat demo;
  np_linalg_pinv := np_linalg_pinv demo;
  la_pinv := la_pinv demo;
  la_pinv2 := la_pinv2 demo;
  eigs := eigs demo;
  svd := svd demo;
  krylov_solve := fun _ A b _ _ _ _ _ =>
    if bool_decide (A = damping_LU_matrix /\ b = e0) then Ok (e0, 0%Z, 1%nat)
    else if bool_decide (A = reordered_LU_matrix /\ b = e3) then Ok (e3, 0%Z, 1%nat)
    else untabulated;
  la_norm := la_norm demo;
  la_norm_inf := la_norm_inf demo;
  np_abs := np_abs demo;
  scipy_check := scipy_check demo;
  float_axis_ok := float_axis_ok demo
|}.

Definition direct_both_result : ss_ret :=
  Eval vm_compute in
    match _steadystate_direct_sparse demo_exact L_damping direct_both_args [] with
    | (Ok r, _) => r
    | _ => RetStates []
    end.

(** The state that the svd solver returns for [L_skew] when it is asked for
    the diagnostics as well. *)
Definition svd_info_kwargs : list (string * pyval) :=
  [("method", PStr "svd"); ("return_info", PBool true)]%string.
Definition skew_state : Qobj :=
  Eval vm_compute in
    match steadystate demo L_skew [] svd_info_kwargs [] with
    | (Ok (RetState rho), _) => rho
    | _ => L_skew
    end.

(** The iterative solve of the damping system with weight one without and
    with both reorderings, and the options of a dense solve. *)
Definition iterative_args : gmap string pyval :=
  <["method" := PStr "iterative-gmres"]> weighted_args.
Definition iterative_both_args : gmap string pyval :=
  <["use_wbm" := PBool true]> (<["use_rcm" := PBool true]> iterative_args).
Definition iterative_both_result : ss_ret :=
  Eval vm_compute in
    match _steadystate_iterative demo_exact L_damping iterative_both_args [] with
    | (Ok r, _) => r
    | _ => RetStates []
    end.
Definition dense_kwargs : list (string * pyval) := [("sparse", PBool false)]%string.

End Examples.
Export Examples.

(** ** Notions that the statements use *)

Module Notions.

(** What holds of every value that a computation returns. *)
Definition post {A} (Q : A -> Prop) (m : M A) : Prop :=
  forall w a w', m w = (Ok a, w') -> Q a.

(** Of the density matrices that a call returns. *)
Definition all_unit_trace (r : ss_ret) : Prop :=
  Forall (fun rho => trace (qdata rho) = C1) (ret_states r).

(** What the documentation of [weight] promises: the mean of the moduli of
    the stored entries. *)
Definition mean_abs (P : Prims) (A : Qobj) : Qc :=
  (foldr Qcplus (Q2Qc 0) (map (np_abs P) (stored (qdata A)))
   / Q2Qc (inject_Z (Z.of_nat (length (stored (qdata A))))))%Qc.

(** The entry of the trace constraint in column [j]: the weight on the places
    of the diagonal of the density matrix, zero elsewhere. *)
Definition trace_entry (n : nat) (w : Qc) (j : nat) : C :=
  if bool_decide (j ∈ trace_cols n) then ofQc w else C0.

(** In the words of the specification: the rank-one projector built from the
    vectorized steady state and the vectorized identity, entry (i, j) being
    the product of element [i] of the one and element [j] of the other, and
    its complement [Q = I - P]. *)
Definition spec_projector (rho : matrix) (N : nat) : matrix :=
  mk_matrix (N * N) (N * N) (fun i j =>
    Cmul (mget rho (i mod N) (i / N)) (if bool_decide (j mod N = j / N) then C1 else C0)).

Definition spec_complement (rho : matrix) (N : nat) : matrix :=
  mk_matrix (N * N) (N * N) (fun i j =>
    Csub (if bool_decide (i = j) then C1 else C0) (mget (spec_projector rho N) i j)).

(** A vector in the order that an optional permutation gives it. *)
Definition in_order (perm : option (list nat)) (b : vec) : vec :=
  match perm with
  | Some p => ix b p
  | None => b
  end.

(** An optional index array that, when present, permutes the [n] places. *)
Definition permutes (perm : option (list nat)) (n : nat) : Prop :=
  match perm with
  | Some p => p ≡ₚ seq 0 n
  | None => True
  end.

(** A computation that leaves no effect behind, whatever it returns. *)
Definition silent {A} (m : M A) : Prop :=
  forall w r w', m w = (r, w') -> w' = w.

(** A computation that leaves at most one effect behind, of a given kind. *)
Definition at_most (kind : effect -> Prop) {A} (m : M A) : Prop :=
  forall w r w', m w = (r, w') -> w' = w \/ exists e, kind e /\ w' = w ++ [e].

Definition selects_solver (e : effect) : Prop := exists umf, e = EUseSolver true umf.

(** The names that [steadystate] accepts for [method]. *)
Definition known_methods : list string :=
  ["direct"; "eigen"; "iterative-gmres"; "iterative-lgmres"; "iterative-bicgstab";
   "svd"; "power"; "power-gmres"; "power-lgmres"; "power-bicgstab"]%string.

(** An entry of a dictionary of diagnostics, and of the one that the options
    hold. *)
Definition entry (info : pyval) (k : string) : option pyval :=
  match info with
  | PDict d => dict_get d k
  | _ => None
  end.

Definition info_entry (ss_args : gmap string pyval) (k : string) : option pyval :=
  match ss_args !! "info" with
  | Some info => entry info k
  | None => None
  end.

(** The solver parameters that [record_lu_options] copies. *)
Definition lu_option_names : list string :=
  ["permc_spec"; "drop_tol"; "diag_pivot_thresh"; "fill_factor"; "ILU_MILU"]%string.

(** The diagnostics among the values returned, if any. *)
Definition ret_info (r : ss_ret) : option pyval :=
  match r with
  | RetStateInfo _ info | RetStatesInfo _ info => Some info
  | _ => None
  end.

(** An option read as a truth value, and as a number. *)
Definition flag_is (ss_args : gmap string pyval) (k : string) (b : bool) : Prop :=
  exists v, ss_args !! k = Some v /\ truthy v = Ok b.

Definition num_is (ss_args : gmap string pyval) (k : string) (x : Qc) : Prop :=
  exists v, ss_args !! k = Some v /\ as_real v = Ok x.

(** What the reorderings of a matrix are, read off a successful run: the
    matching reorders the rows, the Cuthill-McKee ordering rows and columns,
    and the order to put a solution back is [np.argsort] of the latter. *)
Definition matched (P : Prims) (use_wbm : bool) (L1 L2 : matrix) (perm : option (list nat))
  : Prop :=
  if use_wbm
  then exists q, weighted_bipartite_matching P L1 = Ok q /\ sp_permute P L1 q [] = Ok L2 /\
                 perm = Some q
  else L2 = L1 /\ perm = None.

Definition ordered (P : Prims) (use_rcm : bool) (L2 L3 : matrix)
    (perm2 rev_perm : option (list nat)) : Prop :=
  if use_rcm
  then exists p, reverse_cuthill_mckee P L2 = Ok p /\ sp_permute P L2 p p = Ok L3 /\
                 perm2 = Some p /\ rev_perm = Some (argsort p)
  else L3 = L2 /\ perm2 = None /\ rev_perm = None.

(** [if np.any(perm): b = b[np.ix_(perm,)]] as a relation between [b] before
    and after. *)
Definition reordered (perm : option (list nat)) (b b' : vec) : Prop :=
  if np_any perm then exists p, perm = Some p /\ take_ix b p = Ok b' else b' = b.

(** [if use_rcm: v = v[np.ix_(rev_perm,)]] as a relation. *)
Definition unpermuted (use_rcm : bool) (rev_perm : option (list nat)) (v v' : vec) : Prop :=
  if use_rcm then exists rp, rev_perm = Some rp /\ take_ix v rp = Ok v' else v' = v.

(** In the words of the specification.  The matrix X of a vector, filled
    column by column as [vec2mat] fills it; the average of X with its
    conjugate transpose, (X + X^dagger)/2, entry by entry; the sum over the
    diagonal; and a matrix divided by its trace. *)
Definition reshaped (v : vec) (i j : nat) : C := vget v (j * Nat.sqrt (length v) + i).

Definition averaged (v : vec) (i j : nat) : C :=
  Cscale half (Cadd (reshaped v i j) (Cconj (reshaped v j i))).

Definition diagonal_sum (X : nat -> nat -> C) (n : nat) : C :=
  Csum (map (fun k => X k k) (seq 0 n)).

Definition over_trace (X : nat -> nat -> C) (n : nat) (i j : nat) : C :=
  Cdiv (X i j) (diagonal_sum X n).

(** A density matrix that is the average for the vector [v]; that average
    divided by its trace; and the matrix of [v] itself divided by its
    trace. *)
Definition is_average (v : vec) (rho : Qobj) : Prop :=
  let n := Nat.sqrt (length v) in
  qdata rho = mk_matrix n n (averaged v).

Definition is_average_over_trace (v : vec) (rho : Qobj) : Prop :=
  let n := Nat.sqrt (length v) in
  diagonal_sum (averaged v) n <> C0 /\
  qdata rho = mk_matrix n n (over_trace (averaged v) n).

Definition is_raw_over_trace (v : vec) (rho : Qobj) : Prop :=
  let n := Nat.sqrt (length v) in
  diagonal_sum (reshaped v) n <> C0 /\
  qdata rho = mk_matrix n n (over_trace (reshaped v) n).

(** A Liouvillian preserves the trace when its rows at the diagonal places
    add up to zero. *)
Definition trace_preserving (L : matrix) : Prop :=
  let n := Nat.sqrt (nrows L) in
  forall j, j < n * n -> Csum (map (fun k => mget L (k * (n + 1)) j) (seq 0 n)) = C0.

(** The system that the sparse direct solver and the iterative solvers hand
    to the library: the generator with the trace condition added to its first
    row, reordered, and the right-hand side [weight * e0] put in the order of
    the matching first and of the Cuthill-McKee ordering second. *)
Definition lu_system (P : Prims) (L : Qobj) (ss_args : gmap string pyval) (use_rcm : bool)
    (perm perm2 rev_perm : option (list nat)) (L' : matrix) (b : vec) : Prop :=
  let n := Nat.sqrt (nrows (qdata L)) in
  exists wt b0 L1 L2 use_wbm b1,
    num_is ss_args "weight" wt /\ rhs (n ^ 2) wt = Ok b0 /\
    sp_add (qdata L)
      (coo_matrix (vscale wt (ones n)) (repeat 0%nat n) (trace_cols n) (n ^ 2) (n ^ 2)) = Ok L1 /\
    flag_is ss_args "use_wbm" use_wbm /\ matched P use_wbm L1 L2 perm /\
    flag_is ss_args "use_rcm" use_rcm /\ ordered P use_rcm L2 L' perm2 rev_perm /\
    reordered perm b0 b1 /\ reordered perm2 b1 b.

(** The call of the library that gave the solution [v] of the system
    [(A, b)]: in the sparse direct solver the factorization and its solve, or
    the umfpack solve; in the iterative solvers the solver that [method]
    names, with the initial guess [x0] of the options, ending with status
    zero. *)
Definition solved_direct (P : Prims) (ss_args : gmap string pyval) (use_umfpack : bool)
    (A : matrix) (b v : vec) : Prop :=
  if use_umfpack then spsolve P A b = Ok v
  else exists permc thresh milu lu,
         ss_args !! "permc_spec" = Some permc /\
         ss_args !! "diag_pivot_thresh" = Some thresh /\
         ss_args !! "ILU_MILU" = Some milu /\
         splu P A permc thresh milu = Ok lu /\ lu_solve lu b = Ok v.

Definition solved_iterative (P : Prims) (ss_args : gmap string pyval)
    (A : matrix) (b v : vec) : Prop :=
  exists method k tol m x0 restart maxiter iters,
    ss_args !! "method" = Some method /\ which_krylov method "iterative-" = Some k /\
    ss_args !! "tol" = Some tol /\ ss_args !! "x0" = Some x0 /\
    ss_args !! "maxiter" = Some maxiter /\
    krylov_solve P k A b tol m x0 restart maxiter = Ok (v, 0%Z, iters).

(** The iterate [v] at which the loop of [_steadystate_power] stops, after
    [it] passes: the loop runs on the shifted and reordered Liouvillian [A]
    of [_steadystate_power_liouvillian], from the vector of ones (in the
    order [perm2] when [use_rcm] is set), with the factorization of [A] or
    the iterative solver that [method] names; it stops below [maxiter] with
    the infinity norm of [A * v] at most [tol].  The effects [w1] are those
    after the announcement of the solver; no step changes them. *)
Definition power_iterate (P : Prims) (L : Qobj) (ss_args : gmap string pyval)
    (w1 : list effect) (use_rcm : bool) (rev_perm : option (list nat))
    (it : nat) (v : vec) : Prop :=
  let n := nrows (qdata L) in
  exists d A perm perm2 a1 v0 method a2 lu _tol tol maxiter,
    ss_args !! "info" = Some (PDict d) /\
    _steadystate_power_liouvillian P L (<["info" := PDict (dict_pop d "weight")]> ss_args) w1
    = (Ok (A, perm, perm2, rev_perm, a1), w1) /\
    flag_is ss_args "use_rcm" use_rcm /\
    unpermuted use_rcm perm2 (ones n) v0 /\
    ss_args !! "method" = Some method /\
    precondition_if_asked P A (Nat.sqrt n)
      (str_in method ["power-gmres"; "power-lgmres"; "power-bicgstab"]%string) a1 w1
    = (Ok a2, w1) /\
    (if is_str method "power"
     then exists permc thresh milu l,
            ss_args !! "permc_spec" = Some permc /\
            ss_args !! "diag_pivot_thresh" = Some thresh /\
            ss_args !! "ILU_MILU" = Some milu /\
            splu P A permc thresh milu = Ok l /\ lu = Some l
     else lu = None) /\
    num_is ss_args "tol" tol /\
    np_max_scalar P (tol / Q2Qc (inject_Z 10))%Qc (PFloat q_1em15) = Ok _tol /\
    num_is ss_args "maxiter" maxiter /\
    power_loop P (power_refine P lu A _tol a2) A tol (budget maxiter) 0 v0 w1
    = (Ok (it, v), w1) /\
    (Q2Qc (inject_Z (Z.of_nat it)) < maxiter)%Qc /\
    (la_norm_inf P (matvec A v) <= tol)%Qc.

(** A vector [v] that solves the system of the [N] first rows and columns of
    [A] with the right-hand side [b], row by row. *)
Definition solves (N : nat) (A : matrix) (b v : vec) : Prop :=
  forall i, i < N ->
    vget b i = Csum (map (fun j => Cmul (mget A i j) (vget v j)) (seq 0 N)).

End Notions.
Export Notions.

(** * Facts *)

(** ** Scalars *)

Module ScalarFacts.

Local Open Scope Qc_scope.

Lemma C_eq (a b : C) : re a = re b -> im a = im b -> a = b.
Proof. destruct a, b; simpl; intros -> ->; reflexivity. Qed.

Lemma Cconj_involutive a : Cconj (Cconj a) = a.
Proof. apply C_eq; simpl; ring. Qed.

Lemma Cconj_add a b : Cconj (Cadd a b) = Cadd (Cconj a) (Cconj b).
Proof. apply C_eq; simpl; ring. Qed.

Lemma Cconj_scale r a : Cconj (Cscale r a) = Cscale r (Cconj a).
Proof. apply C_eq; simpl; ring. Qed.

Lemma Cadd_comm a b : Cadd a b = Cadd b a.
Proof. apply C_eq; simpl; ring. Qed.

Lemma Cadd_0_r a : Cadd a C0 = a.
Proof. apply C_eq; simpl; ring. Qed.

Lemma Cadd_0_l a : Cadd C0 a = a.
Proof. apply C_eq; simpl; ring. Qed.

Lemma sq_sum_0 (x y : Qc) : x * x + y * y = 0 -> x = 0 /\ y = 0.
Proof.
  intros H.
  assert (Hq : (x * x + y * y == 0)%Q).
  { change (Qeq (this x * this x + this y * this y) (this 0)).
    rewrite <- H. simpl. rewrite !Qred_correct. reflexivity. }
  assert (this x == 0 /\ this y == 0)%Q as [Hx Hy] by (split; nra).
  split; apply Qc_is_canon; simpl; assumption.
Qed.

Lemma Cnorm2_0 a : Cnorm2 a = 0 -> a = C0.
Proof.
  destruct a as [x y]. unfold Cnorm2; simpl. intros [-> ->]%sq_sum_0. reflexivity.
Qed.

Lemma Cdiv_diag a : a <> C0 -> Cdiv a a = C1.
Proof.
  intros Ha. assert (Hn : Cnorm2 a <> 0) by (intros H; apply Ha, Cnorm2_0, H).
  destruct a as [x y]. unfold Cnorm2 in Hn; simpl in Hn.
  apply C_eq; unfold Cdiv, Cinv, Cmul, Cscale, Cconj, Cnorm2; simpl; field; exact Hn.
Qed.

Lemma Cdiv_add a b c : Cdiv (Cadd a b) c = Cadd (Cdiv a c) (Cdiv b c).
Proof. apply C_eq; unfold Cdiv, Cinv, Cmul, Cscale, Cconj; simpl; ring. Qed.

Lemma Cdiv_0_l c : Cdiv C0 c = C0.
Proof. apply C_eq; unfold Cdiv, Cinv, Cmul, Cscale, Cconj; simpl; ring. Qed.

Lemma Cconj_real a : im a = 0 -> Cconj a = a.
Proof. intros H. apply C_eq; simpl; [reflexivity | rewrite H; ring]. Qed.

Lemma Cconj_div_real a c : im c = 0 -> Cconj (Cdiv a c) = Cdiv (Cconj a) c.
Proof.
  intros H. apply C_eq; unfold Cdiv, Cinv, Cmul, Cscale, Cconj; simpl; rewrite H; ring.
Qed.

End ScalarFacts.
Export ScalarFacts.

(** ** Vectors and matrices *)

(** ** The monad: what holds of every value that a computation returns *)

Module MonadFacts.

Lemma bind_Ok {A B} (m : M A) (f : A -> M B) w b w' :
  bind m f w = (Ok b, w') -> exists a w1, m w = (Ok a, w1) /\ f a w1 = (Ok b, w').
Proof.
  unfold bind. destruct (m w) as [[a|e] w1]; [eauto | discriminate].
Qed.

Lemma bind_Err {A B} (m : M A) (f : A -> M B) w e w' :
  m w = (Err e, w') -> bind m f w = (Err e, w').
Proof. unfold bind. by intros ->. Qed.

Lemma bind_step {A B} (m : M A) (f : A -> M B) w a w1 :
  m w = (Ok a, w1) -> bind m f w = f a w1.
Proof. unfold bind. by intros ->. Qed.

Lemma bind_lift_Ok {A B} (a : A) (f : A -> M B) w : bind (lift (Ok a)) f w = f a w.
Proof. reflexivity. Qed.

Lemma ret_Ok {A} (a b : A) w w' : ret a w = (Ok b, w') -> b = a /\ w' = w.
Proof. unfold ret. by intros [= -> ->]. Qed.

Lemma lift_Ok {A} (r : result A) a w w' : lift r w = (Ok a, w') -> r = Ok a /\ w' = w.
Proof. unfold lift. by intros [= -> ->]. Qed.

Lemma post_bind {A B} (R : A -> Prop) (Q : B -> Prop) (m : M A) (f : A -> M B) :
  post R m -> (forall a, R a -> post Q (f a)) -> post Q (bind m f).
Proof.
  intros Hm Hf w b w' (a & w1 & H1 & H2)%bind_Ok. eapply Hf; eauto.
Qed.

Lemma post_bind_any {A B} (Q : B -> Prop) (m : M A) (f : A -> M B) :
  (forall a, post Q (f a)) -> post Q (bind m f).
Proof. intros Hf. apply (post_bind (fun _ => True)); [done | auto]. Qed.

Lemma post_bind_lift {A B} (Q : B -> Prop) (r : result A) (f : A -> M B) :
  (forall a, r = Ok a -> post Q (f a)) -> post Q (bind (lift r) f).
Proof.
  intros Hf. apply (post_bind (fun a => r = Ok a)); [|done].
  by intros w a w' [-> _]%lift_Ok.
Qed.

Lemma post_ret {A} (Q : A -> Prop) a : Q a -> post Q (ret a).
Proof. by intros H w b w' [-> _]%ret_Ok. Qed.

Lemma post_raise {A} (Q : A -> Prop) e : post Q (raise e).
Proof. by intros w b w'. Qed.

Lemma post_weaken {A} (Q R : A -> Prop) m :
  post Q m -> (forall a, Q a -> R a) -> post R m.
Proof. intros H HQR w a w' Hm. eauto. Qed.

End MonadFacts.
Export MonadFacts.

(** Runs through a computation from its end: every bind is entered, every
    choice split, until the statements that return or raise. *)
Ltac post_step :=
  lazymatch goal with
  | |- post _ (bind (lift _) _) => apply post_bind_lift; intros
  | |- post _ (bind _ _) => apply post_bind_any; intros
  | |- post _ (ret _) => apply post_ret
  | |- post _ (raise _) => apply post_raise
  | |- post _ (match ?x with _ => _ end) => destruct x
  end.

Ltac post_run := repeat post_step.

Module MatFacts.

Lemma length_mk_matrix r c f : length (mk_matrix r c f) = r.
Proof. unfold mk_matrix. by rewrite length_map, length_seq. Qed.

Lemma nth_mk_matrix r c f i :
  i < r -> nth i (mk_matrix r c f) [] = map (f i) (seq 0 c).
Proof.
  intros Hi. unfold mk_matrix. rewrite nth_lookup, list_lookup_fmap.
  by rewrite lookup_seq_lt.
Qed.

Lemma vget_mk_vec n f i : i < n -> vget (mk_vec n f) i = f i.
Proof.
  intros Hi. unfold vget, mk_vec. rewrite nth_lookup, list_lookup_fmap.
  by rewrite lookup_seq_lt.
Qed.

Lemma mget_mk_matrix r c f i j :
  i < r -> j < c -> mget (mk_matrix r c f) i j = f i j.
Proof.
  intros Hi Hj. unfold mget. rewrite nth_mk_matrix by done.
  rewrite nth_lookup, list_lookup_fmap. by rewrite lookup_seq_lt.
Qed.

Lemma map_seq_ext {A} (f g : nat -> A) s n :
  (forall i, s <= i < s + n -> f i = g i) -> map f (seq s n) = map g (seq s n).
Proof.
  intros H. apply map_ext_in. intros i Hi%in_seq. by apply H.
Qed.

Lemma mk_matrix_ext r c f g :
  (forall i j, i < r -> j < c -> f i j = g i j) -> mk_matrix r c f = mk_matrix r c g.
Proof.
  intros H. unfold mk_matrix. apply map_seq_ext. intros i Hi.
  apply map_seq_ext. intros j Hj. apply H; lia.
Qed.

Lemma nrows_mk_matrix r c f : nrows (mk_matrix r c f) = r.
Proof. apply length_mk_matrix. Qed.

Lemma ncols_mk_matrix r c f : 0 < r -> ncols (mk_matrix r c f) = c.
Proof.
  intros Hr. destruct r as [|r]; [lia|]. unfold mk_matrix. simpl.
  by rewrite length_map, length_seq.
Qed.

Lemma ncols_mk_square n f : ncols (mk_matrix n n f) = n.
Proof. destruct n; [done|]. apply ncols_mk_matrix. lia. Qed.

Lemma mscale_mk_matrix x r c f :
  mscale x (mk_matrix r c f) = mk_matrix r c (fun i j => Cscale x (f i j)).
Proof.
  unfold mscale, mk_matrix. rewrite map_map. apply map_ext. intros i.
  by rewrite map_map.
Qed.

Lemma mdivC_mk_matrix z r c f :
  mdivC (mk_matrix r c f) z = mk_matrix r c (fun i j => Cdiv (f i j) z).
Proof.
  unfold mdivC, mk_matrix. rewrite map_map. apply map_ext. intros i.
  by rewrite map_map.
Qed.

Lemma ctranspose_mk_square n f :
  ctranspose (mk_matrix n n f) = mk_matrix n n (fun i j => Cconj (f j i)).
Proof.
  unfold ctranspose. rewrite nrows_mk_matrix, ncols_mk_square.
  apply mk_matrix_ext. intros i j Hi Hj. by rewrite mget_mk_matrix.
Qed.

Lemma madd_mk_square n f g :
  madd (mk_matrix n n f) (mk_matrix n n g) = mk_matrix n n (fun i j => Cadd (f i j) (g i j)).
Proof.
  unfold madd. rewrite nrows_mk_matrix, ncols_mk_square.
  apply mk_matrix_ext. intros i j Hi Hj. by rewrite !mget_mk_matrix.
Qed.

Lemma trace_mk_square n f :
  trace (mk_matrix n n f) = Csum (map (fun k => f k k) (seq 0 n)).
Proof.
  unfold trace. rewrite nrows_mk_matrix. f_equal. apply map_seq_ext.
  intros k Hk. apply mget_mk_matrix; lia.
Qed.

(** The average of a square matrix with its conjugate transpose. *)
Lemma hermitize_mk_square n f :
  hermitize (mk_matrix n n f)
  = mk_matrix n n (fun i j => Cscale half (Cadd (f i j) (Cconj (f j i)))).
Proof.
  unfold hermitize. by rewrite ctranspose_mk_square, madd_mk_square, mscale_mk_matrix.
Qed.

Lemma hermitize_vec2mat_hermitian v : is_hermitian (hermitize (vec2mat v)).
Proof.
  unfold is_hermitian, vec2mat. rewrite hermitize_mk_square, ctranspose_mk_square.
  apply mk_matrix_ext. intros i j _ _.
  rewrite Cconj_scale, Cconj_add, Cconj_involutive. f_equal. apply Cadd_comm.
Qed.

Lemma Csum_div l c : Csum (map (fun x => Cdiv x c) l) = Cdiv (Csum l) c.
Proof.
  induction l as [|x l IH]; simpl; [by rewrite Cdiv_0_l|].
  by rewrite IH, Cdiv_add.
Qed.

Lemma Csum_real l : Forall (fun x => im x = 0%Qc) l -> im (Csum l) = 0%Qc.
Proof.
  induction 1 as [|x l Hx _ IH]; simpl; [done|]. rewrite Hx, IH. ring.
Qed.

Lemma trace_mdivC_square n f c :
  trace (mdivC (mk_matrix n n f) c) = Cdiv (trace (mk_matrix n n f)) c.
Proof.
  rewrite mdivC_mk_matrix, !trace_mk_square, <- Csum_div. by rewrite map_map.
Qed.

(** Dividing a square matrix by its own trace, when that is not zero. *)
Lemma trace_normalised n f :
  trace (mk_matrix n n f) <> C0 ->
  trace (mdivC (mk_matrix n n f) (trace (mk_matrix n n f))) = C1.
Proof. intros H. rewrite trace_mdivC_square. by apply Cdiv_diag. Qed.

Lemma trace_hermitize_real v : im (trace (hermitize (vec2mat v))) = 0%Qc.
Proof.
  unfold vec2mat. rewrite hermitize_mk_square, trace_mk_square.
  apply Csum_real, Forall_forall. intros x (k & -> & _)%list_elem_of_fmap.
  simpl. ring.
Qed.

Lemma mdivC_real_hermitian v c :
  im c = 0%Qc -> is_hermitian (mdivC (hermitize (vec2mat v)) c).
Proof.
  intros Hc. unfold is_hermitian, vec2mat.
  rewrite hermitize_mk_square, mdivC_mk_matrix, ctranspose_mk_square.
  apply mk_matrix_ext. intros i j _ _.
  rewrite Cconj_div_real by done. f_equal.
  rewrite Cconj_scale, Cconj_add, Cconj_involutive. f_equal. apply Cadd_comm.
Qed.

End MatFacts.
Export MatFacts.

(** ** Post-processing of the solutions *)

Module PostFacts.

Lemma qobj_div_Ok A z rho :
  qobj_div A z = Ok rho -> z <> C0 /\ qdata rho = mdivC (qdata A) z.
Proof.
  unfold qobj_div. case_bool_decide; [done|]. by intros [= <-].
Qed.

End PostFacts.
Export PostFacts.

(** ** The options on their way to the solvers *)

Module ArgFacts.

Lemma get_Ok ss_args k v w w' :
  get ss_args k w = (Ok v, w') -> ss_args !! k = Some v /\ w' = w.
Proof.
  unfold get. destruct (ss_args !! k); [|done]. by intros [-> ->]%ret_Ok.
Qed.

Lemma info_set_keeps ss_args key v k :
  k <> "info"%string ->
  post (fun a => a !! k = ss_args !! k) (info_set ss_args key v).
Proof.
  intros Hk. unfold info_set, info_of, get. post_run.
  by rewrite lookup_insert_ne.
Qed.

Lemma natural_if_rcm_keeps kwargs ss_args k :
  k <> "permc_spec"%string ->
  post (fun a => a !! k = ss_args !! k) (natural_if_rcm kwargs ss_args).
Proof.
  intros Hk. unfold natural_if_rcm. post_run; [|done].
  by rewrite lookup_insert_ne.
Qed.

Lemma ss_prepare_method P A c_op_list kwargs :
  post (fun '(_, ss_args) => ss_args !! "method" = method_of kwargs)
       (ss_prepare P A c_op_list kwargs).
Proof.
  unfold ss_prepare, method_of.
  apply post_bind_lift. intros args0 ->.
  eapply post_bind; [apply (natural_if_rcm_keeps _ _ "method"); done|].
  intros args1 H1. cbv beta in H1. apply post_bind_any. intros A'.
  eapply (post_bind (fun a => a !! "method" = args0 !! "method")).
  - destruct (negb _); [|by apply post_ret].
    post_run. eapply post_weaken; [apply (info_set_keeps _ _ _ "method"); done|].
    intros ? ->. by rewrite lookup_insert_ne.
  - intros ? ?. by apply post_ret.
Qed.

Lemma is_str_true v s : is_str v s = true -> v = PStr s.
Proof.
  destruct v; simpl; try done. by intros ->%bool_decide_eq_true.
Qed.

Lemma str_in_true v l : str_in v l = true -> exists s, s ∈ l /\ v = PStr s.
Proof.
  unfold str_in. intros (s & Hs & H)%existsb_exists.
  exists s. split; [by apply list_elem_of_In | by apply is_str_true].
Qed.

End ArgFacts.
Export ArgFacts.

(** * The claims *)

(** ** The svd solver does not average *)

(** The table entry for [svd] is a singular value decomposition of [skew]. *)
Lemma skew_svd_valid :
  matmul skew_u (matmul (diag_matrix (map ofQc skew_s)) skew_vh) = skew /\
  matmul skew_vh (ctranspose skew_vh) = identity 4 /\
  matmul (ctranspose skew_u) skew_u = identity 4.
Proof. repeat split; compute_done. Qed.


(** ** Unknown options *)

Lemma apply_kwargs_unknown kwargs key :
  key ∈ kwargs.*1 -> _default_steadystate_args !! key = None ->
  forall ss_args, dom ss_args = dom _default_steadystate_args ->
  exists key', key' ∈ kwargs.*1 /\ _default_steadystate_args !! key' = None /\
               apply_kwargs kwargs ss_args = Err (ConfigurationError key').
Proof.
  intros Hin Hkey. induction kwargs as [|[k v] kwargs IH]; intros ss_args Hdom.
  - by apply elem_of_nil in Hin.
  - simpl. case_bool_decide as Hk.
    + assert (k <> key) as Hne.
      { intros ->. apply elem_of_dom in Hk. rewrite Hdom in Hk.
        apply elem_of_dom in Hk as [? Hk]. congruence. }
      simpl in Hin. apply elem_of_cons in Hin as [->|Hin]; [done|].
      destruct (IH Hin (<[k:=v]> ss_args)) as (key' & H1 & H2 & H3).
      { rewrite dom_insert_lookup_L; done. }
      exists key'. split; [by right | by split].
    + exists k. split; [by left | split; [|done]].
      apply not_elem_of_dom. rewrite <- Hdom. by apply not_elem_of_dom, eq_None_not_Some.
Qed.

(** C8.  A call of [steadystate] with a keyword that is not an option fails
    with the configuration error of (the first) such keyword, and leaves no
    effect behind: in particular no Liouvillian was built. *)
Theorem C8_unknown_keyword P A c_op_list kwargs w key :
  key ∈ kwargs.*1 -> _default_steadystate_args !! key = None ->
  exists key', key' ∈ kwargs.*1 /\ _default_steadystate_args !! key' = None /\
    steadystate P A c_op_list kwargs w = (Err (ConfigurationError key'), w).
Proof.
  intros Hin Hkey.
  destruct (apply_kwargs_unknown kwargs key Hin Hkey _default_steadystate_args eq_refl)
    as (key' & H1 & H2 & H3).
  exists key'. split; [done | split; [done|]].
  unfold steadystate, ss_prepare. apply bind_Err, bind_Err. unfold lift. by rewrite H3.
Qed.

Lemma C8_unknown_keyword_witness :
  exists key', key' ∈ [("tol"%string, PInt 1); ("tolerance"%string, PInt 1)].*1 /\
    _default_steadystate_args !! key' = None /\
    steadystate demo L_damping [] [("tol"%string, PInt 1); ("tolerance"%string, PInt 1)] []
    = (Err (ConfigurationError key'), []).
Proof.
  apply (C8_unknown_keyword demo L_damping [] _ [] "tolerance"%string).
  - simpl. right. left.
  - vm_compute. reflexivity.
Defined.

(** ** The pseudo-inverse through its entry point *)

(** C10 (the code at the failing input).  [pseudo_inverse(L, rhoss,
    sparse=False)] with the default method maps 'splu' to 'direct', and then
    passes [method] both by name and inside [pseudo_args]: the call of
    [_pseudo_inverse_dense] raises a TypeError and nothing is computed. *)
Theorem C10_dense_default_raises P L rho w :
  pseudo_inverse P L (Some rho) (PBool false) (PStr "splu") [] w
  = (Err (PyTypeError "got multiple values for keyword argument"), w).
Proof. reflexivity. Qed.

Lemma apply_kwargs_dom kwargs ss_args r :
  apply_kwargs kwargs ss_args = Ok r -> dom r = dom ss_args.
Proof.
  revert ss_args. induction kwargs as [|[k v] kwargs IH]; simpl; intros ss_args H.
  - by injection H as <-.
  - case_bool_decide as Hk; [|done]. apply IH in H as ->.
    by apply dom_insert_lookup_L.
Qed.

(** No call of [pseudo_inverse] returns: whatever the arguments, [method]
    reaches the internal functions twice. *)
Lemma pseudo_inverse_never_returns P L rhoss sparse method kwargs :
  post (fun _ => False) (pseudo_inverse P L rhoss sparse method kwargs).
Proof.
  unfold pseudo_inverse.
  apply post_bind_lift. intros args0 Hargs%apply_kwargs_dom.
  eapply (post_bind (fun a => is_Some (a !! "method"))).
  - unfold natural_if_rcm. post_run.
    + rewrite lookup_insert_ne by done. apply elem_of_dom. by rewrite Hargs.
    + apply elem_of_dom. by rewrite Hargs.
  - intros args Hm. post_run.
    all: unfold call_with_kwargs; simpl; rewrite bool_decide_eq_true_2 by done;
      apply post_raise.
Qed.

(** ** The tolerance of the inner solves of the power method *)

(** C5 (the code at the failing input).  With [tol = 1e-15] the claim asks
    for max(1e-16, 1e-15) = 1e-15.  The code calls [np.max(tol/10, 1e-15)],
    where 1e-15 is the axis: the inner tolerance is 1e-16 when numpy accepts
    the float axis, and the call raises when it does not. *)
Theorem C5_inner_tolerance P w :
  power_inner_tol P (<["tol" := PFloat q_1em15]> _default_steadystate_args) w
  = (if float_axis_ok P then Ok (Q2Qc (1 # 10000000000000000))
     else Err (PyTypeError "'float' object cannot be interpreted as an integer"), w)
  /\ Qcmax (q_1em15 / Q2Qc (inject_Z 10)) q_1em15 = q_1em15
  /\ Q2Qc (1 # 10000000000000000) <> q_1em15.
Proof.
  split; [|split; [|compute_done]].
  - unfold power_inner_tol, num, get. rewrite lookup_insert_eq.
    unfold bind, ret, lift, np_max_scalar. simpl.
    destruct (float_axis_ok P); reflexivity.
  - apply Qc_is_canon. reflexivity.
Qed.

(** ** The weight *)

(** C2 (the code at the failing input).  For the damping generator, whose
    stored entries are 1, -1/2, -1/2 and -1, the weight that the code derives
    is the modulus of the largest entry, |1| = 1; the mean of the moduli is
    3/4. *)
Theorem C2_weight_of_damping P :
  np_abs P (qz 1) = Q2Qc 1 -> np_abs P (qq (-1) 2) = Q2Qc (1 # 2) ->
  np_abs P (qz (-1)) = Q2Qc 1 ->
  auto_weight P L_damping = Ok (Q2Qc 1) /\ mean_abs P L_damping = Q2Qc (3 # 4).
Proof.
  intros H1 H2 H3. split.
  - unfold auto_weight, np_mean_scalar.
    replace (arr_max (stored (qdata L_damping))) with (Ok (qz 1)) by (symmetry; compute_done).
    by rewrite H1.
  - unfold mean_abs.
    replace (stored (qdata L_damping)) with [qz 1; qq (-1) 2; qq (-1) 2; qz (-1)]
      by (symmetry; compute_done).
    simpl. rewrite H1, H2, H3. apply Qc_is_canon. reflexivity.
Qed.

Lemma C2_weight_of_damping_witness :
  auto_weight demo L_damping = Ok (Q2Qc 1) /\ mean_abs demo L_damping = Q2Qc (3 # 4).
Proof.
  apply (C2_weight_of_damping demo); apply Qc_is_canon; reflexivity.
Defined.

(** ** The status code of the iterative solvers *)

Lemma dict_get_set d k v k' :
  dict_get (dict_set d k v) k' = if bool_decide (k' = k) then Some v else dict_get d k'.
Proof.
  induction d as [|[k0 v0] d IH]; simpl.
  - repeat case_bool_decide; done.
  - destruct (decide (k = k0)) as [->|Hk].
    + rewrite bool_decide_eq_true_2 by done. simpl.
      repeat case_bool_decide; congruence.
    + rewrite bool_decide_eq_false_2 by done. simpl. rewrite IH.
      repeat case_bool_decide; congruence.
Qed.

Lemma get_run ss_args k v w : ss_args !! k = Some v -> get ss_args k w = (Ok v, w).
Proof. unfold get. by intros ->. Qed.

Lemma flag_run ss_args k v b w :
  ss_args !! k = Some v -> truthy v = Ok b -> flag ss_args k w = (Ok b, w).
Proof. intros H1 H2. unfold flag. by rewrite (bind_step _ _ _ _ _ (get_run _ _ _ _ H1)), H2. Qed.

Lemma info_set_run ss_args d k v w :
  ss_args !! "info" = Some (PDict d) ->
  info_set ss_args k v w = (Ok (<["info" := PDict (dict_set d k v)]> ss_args), w).
Proof.
  intros H. unfold info_set, info_of.
  by rewrite (bind_step _ _ _ _ _ (bind_step _ _ _ _ _ (get_run _ _ _ _ H))).
Qed.

Lemma info_get_run ss_args d k v w :
  ss_args !! "info" = Some (PDict d) -> dict_get d k = Some v ->
  info_get ss_args k w = (Ok v, w).
Proof.
  intros H Hk. unfold info_get, info_of.
  rewrite (bind_step _ _ _ _ _ (bind_step _ _ _ _ _ (get_run _ _ _ _ H))).
  by rewrite Hk.
Qed.

(** C7 (the code where the claim fails).  When the solver reports a positive
    status the call raises the convergence error, whose message shows
    [maxiter] and the entry [residual_norm] of the diagnostics.  That entry is
    the achieved residual only if [return_info] was set; without it (the
    default) the message reads "Residual norm: None". *)
Theorem C7_positive_status P dims A b rev_perm ss_args v check iters w d pt mx (ri : bool) :
  (0 < check)%Z ->
  ss_args !! "info" = Some (PDict d) ->
  dict_get d "precond_time" = Some pt ->
  dict_get d "residual_norm" = Some PNone ->
  ss_args !! "return_info" = Some (PBool ri) ->
  ss_args !! "maxiter" = Some mx ->
  iterative_finish P dims A b rev_perm ss_args v check iters w
  = (Err (ConvergenceError
            [mx; if ri then PFloat (la_norm P (vsub b (matvec A v))) else PNone]), w).
Proof.
  intros Hcheck Hinfo Hpt Hres Hri Hmx. unfold iterative_finish.
  rewrite (bind_step _ _ _ _ _ (info_set_run _ _ _ _ _ Hinfo)).
  set (a1 := <["info":=_]> ss_args).
  assert (H1 : a1 !! "info" = Some (PDict (dict_set d "iter_time" PElapsed)))
    by apply lookup_insert_eq.
  assert (Hpt1 : dict_get (dict_set d "iter_time" PElapsed) "precond_time" = Some pt)
    by (by rewrite dict_get_set, bool_decide_eq_false_2).
  rewrite (bind_step _ _ _ pt _ (info_get_run _ _ _ _ _ H1 Hpt1)).
  rewrite (bind_step _ _ _ _ _ (info_set_run _ _ _ _ _ H1)).
  set (a2 := <["info":=_]> a1).
  assert (H2 : a2 !! "info"
               = Some (PDict (dict_set (dict_set d "iter_time" PElapsed)
                                       "solution_time" PElapsed)))
    by apply lookup_insert_eq.
  rewrite (bind_step _ _ _ _ _ (info_set_run _ _ _ _ _ H2)).
  set (a3 := <["info":=_]> a2).
  assert (H3 : a3 !! "info"
               = Some (PDict (dict_set (dict_set (dict_set d "iter_time" PElapsed)
                                                 "solution_time" PElapsed)
                                       "iterations" (PInt (Z.of_nat iters)))))
    by apply lookup_insert_eq.
  assert (Hri3 : a3 !! "return_info" = Some (PBool ri))
    by (unfold a3, a2, a1; by rewrite !lookup_insert_ne).
  assert (Hmx3 : a3 !! "maxiter" = Some mx)
    by (unfold a3, a2, a1; by rewrite !lookup_insert_ne).
  rewrite (bind_step _ _ _ ri _ (flag_run _ _ _ _ _ Hri3 eq_refl)).
  destruct ri.
  - rewrite (bind_step _ _ _ _ _ (info_set_run _ _ _ _ _ H3)).
    set (a4 := <["info":=_]> a3).
    pose proof (lookup_insert_eq a3 "info"
                  (PDict (dict_set (dict_set (dict_set (dict_set d "iter_time" PElapsed)
                                                       "solution_time" PElapsed)
                                             "iterations" (PInt (Z.of_nat iters)))
                            "residual_norm" (PFloat (la_norm P (vsub b (matvec A v))))))) as H4.
    fold a4 in H4.
    assert (Hmx4 : a4 !! "maxiter" = Some mx) by (unfold a4; by rewrite lookup_insert_ne).
    rewrite bool_decide_eq_true_2 by done.
    rewrite (bind_step _ _ _ mx _ (get_run _ _ _ _ Hmx4)).
    pose proof (dict_get_set (dict_set (dict_set (dict_set d "iter_time" PElapsed)
                                                 "solution_time" PElapsed)
                                       "iterations" (PInt (Z.of_nat iters)))
                  "residual_norm" (PFloat (la_norm P (vsub b (matvec A v))))
                  "residual_norm") as Hr4.
    rewrite bool_decide_eq_true_2 in Hr4 by done.
    by rewrite (bind_step _ _ _ _ _ (info_get_run _ _ _ _ _ H4 Hr4)).
  - rewrite (bind_step _ _ _ a3 _ eq_refl).
    rewrite bool_decide_eq_true_2 by done.
    rewrite (bind_step _ _ _ mx _ (get_run _ _ _ _ Hmx3)).
    assert (Hr3 : dict_get (dict_set (dict_set (dict_set d "iter_time" PElapsed)
                                               "solution_time" PElapsed)
                                     "iterations" (PInt (Z.of_nat iters)))
                    "residual_norm" = Some PNone).
    { rewrite !dict_get_set. by repeat (rewrite bool_decide_eq_false_2 by done). }
    by rewrite (bind_step _ _ _ _ _ (info_get_run _ _ _ _ _ H3 Hr3)).
Qed.

Lemma C7_positive_status_witness :
  iterative_finish demo [2] damping e0 None _default_steadystate_args e0 1 1 []
  = (Err (ConvergenceError [PInt 1000; PNone]), []).
Proof.
  apply (C7_positive_status demo [2] damping e0 None _default_steadystate_args e0 1 1 []
           _empty_info_dict PNone (PInt 1000) false); reflexivity.
Defined.

(** ** The conditioning of the matrix *)

Lemma Csum_zeros {A} (l : list A) : Csum (map (fun _ => C0) l) = C0.
Proof. induction l as [|a l IH]; simpl; [done|]. by rewrite IH, Cadd_0_l. Qed.

Lemma Csum_single (g : nat -> nat) (x : C) (j : nat) (l : list nat) :
  NoDup (map g l) ->
  Csum (map (fun k => if bool_decide (g k = j) then x else C0) l)
  = if bool_decide (j ∈ map g l) then x else C0.
Proof.
  induction l as [|a l IH]; simpl; intros Hnd; [done|].
  apply NoDup_cons in Hnd as [Ha Hnd]. rewrite (IH Hnd). clear IH.
  destruct (decide (g a = j)) as [<-|Hne].
  - rewrite bool_decide_eq_true_2 by done.
    rewrite (bool_decide_eq_false_2 (g a ∈ map g l)) by done.
    rewrite (bool_decide_eq_true_2 (g a ∈ g a :: map g l)) by left.
    apply Cadd_0_r.
  - rewrite bool_decide_eq_false_2 by done. rewrite Cadd_0_l.
    rewrite (bool_decide_ext (j ∈ g a :: map g l) (j ∈ map g l)); [done|].
    rewrite elem_of_cons. split; [intros [?|?]; [congruence|done] | by right].
Qed.

Lemma NoDup_trace_cols n : NoDup (trace_cols n).
Proof.
  unfold trace_cols. apply NoDup_fmap_2; [|apply NoDup_seq].
  intros a b H. nia.
Qed.

Lemma nth_repeat_0 k n : nth k (repeat 0 n) 0 = 0.
Proof. revert k. induction n; intros [|k]; simpl; auto. Qed.

Lemma vget_vscale_ones w n k : k < n -> vget (vscale w (ones n)) k = ofQc w.
Proof.
  intros Hk. unfold vget, vscale, ones. rewrite nth_lookup, list_lookup_fmap.
  rewrite lookup_replicate_2 by done. simpl. apply C_eq; simpl; ring.
Qed.

Lemma length_vscale_ones w n : length (vscale w (ones n)) = n.
Proof. unfold vscale, ones. by rewrite length_map, length_replicate. Qed.

(** The matrix that the sparse conditioning adds to the generator. *)
Lemma coo_trace_row n w i j :
  i < n ^ 2 -> j < n ^ 2 ->
  mget (coo_matrix (vscale w (ones n)) (repeat 0 n) (trace_cols n) (n ^ 2) (n ^ 2)) i j
  = if bool_decide (i = 0) then trace_entry n w j else C0.
Proof.
  intros Hi Hj. unfold coo_matrix. rewrite mget_mk_matrix by done.
  rewrite length_vscale_ones.
  case_bool_decide as Hi0.
  - subst i. unfold trace_entry, trace_cols.
    rewrite <- (Csum_single (fun nn => nn * (n + 1))) by apply NoDup_trace_cols.
    f_equal. apply map_seq_ext. intros k Hk.
    rewrite nth_repeat_0, vget_vscale_ones by lia.
    unfold trace_cols. rewrite nth_lookup, list_lookup_fmap, lookup_seq_lt by lia. simpl.
    rewrite (bool_decide_ext (0 = 0 ∧ k * (n + 1) = j) (k * (n + 1) = j)); [done|tauto].
  - etrans; [|apply (Csum_zeros (seq 0 n))]. f_equal. apply map_seq_ext. intros k Hk.
    rewrite nth_repeat_0. rewrite bool_decide_eq_false_2; [done|]. intros [? _]. congruence.
Qed.

Lemma nth_concat_uniform (rows : matrix) c i j :
  Forall (fun r => length r = c) rows -> j < c ->
  nth (i * c + j) (concat rows) C0 = nth j (nth i rows []) C0.
Proof.
  intros Hrows Hj. revert i. induction Hrows as [|r rows Hr _ IH]; intros i.
  - simpl. by destruct (i * c + j), i, j.
  - destruct i as [|i]; simpl.
    + rewrite app_nth1 by lia. done.
    + rewrite app_nth2 by lia. rewrite <- IH. f_equal. lia.
Qed.

Lemma mk_matrix_uniform r c f : Forall (fun row => length row = c) (mk_matrix r c f).
Proof.
  unfold mk_matrix. apply Forall_forall. intros row (i & -> & _)%list_elem_of_fmap.
  by rewrite length_map, length_seq.
Qed.

Lemma length_concat_uniform (rows : matrix) c :
  Forall (fun r => length r = c) rows -> length (concat rows) = length rows * c.
Proof.
  induction 1 as [|r rows Hr _ IH]; simpl; [done|]. rewrite length_app. lia.
Qed.

Lemma length_flatten_mk_matrix r c f : length (flatten (mk_matrix r c f)) = r * c.
Proof.
  unfold flatten. rewrite (length_concat_uniform _ c) by apply mk_matrix_uniform.
  by rewrite length_mk_matrix.
Qed.

Lemma length_flatten_diag d : length (flatten (diag_matrix d)) = length d * length d.
Proof. apply length_flatten_mk_matrix. Qed.

Lemma trace_cols_div_mod n j :
  j < n * n -> j ∈ trace_cols n <-> j / n = j mod n.
Proof.
  intros Hj. assert (n <> 0) by lia. unfold trace_cols. rewrite list_elem_of_fmap. split.
  - intros (k & -> & Hk%elem_of_seq).
    replace (k * (n + 1)) with (k + k * n) by lia.
    rewrite Nat.div_add, Nat.Div0.mod_add by lia.
    rewrite Nat.div_small, Nat.mod_small by lia. lia.
  - intros Heq. exists (j / n). split.
    + pose proof (Nat.div_mod_eq j n). lia.
    + apply elem_of_seq. split; [lia|]. apply Nat.Div0.div_lt_upper_bound. lia.
Qed.

(** The row that the dense conditioning writes. *)
Lemma dense_trace_row n w j :
  j < n * n ->
  vget (flatten (diag_matrix (vscale w (ones n)))) j = trace_entry n w j.
Proof.
  intros Hj. assert (n <> 0) by lia. unfold vget, flatten, diag_matrix.
  rewrite length_vscale_ones.
  rewrite (Nat.div_mod_eq j n) at 1. rewrite (Nat.mul_comm n).
  assert (j / n < n) by (apply Nat.Div0.div_lt_upper_bound; lia).
  assert (j mod n < n) by (apply Nat.mod_upper_bound; lia).
  rewrite (nth_concat_uniform _ n) by (apply mk_matrix_uniform || done).
  fold (mget (mk_matrix n n (fun i j0 => if bool_decide (i = j0)
                                          then vget (vscale w (ones n)) i else C0))
             (j / n) (j mod n)).
  rewrite mget_mk_matrix by done. unfold trace_entry.
  rewrite (bool_decide_ext _ _ (trace_cols_div_mod n j Hj)).
  case_bool_decide; [|done]. by apply vget_vscale_ones.
Qed.

Lemma num_run ss_args k v x w :
  ss_args !! k = Some v -> as_real v = Ok x -> num ss_args k w = (Ok x, w).
Proof. intros H1 H2. unfold num. by rewrite (bind_step _ _ _ _ _ (get_run _ _ _ _ H1)), H2. Qed.

Lemma reorder_wbm_off P L ss_args w :
  ss_args !! "use_wbm" = Some (PBool false) ->
  reorder_wbm P L ss_args w = (Ok (L, None, ss_args), w).
Proof.
  intros H. unfold reorder_wbm.
  by rewrite (bind_step _ _ _ false _ (flag_run _ _ _ _ _ H eq_refl)).
Qed.

Lemma reorder_rcm_off P L ss_args w :
  ss_args !! "use_rcm" = Some (PBool false) ->
  reorder_rcm P L ss_args w = (Ok (L, None, None, ss_args), w).
Proof.
  intros H. unfold reorder_rcm.
  by rewrite (bind_step _ _ _ false _ (flag_run _ _ _ _ _ H eq_refl)).
Qed.

(** Without reordering, [_steadystate_LU_liouvillian] returns the sum of the
    generator and the weighted trace row. *)
Lemma LU_liouvillian_plain P L ss_args wv wt w r w' :
  let n := Nat.sqrt (nrows (qdata L)) in
  ss_args !! "weight" = Some wv -> as_real wv = Ok wt ->
  ss_args !! "use_wbm" = Some (PBool false) ->
  ss_args !! "use_rcm" = Some (PBool false) ->
  _steadystate_LU_liouvillian P L ss_args w = (Ok r, w') ->
  nrows (qdata L) = n ^ 2 /\ (0 < n -> ncols (qdata L) = n ^ 2) /\
  r = (madd (qdata L)
            (coo_matrix (vscale wt (ones n)) (repeat 0 n) (trace_cols n) (n ^ 2) (n ^ 2)),
       None, None, None, ss_args) /\ w' = w.
Proof.
  intros n Hw Hwt Hwbm Hrcm Hrun. unfold _steadystate_LU_liouvillian in Hrun.
  fold n in Hrun.
  rewrite (bind_step _ _ _ _ _ (num_run _ _ _ _ _ Hw Hwt)) in Hrun.
  unfold sp_add in Hrun. case_bool_decide as Hshape; [|done].
  rewrite bind_lift_Ok in Hrun.
  rewrite (bind_step _ _ _ _ _ (reorder_wbm_off _ _ _ _ Hwbm)) in Hrun.
  rewrite (bind_step _ _ _ _ _ (reorder_rcm_off _ _ _ _ Hrcm)) in Hrun.
  apply ret_Ok in Hrun as [-> ->].
  destruct Hshape as [Hr Hc]. unfold coo_matrix in Hr, Hc.
  rewrite nrows_mk_matrix in Hr. split; [done|]. split; [|done].
  intros Hn. rewrite Hc. apply ncols_mk_matrix. destruct n; simpl in *; lia.
Qed.

(** C3 (as amended).  Without reordering, the conditioning for the sparse LU
    based solves adds the weighted trace row to row 0 of the generator, whose
    own entries stay, and leaves the other rows; the dense conditioning
    overwrites row 0 with the weighted trace row and leaves the other rows. *)
Theorem C3_conditioning P L ss_args wv wt w L' perm perm2 rev_perm ss_args' w' Ld :
  let n := Nat.sqrt (nrows (qdata L)) in
  ss_args !! "weight" = Some wv -> as_real wv = Ok wt ->
  ss_args !! "use_wbm" = Some (PBool false) ->
  ss_args !! "use_rcm" = Some (PBool false) ->
  _steadystate_LU_liouvillian P L ss_args w = (Ok (L', perm, perm2, rev_perm, ss_args'), w') ->
  dense_conditioned (qdata L) wt = Ok Ld ->
  (forall i j, i < n ^ 2 -> j < n ^ 2 ->
     mget L' i j = Cadd (mget (qdata L) i j)
                        (if bool_decide (i = 0) then trace_entry n wt j else C0)) /\
  (forall i j, i < n ^ 2 -> j < n ^ 2 ->
     mget Ld i j = if bool_decide (i = 0) then trace_entry n wt j else mget (qdata L) i j).
Proof.
  intros n Hw Hwt Hwbm Hrcm Hrun Hdense.
  destruct (LU_liouvillian_plain P L ss_args wv wt w _ w' Hw Hwt Hwbm Hrcm Hrun)
    as (Hrows & Hcols & Hr & _).
  injection Hr as -> _ _ _ _. clear Hrun.
  fold n in Hrows, Hcols.
  assert (Hndef : Nat.sqrt (nrows (qdata L)) = n) by reflexivity. clearbody n.
  rewrite !Hndef. split.
  - intros i j Hi Hj.
    assert (0 < n) as Hn by (destruct n; simpl in *; lia).
    unfold madd. rewrite Hrows, (Hcols Hn), mget_mk_matrix by done.
    by rewrite coo_trace_row.
  - intros i j Hi Hj.
    assert (0 < n) as Hn by (destruct n; simpl in *; lia).
    unfold dense_conditioned, set_row0 in Hdense. rewrite Hndef in Hdense.
    destruct (qdata L) as [|r0 rest] eqn:HL; [done|].
    assert (length r0 = n ^ 2) as Hr0 by (apply (Hcols Hn)).
    rewrite length_flatten_diag, length_vscale_ones, Hr0 in Hdense.
    rewrite bool_decide_eq_true_2 in Hdense by (simpl; lia).
    injection Hdense as <-.
    case_bool_decide as Hi0.
    + subst i. unfold mget. simpl. apply dense_trace_row. simpl in Hj. lia.
    + destruct i; [done|]. reflexivity.
Qed.

Lemma damping_LU_run :
  _steadystate_LU_liouvillian demo L_damping weighted_args []
  = (Ok (damping_LU_matrix, None, None, None, damping_LU_args), []).
Proof. vm_compute. reflexivity. Qed.

Lemma C3_conditioning_witness :
  exists L' Ld,
    (forall i j, i < 2 ^ 2 -> j < 2 ^ 2 ->
       mget L' i j = Cadd (mget damping i j)
                          (if bool_decide (i = 0) then trace_entry 2 (Q2Qc 1) j else C0)) /\
    (forall i j, i < 2 ^ 2 -> j < 2 ^ 2 ->
       mget Ld i j = if bool_decide (i = 0) then trace_entry 2 (Q2Qc 1) j
                     else mget damping i j).
Proof.
  exists damping_LU_matrix, damping_dense_matrix.
  apply (C3_conditioning demo L_damping weighted_args (PFloat (Q2Qc 1)) (Q2Qc 1) []
           damping_LU_matrix None None None damping_LU_args [] damping_dense_matrix).
  - vm_compute. reflexivity.
  - reflexivity.
  - vm_compute. reflexivity.
  - vm_compute. reflexivity.
  - vm_compute. reflexivity.
  - vm_compute. reflexivity.
Defined.

(** C3, counterexample: for the damping generator and weight one the sparse
    conditioning leaves (1, 0, 0, 2) in row 0, the sum of the generator's row
    (0, 0, 0, 1) and the trace row (1, 0, 0, 1); the claim asks for the trace
    row alone. *)
Lemma C3_counterexample :
  exists L' perm perm2 rev_perm ss_args' w',
    _steadystate_LU_liouvillian demo L_damping weighted_args []
    = (Ok (L', perm, perm2, rev_perm, ss_args'), w') /\
    nth 0 L' [] = [qz 1; qz 0; qz 0; qz 2] /\
    nth 0 L' [] <> flatten (diag_matrix (vscale (Q2Qc 1) (ones 2))).
Proof.
  exists damping_LU_matrix, None, None, None, damping_LU_args, [].
  split; [exact damping_LU_run|]. split; compute_done.
Qed.

(** ** The budget of the power method *)

(** The loop makes at most [left] passes, and when it stops before the last
    one allowed, the iterate passes the convergence test. *)
Lemma power_loop_count P refine A tol left it v w it' v' w' :
  power_loop P refine A tol left it v w = (Ok (it', v'), w') ->
  it <= it' <= it + left /\
  (it' < it + left -> ~ (tol < la_norm_inf P (matvec A v'))%Qc).
Proof.
  revert it v w. induction left as [|left IH]; intros it v w; simpl.
  - case_bool_decide as Hc; intros [[= <- <-] _]%ret_Ok; (split; [lia|]); [lia | done].
  - case_bool_decide as Hc.
    + intros (v1 & w1 & _ & (v2 & w2 & _ & H)%bind_Ok)%bind_Ok.
      apply IH in H as [? ?]. split; [lia|]. intros ?. apply H0. lia.
    + intros [[= <- <-] _]%ret_Ok. split; [lia | done].
Qed.

(** C6 (the code at the failing input).  For the damping generator with
    [maxiter = 1] and the default tolerance 1e-12: the first pass solves
    [shifted * x = ones] exactly, the rescaled iterate has a residual below
    the tolerance, so the loop ends after one pass, within the budget, with
    an iterate that passes the convergence test; the check [it >= maxiter]
    then raises the convergence error all the same.  With [maxiter = 2] the
    same iterate is returned. *)
Theorem C6_converged_at_budget :
  matvec damping_shifted damping_solved = ones 4 /\
  (exists v1,
     power_loop demo
       (fun v => match lu_solve demo_lu v with Ok x => ret x | Err e => raise e end)
       damping_shifted q_1em12 1 0 (ones 4) [] = (Ok (1, v1), []) /\
     (la_norm_inf demo (matvec damping_shifted v1) <= q_1em12)%Qc) /\
  steadystate demo L_damping []
    [("method"%string, PStr "power"); ("maxiter"%string, PInt 1)] []
  = (Err (ConvergenceError [PInt 1]), [EUseSolver true PNone]) /\
  (exists r,
     steadystate demo L_damping []
       [("method"%string, PStr "power"); ("maxiter"%string, PInt 2)] []
     = (Ok r, [EUseSolver true PNone])).
Proof.
  split; [compute_done|]. split; [|split].
  - destruct (power_loop demo _ damping_shifted q_1em12 1 0 (ones 4) [])
      as [[[it v1]|e] w'] eqn:E; [|exfalso; vm_compute in E; discriminate E].
    exists v1. vm_compute in E. injection E as <- <- <-. split; [reflexivity|compute_done].
  - vm_compute. reflexivity.
  - destruct (steadystate demo L_damping [] _ []) as [[r|e] w'] eqn:E;
      [|exfalso; vm_compute in E; discriminate E].
    exists r. vm_compute in E. injection E as <- <-. reflexivity.
Qed.

(** ** The dense pseudo-inverse *)

Lemma nrows_identity n : nrows (identity n) = n.
Proof. apply nrows_mk_matrix. Qed.

Lemma ncols_identity n : ncols (identity n) = n.
Proof. apply ncols_mk_square. Qed.

Lemma length_mat2vec A : length (mat2vec A) = nrows A * ncols A.
Proof. unfold mat2vec, mk_vec. by rewrite length_map, length_seq. Qed.

Lemma Nat_div_mod_lt i N : 0 < N -> i < N * N -> i mod N < N /\ i / N < N.
Proof.
  intros HN Hi. split; [apply Nat.mod_upper_bound; lia|].
  apply Nat.Div0.div_lt_upper_bound. lia.
Qed.

Lemma vget_mat2vec A N i :
  nrows A = N -> ncols A = N -> i < N * N -> vget (mat2vec A) i = mget A (i mod N) (i / N).
Proof.
  intros Hr Hc Hi. unfold mat2vec. rewrite Hr, Hc. by rewrite vget_mk_vec.
Qed.

Lemma bget_mk_matrix r c f i j :
  i < r -> j < c -> bget (mk_matrix r c f) i j = f i j.
Proof.
  intros Hi Hj. unfold bget. rewrite nrows_mk_matrix, ncols_mk_matrix by lia.
  repeat case_bool_decide; subst;
    repeat match goal with H : _ < 1 |- _ => apply Nat.lt_1_r in H; subst end;
    by rewrite mget_mk_matrix by lia.
Qed.

Lemma np_sub_projector rho N :
  nrows rho = N -> ncols rho = N -> 0 < N ->
  np_sub (identity (N * N)) (kron_col_row (mat2vec rho) (mat2vec (identity N)))
  = Ok (spec_complement rho N).
Proof.
  intros Hr Hc HN. assert (0 < N * N) as HNN by nia.
  unfold np_sub, kron_col_row. rewrite !length_mat2vec, Hr, Hc, !nrows_identity, !ncols_identity.
  rewrite nrows_mk_matrix, ncols_mk_matrix by done.
  unfold broadcast. rewrite !bool_decide_eq_true_2 by done.
  f_equal. unfold spec_complement, spec_projector.
  apply mk_matrix_ext. intros i j Hi Hj.
  unfold identity at 1. rewrite !bget_mk_matrix, mget_mk_matrix by done.
  f_equal. rewrite (vget_mat2vec rho N), (vget_mat2vec (identity N) N)
    by (done || apply nrows_identity || apply ncols_identity).
  destruct (Nat_div_mod_lt j N HN Hj). unfold identity. by rewrite mget_mk_matrix.
Qed.



(** ** Permutations of the right-hand side and of the solution *)

Lemma length_ix v p : length (ix v p) = length p.
Proof. unfold ix. apply length_map. Qed.

Lemma take_ix_valid v p : p ≡ₚ seq 0 (length v) -> take_ix v p = Ok (ix v p).
Proof.
  intros Hp. unfold take_ix.
  replace (forallb _ p) with true; [done|]. symmetry. apply forallb_forall.
  intros i Hi%list_elem_of_In. rewrite Hp in Hi. apply elem_of_seq in Hi.
  apply Nat.ltb_lt. lia.
Qed.

Lemma np_any_false_small p n :
  p ≡ₚ seq 0 n -> np_any (Some p) = false -> n <= 1.
Proof.
  intros Hp Hany. destruct (decide (n <= 1)) as [|Hn]; [done|]. exfalso.
  assert (1 ∈ p) as H1 by (rewrite Hp; apply elem_of_seq; lia).
  simpl in Hany. apply not_true_iff_false in Hany. apply Hany.
  apply existsb_exists. exists 1. split; [by apply list_elem_of_In | done].
Qed.

Lemma ix_small v p : p ≡ₚ seq 0 (length v) -> length v <= 1 -> ix v p = v.
Proof.
  intros Hp Hn. destruct v as [|x [|y v]]; simpl in *; [| |lia].
  - by apply Permutation_nil_r in Hp as ->.
  - by apply Permutation_singleton_r in Hp as ->.
Qed.

(** *** [np.argsort] of a permutation is its inverse *)

Lemma Sorted_fst_key (l : list (nat * nat)) : Sorted key_le l -> Sorted le (l.*1).
Proof.
  induction 1 as [|x l _ IH Hd]; simpl; constructor; [done|].
  destruct Hd; simpl; constructor. done.
Qed.

Lemma Sorted_seq s n : Sorted le (seq s n).
Proof.
  revert s. induction n as [|n IH]; intros s; simpl; constructor; [apply IH|].
  destruct n; simpl; constructor. lia.
Qed.

Lemma map_vget_seq (v : vec) : map (vget v) (seq 0 (length v)) = v.
Proof.
  apply list_eq. intros i. rewrite list_lookup_fmap.
  destruct (decide (i < length v)) as [Hi|Hi].
  - rewrite lookup_seq_lt by done. simpl. unfold vget. rewrite nth_lookup.
    destruct (lookup_lt_is_Some_2 v i Hi) as [x Hx]. by rewrite Hx.
  - rewrite lookup_seq_ge by lia. simpl. symmetry. apply lookup_ge_None. lia.
Qed.

Lemma sorted_keys p :
  p ≡ₚ seq 0 (length p) ->
  (merge_sort key_le (zip p (seq 0 (length p)))).*1 = seq 0 (length p).
Proof.
  intros Hp. apply (Sorted_unique le).
  - apply Sorted_fst_key, Sorted_merge_sort. apply _.
  - apply Sorted_seq.
  - rewrite merge_sort_Permutation, fst_zip by (by rewrite length_seq). done.
Qed.

Lemma ix_argsort v p :
  p ≡ₚ seq 0 (length v) -> ix (ix v p) (argsort p) = v.
Proof.
  intros Hp. assert (length p = length v) as Hlen by (by rewrite Hp, length_seq).
  rewrite <- Hlen in Hp.
  unfold argsort. set (s := merge_sort key_le (zip p (seq 0 (length p)))).
  transitivity (map (vget v) (s.*1)).
  - unfold ix. rewrite !map_map. apply map_ext_in.
    intros [k i] Hin%list_elem_of_In. simpl.
    unfold s in Hin. rewrite merge_sort_Permutation in Hin.
    apply list_elem_of_lookup in Hin as [j Hj].
    apply lookup_zip_Some in Hj as [Hk Hi].
    apply lookup_seq in Hi as [-> _]. simpl.
    unfold vget at 1. rewrite nth_lookup, list_lookup_fmap, Hk. done.
  - unfold s. rewrite sorted_keys by done. rewrite Hlen. apply map_vget_seq.
Qed.

(** *** The options that the preparation leaves alone *)

Lemma post_try_reraise {A} (Q : A -> Prop) (body : M A) e :
  post Q body -> post Q (try_reraise body e).
Proof.
  intros H w a w'. unfold try_reraise.
  destruct (body w) as [[x|e'] w1] eqn:E; [|done]. intros [= <- <-]. eauto.
Qed.

Lemma info_perm_append_keeps ss_args name k :
  k <> "info"%string ->
  post (fun a => a !! k = ss_args !! k) (info_perm_append ss_args name).
Proof.
  intros Hk. unfold info_perm_append. post_run. by apply info_set_keeps.
Qed.

(** One step of a computation that only writes diagnostics. *)
Ltac keeps_step :=
  lazymatch goal with
  | |- post _ (bind (info_set _ _ _) _) =>
      eapply post_bind; [apply info_set_keeps; done | intros ? ?]
  | |- post _ (bind (info_perm_append _ _) _) =>
      eapply post_bind; [apply info_perm_append_keeps; done | intros ? ?]
  | |- post _ (info_set _ _ _) =>
      eapply post_weaken; [apply info_set_keeps; done | intros ? ?]
  | |- post _ (bind (lift _) _) => apply post_bind_lift; intros
  | |- post _ (bind _ _) => apply post_bind_any; intros
  | |- post _ (ret _) => apply post_ret
  | |- post _ (raise _) => apply post_raise
  | |- post _ (match ?x with _ => _ end) => destruct x
  end.

Ltac keeps_run := repeat keeps_step; try congruence.

Lemma reorder_wbm_keeps P L ss_args k :
  k <> "info"%string ->
  post (fun '(_, _, a) => a !! k = ss_args !! k) (reorder_wbm P L ss_args).
Proof. intros Hk. unfold reorder_wbm. keeps_run. Qed.

Lemma reorder_rcm_keeps P L ss_args k :
  k <> "info"%string ->
  post (fun '(_, _, _, a) => a !! k = ss_args !! k) (reorder_rcm P L ss_args).
Proof. intros Hk. unfold reorder_rcm. keeps_run. Qed.

Lemma LU_liouvillian_keeps P L ss_args k :
  k <> "info"%string ->
  post (fun '(_, _, _, _, a) => a !! k = ss_args !! k) (_steadystate_LU_liouvillian P L ss_args).
Proof.
  intros Hk. unfold _steadystate_LU_liouvillian. cbv zeta.
  apply post_bind_any. intros wt. apply post_bind_lift. intros L1 _.
  eapply post_bind; [by apply reorder_wbm_keeps|]. intros [[L2 perm] a1] H1.
  eapply post_bind; [by apply reorder_rcm_keeps|]. intros [[[L3 perm2] rp] a2] H2.
  apply post_ret. congruence.
Qed.

Lemma record_lu_options_keeps ss_args k :
  k <> "info"%string ->
  post (fun a => a !! k = ss_args !! k) (record_lu_options ss_args).
Proof. intros Hk. unfold record_lu_options. keeps_run. Qed.

Lemma iterative_precondition_keeps P A n ss_args k :
  k <> "info"%string ->
  post (fun '(_, a) => a !! k = ss_args !! k) (_iterative_precondition P A n ss_args).
Proof.
  intros Hk. unfold _iterative_precondition. apply post_try_reraise.
  do 5 (apply post_bind_any; intros). apply post_bind_lift. intros ilu _.
  eapply post_bind; [by apply record_lu_options_keeps|]. intros ? ?.
  keeps_run.
Qed.

Lemma precondition_if_asked_keeps P A n applicable ss_args k :
  k <> "info"%string -> k <> "M"%string ->
  post (fun a => a !! k = ss_args !! k) (precondition_if_asked P A n applicable ss_args).
Proof.
  intros Hk HM. unfold precondition_if_asked.
  do 2 (apply post_bind_any; intros).
  destruct (_ && _); [|by apply post_ret].
  eapply post_bind; [by apply iterative_precondition_keeps|]. intros [m' ?] ?.
  cbv zeta. destruct (is_none m'); keeps_run; by rewrite lookup_insert_ne.
Qed.

(** *** What the phases of the solvers hand on *)

Lemma flag_Ok ss_args k b w w' :
  flag ss_args k w = (Ok b, w') ->
  w' = w /\ exists v, ss_args !! k = Some v /\ truthy v = Ok b.
Proof.
  unfold flag. intros (v & w1 & [Hv ->]%get_Ok & [Ht ->]%lift_Ok)%bind_Ok. eauto.
Qed.

Lemma return_state_Ok data dims ss_args w r w' :
  return_state data dims ss_args w = (Ok r, w') -> qdata <$> ret_states r = [data].
Proof.
  revert w r w'. change (post (fun r => qdata <$> ret_states r = [data])
                              (return_state data dims ss_args)).
  unfold return_state. post_run; reflexivity.
Qed.

Lemma info_set_Ok ss_args key v w a w' k :
  info_set ss_args key v w = (Ok a, w') -> k <> "info"%string -> a !! k = ss_args !! k.
Proof. intros H Hk. by eapply (info_set_keeps ss_args key v k Hk). Qed.

Lemma reversal_permutes : [3; 2; 1; 0] ≡ₚ seq 0 4.
Proof. change ([3; 2; 1; 0]) with (reverse (seq 0 4)). apply reverse_Permutation. Qed.

Lemma rcm_prepare_run :
  iterative_prepare demo L_damping rcm_args []
  = (Ok (rcm_matrix, rcm_rhs, Some [3; 2; 1; 0], rcm_prepared_args),
     [EUseSolver true (PBool false)]).
Proof. vm_compute. reflexivity. Qed.

(** C4, counterexample: an iterative solve of the damping system with the
    Cuthill-McKee reordering (here the reversal of the four places) and the
    initial guess (1, 2, 3, 4).  The right-hand side reaches the solver
    reversed; the initial guess reaches it as given, not reversed: the
    tabulated solver, which returns its initial guess, returns (1, 2, 3, 4). *)
Lemma C4_counterexample :
  exists L' b rev_perm ss_args' w',
    iterative_prepare demo L_damping rcm_args [] = (Ok (L', b, rev_perm, ss_args'), w') /\
    b = ix e0 [3; 2; 1; 0] /\
    iterative_solve demo L' b ss_args' w' = (Ok (guess, 0%Z, 0), w') /\
    guess <> ix guess [3; 2; 1; 0].
Proof.
  exists rcm_matrix, rcm_rhs, (Some [3; 2; 1; 0]), rcm_prepared_args,
         [EUseSolver true (PBool false)].
  split; [exact rcm_prepare_run|].
  split; [compute_done|]. split; [vm_compute; reflexivity | compute_done].
Qed.

(** * Further properties of the module *)

(** ** The keyword loop *)

Lemma apply_kwargs_other kwargs ss_args r key :
  key ∉ kwargs.*1 -> apply_kwargs kwargs ss_args = Ok r -> r !! key = ss_args !! key.
Proof.
  revert ss_args. induction kwargs as [|[k v] kwargs IH]; simpl; intros ss_args Hkey H.
  - by injection H as <-.
  - case_bool_decide; [|done]. apply not_elem_of_cons in Hkey as [Hne Hkey].
    rewrite (IH _ Hkey H). by rewrite lookup_insert_ne.
Qed.

Lemma apply_kwargs_recognized kwargs ss_args :
  Forall (fun key => is_Some (ss_args !! key)) kwargs.*1 ->
  exists r, apply_kwargs kwargs ss_args = Ok r.
Proof.
  revert ss_args. induction kwargs as [|[k v] kwargs IH]; simpl; intros ss_args Hall.
  - eauto.
  - apply Forall_cons in Hall as [Hk Hall]. rewrite bool_decide_eq_true_2 by done.
    apply IH. eapply Forall_impl; [exact Hall|]. intros key Hkey. simpl in Hkey.
    destruct (decide (k = key)) as [->|Hne].
    + rewrite lookup_insert_eq. eauto.
    + by rewrite lookup_insert_ne.
Qed.

(** X1.  The keyword loop of [steadystate], [build_preconditioner] and
    [pseudo_inverse] accepts every call whose keywords are all among the
    twenty default options; the options it returns have exactly those twenty
    keys, and an option that the call does not name keeps its default. *)
Theorem X1_recognized_keywords kwargs :
  Forall (fun key => is_Some (_default_steadystate_args !! key)) kwargs.*1 ->
  exists ss_args,
    apply_kwargs kwargs _default_steadystate_args = Ok ss_args /\
    dom ss_args = dom _default_steadystate_args /\
    forall key, key ∉ kwargs.*1 -> ss_args !! key = _default_steadystate_args !! key.
Proof.
  intros Hall. destruct (apply_kwargs_recognized _ _ Hall) as [r Hr].
  exists r. split; [done|]. split; [by eapply apply_kwargs_dom|].
  intros key Hkey. by eapply apply_kwargs_other.
Qed.

Lemma X1_recognized_keywords_witness :
  exists ss_args,
    apply_kwargs [("tol"%string, PInt 1); ("info"%string, PDict [])]
      _default_steadystate_args = Ok ss_args /\
    dom ss_args = dom _default_steadystate_args /\
    forall key, key ∉ [("tol"%string, PInt 1); ("info"%string, PDict [])].*1 ->
                ss_args !! key = _default_steadystate_args !! key.
Proof.
  apply (X1_recognized_keywords [("tol"%string, PInt 1); ("info"%string, PDict [])]).
  repeat constructor; vm_compute; eauto.
Defined.

(** ** Computations that leave no effect *)

Lemma silent_ret {A} (a : A) : silent (ret a).
Proof. by intros w r w' [= _ <-]. Qed.

Lemma silent_raise {A} e : silent (raise (A:=A) e).
Proof. by intros w r w' [= _ <-]. Qed.

Lemma silent_lift {A} (x : result A) : silent (lift x).
Proof. by intros w r w' [= _ <-]. Qed.

Lemma silent_bind {A B} (m : M A) (f : A -> M B) :
  silent m -> (forall a, silent (f a)) -> silent (bind m f).
Proof.
  intros Hm Hf w r w'. unfold bind. destruct (m w) as [[a|e] w1] eqn:E.
  - intros H. apply Hf in H as ->. by eapply Hm.
  - intros [= _ <-]. by eapply Hm.
Qed.

Lemma silent_try_reraise {A} (body : M A) e : silent body -> silent (try_reraise body e).
Proof.
  intros Hb w r w'. unfold try_reraise. destruct (body w) as [[a|e'] w1] eqn:E.
  - intros [= _ <-]. by eapply Hb.
  - intros [= _ <-]. by eapply Hb.
Qed.

Ltac silent_step :=
  lazymatch goal with
  | |- silent (bind _ _) => apply silent_bind; [|intros]
  | |- silent (ret _) => apply silent_ret
  | |- silent (raise _) => apply silent_raise
  | |- silent (lift _) => apply silent_lift
  | |- silent (try_reraise _ _) => apply silent_try_reraise
  | |- silent (match ?x with _ => _ end) => destruct x
  end.

Lemma silent_get ss_args k : silent (get ss_args k).
Proof. unfold get. repeat silent_step. Qed.

Lemma silent_flag ss_args k : silent (flag ss_args k).
Proof. unfold flag. repeat silent_step. apply silent_get. Qed.

Lemma silent_num ss_args k : silent (num ss_args k).
Proof. unfold num. repeat silent_step. apply silent_get. Qed.

Lemma silent_info_of ss_args : silent (info_of ss_args).
Proof. unfold info_of. repeat silent_step. apply silent_get. Qed.

Lemma silent_info_get ss_args k : silent (info_get ss_args k).
Proof. unfold info_get. repeat silent_step. apply silent_info_of. Qed.

Lemma silent_info_set ss_args k v : silent (info_set ss_args k v).
Proof. unfold info_set. repeat silent_step. apply silent_info_of. Qed.

Lemma silent_info_pop ss_args k : silent (info_pop ss_args k).
Proof. unfold info_pop. repeat silent_step. apply silent_info_of. Qed.

Lemma silent_info_perm_append ss_args k : silent (info_perm_append ss_args k).
Proof.
  unfold info_perm_append. repeat silent_step;
    first [apply silent_info_get | apply silent_info_set].
Qed.

Create HintDb silent.
#[global] Hint Resolve silent_get silent_flag silent_num silent_info_of silent_info_get
  silent_info_set silent_info_pop silent_info_perm_append : silent.

Ltac silent_run := repeat (silent_step; auto with silent).

Lemma silent_natural_if_rcm kwargs ss_args : silent (natural_if_rcm kwargs ss_args).
Proof. unfold natural_if_rcm. silent_run. Qed.

(** ** The preparation of a call, step by step *)

Lemma natural_if_rcm_run kwargs ss_args v b w :
  ss_args !! "use_rcm" = Some v -> truthy v = Ok b ->
  natural_if_rcm kwargs ss_args w
  = (Ok (if b && negb (has_key kwargs "permc_spec")
         then <["permc_spec" := PStr "NATURAL"]> ss_args else ss_args), w).
Proof.
  intros Hv Hb. unfold natural_if_rcm.
  rewrite (bind_step _ _ _ _ _ (flag_run _ _ _ _ _ Hv Hb)).
  by destruct (b && _).
Qed.

Lemma natural_if_rcm_Ok kwargs ss_args w a w' :
  natural_if_rcm kwargs ss_args w = (Ok a, w') ->
  exists v b, ss_args !! "use_rcm" = Some v /\ truthy v = Ok b /\ w' = w /\
    a = if b && negb (has_key kwargs "permc_spec")
        then <["permc_spec" := PStr "NATURAL"]> ss_args else ss_args.
Proof.
  unfold natural_if_rcm.
  intros (b & w1 & (-> & v & Hv & Hb)%flag_Ok & H)%bind_Ok.
  exists v, b. split; [done|]. split; [done|].
  destruct (b && _); apply ret_Ok in H as [-> ->]; done.
Qed.

Lemma info_of_Ok ss_args w d w' :
  info_of ss_args w = (Ok d, w') -> ss_args !! "info" = Some (PDict d) /\ w' = w.
Proof.
  unfold info_of. intros (v & w1 & [Hv ->]%get_Ok & H)%bind_Ok.
  destruct v; try done. by apply ret_Ok in H as [-> ->].
Qed.

Lemma info_get_Ok ss_args k w v w' :
  info_get ss_args k w = (Ok v, w') ->
  exists d, ss_args !! "info" = Some (PDict d) /\ dict_get d k = Some v /\ w' = w.
Proof.
  unfold info_get. intros (d & w1 & [Hd ->]%info_of_Ok & H)%bind_Ok.
  exists d. destruct (dict_get d k); [|done]. by apply ret_Ok in H as [-> ->].
Qed.

Lemma info_set_Ok_eq ss_args k v w a w' :
  info_set ss_args k v w = (Ok a, w') ->
  exists d, ss_args !! "info" = Some (PDict d) /\
            a = <["info" := PDict (dict_set d k v)]> ss_args /\ w' = w.
Proof.
  unfold info_set. intros (d & w1 & [Hd ->]%info_of_Ok & H)%bind_Ok.
  exists d. by apply ret_Ok in H as [-> ->].
Qed.

Lemma info_pop_Ok ss_args k w a w' :
  info_pop ss_args k w = (Ok a, w') ->
  exists d, ss_args !! "info" = Some (PDict d) /\
            a = <["info" := PDict (dict_pop d k)]> ss_args /\ w' = w.
Proof.
  unfold info_pop. intros (d & w1 & [Hd ->]%info_of_Ok & H)%bind_Ok.
  exists d. by apply ret_Ok in H as [-> ->].
Qed.

(** Lines 205-224 of [steadystate], read from a successful end. *)
Lemma ss_prepare_Ok P A c_op_list kwargs w A' ss_args w' :
  ss_prepare P A c_op_list kwargs w = (Ok (A', ss_args), w') ->
  exists a0 v b,
    apply_kwargs kwargs _default_steadystate_args = Ok a0 /\
    a0 !! "use_rcm" = Some v /\ truthy v = Ok b /\
    _steadystate_setup P A c_op_list w = (Ok A', w') /\
    let a1 := if b && negb (has_key kwargs "permc_spec")
              then <["permc_spec" := PStr "NATURAL"]> a0 else a0 in
    if has_key kwargs "weight" then ss_args = a1
    else exists d old x,
      a1 !! "info" = Some (PDict d) /\ dict_get d "weight" = Some old /\
      auto_weight P A' = Ok x /\
      ss_args = <["info" := PDict (dict_set d "weight" (PFloat x))]>
                  (<["weight" := PFloat x]> a1).
Proof.
  unfold ss_prepare.
  intros (a0 & w0 & [Ha0 ->]%lift_Ok & H)%bind_Ok.
  apply bind_Ok in H as (a1 & w1 & (v & b & Hv & Hb & -> & ->)%natural_if_rcm_Ok & H).
  apply bind_Ok in H as (A1 & w2 & HA1 & H).
  apply bind_Ok in H as (a2 & w3 & H2 & H).
  apply ret_Ok in H as [[= <- <-] ->].
  exists a0, v, b. split; [done|]. split; [done|]. split; [done|].
  cbv zeta. destruct (has_key kwargs "weight"); simpl in H2.
  - apply ret_Ok in H2 as [-> ->]. by split.
  - apply bind_Ok in H2 as (old & w4 & (d & Hd & Hold & ->)%info_get_Ok & H2).
    apply bind_Ok in H2 as (x & w5 & [Hx ->]%lift_Ok & H2).
    apply info_set_Ok_eq in H2 as (d' & Hd' & -> & ->).
    rewrite lookup_insert_ne in Hd' by done.
    assert (d' = d) as -> by congruence.
    split; [done|]. by exists d, old, x.
Qed.

Lemma option_of_Ok kwargs a0 key :
  apply_kwargs kwargs _default_steadystate_args = Ok a0 -> option_of kwargs key = a0 !! key.
Proof. unfold option_of. by intros ->. Qed.

(** ** Input that is not a Liouvillian *)

(** X2.  A Hamiltonian (an operator) without collapse operators, and an
    object that is neither an operator nor a superoperator, are rejected as
    invalid input by any call with recognized keywords; nothing was built
    and no library was called before. *)
Theorem X2_invalid_input P A c_op_list kwargs w ss_args v b :
  apply_kwargs kwargs _default_steadystate_args = Ok ss_args ->
  ss_args !! "use_rcm" = Some v -> truthy v = Ok b ->
  (isoper A = true /\ c_op_list = []) \/ (isoper A = false /\ issuper A = false) ->
  exists what,
    steadystate P A c_op_list kwargs w = (Err (InvalidInputError what), w).
Proof.
  intros Hk Hv Hb Hcase.
  assert (exists what, _steadystate_setup P A c_op_list w = (Err (InvalidInputError what), w))
    as [what Hsetup].
  { unfold _steadystate_setup. destruct Hcase as [[-> ->]|[-> ->]]; simpl; eauto. }
  exists what. unfold steadystate, ss_prepare. rewrite Hk.
  apply bind_Err. rewrite bind_lift_Ok.
  rewrite (bind_step _ _ _ _ _ (natural_if_rcm_run kwargs _ _ _ w Hv Hb)).
  by apply bind_Err.
Qed.

Lemma X2_invalid_input_witness :
  exists what,
    steadystate demo sigma_z [] [("method"%string, PStr "eigen")] []
    = (Err (InvalidInputError what), []).
Proof.
  eapply (X2_invalid_input demo sigma_z [] [("method"%string, PStr "eigen")] [] _
            (PBool false) false); [reflexivity | reflexivity | reflexivity |].
  left. split; reflexivity.
Defined.

(** ** A Liouvillian as input *)

Lemma issuper_not_oper A : issuper A = true -> isoper A = false.
Proof. unfold issuper, isoper. by destruct (qtype_of A). Qed.

(** X3.  Given a Liouvillian (a superoperator), [steadystate] ignores the
    collapse operators that come with it: the call is the call without them;
    the preparation hands the very same Liouvillian to the solver and leaves
    no effect, so no Liouvillian is built. *)
Theorem X3_superoperator_input P A c_op_list kwargs w :
  issuper A = true ->
  steadystate P A c_op_list kwargs w = steadystate P A [] kwargs w /\
  forall A' ss_args w',
    ss_prepare P A c_op_list kwargs w = (Ok (A', ss_args), w') -> A' = A /\ w' = w.
Proof.
  intros HA. pose proof (issuper_not_oper A HA) as Hop. split.
  - unfold steadystate, ss_prepare, _steadystate_setup. by rewrite Hop.
  - intros A' ss_args w' (a0 & v & b & _ & _ & _ & Hsetup & _)%ss_prepare_Ok.
    unfold _steadystate_setup in Hsetup. rewrite Hop, HA in Hsetup.
    by apply ret_Ok in Hsetup as [-> ->].
Qed.

Lemma X3_superoperator_input_witness :
  steadystate demo L_damping [sigma_minus] [] [] = steadystate demo L_damping [] [] [] /\
  forall A' ss_args w',
    ss_prepare demo L_damping [sigma_minus] [] [] = (Ok (A', ss_args), w') ->
    A' = L_damping /\ w' = [].
Proof. apply (X3_superoperator_input demo L_damping [sigma_minus] [] []). reflexivity. Defined.

(** ** The options that the preparation derives *)

(** X4.  The column ordering that reaches the solver: 'NATURAL' when the
    Cuthill-McKee reordering is on and the call does not name [permc_spec];
    otherwise the value of the call, or the default 'COLAMD'. *)
Theorem X4_column_ordering P A c_op_list kwargs w A' ss_args w' :
  ss_prepare P A c_op_list kwargs w = (Ok (A', ss_args), w') ->
  exists v b,
    option_of kwargs "use_rcm" = Some v /\ truthy v = Ok b /\
    ss_args !! "permc_spec"
    = if b && negb (has_key kwargs "permc_spec") then Some (PStr "NATURAL")
      else option_of kwargs "permc_spec".
Proof.
  intros (a0 & v & b & Ha0 & Hv & Hb & _ & H)%ss_prepare_Ok. cbv zeta in H.
  exists v, b. rewrite !(option_of_Ok _ _ _ Ha0). split; [done|]. split; [done|].
  assert ((if b && negb (has_key kwargs "permc_spec")
           then <["permc_spec" := PStr "NATURAL"]> a0 else a0) !! "permc_spec"
          = if b && negb (has_key kwargs "permc_spec") then Some (PStr "NATURAL")
            else a0 !! "permc_spec") as Ha1.
  { destruct (b && _); [apply lookup_insert_eq | done]. }
  destruct (has_key kwargs "weight").
  - by rewrite H.
  - destruct H as (d & old & x & _ & _ & _ & ->).
    by rewrite !lookup_insert_ne.
Qed.

Lemma X4_column_ordering_witness :
  exists v b,
    option_of [] "use_rcm" = Some v /\ truthy v = Ok b /\
    damping_prepared_args !! "permc_spec"
    = if b && negb (has_key [] "permc_spec") then Some (PStr "NATURAL")
      else option_of [] "permc_spec".
Proof.
  apply (X4_column_ordering demo L_damping [] [] [] L_damping damping_prepared_args []).
  vm_compute. reflexivity.
Defined.

(** X5.  The weight of the trace condition.  A weight named by the call is
    kept, and the diagnostics are left as they were; otherwise the weight is
    the modulus of the largest stored entry of the Liouvillian, and the same
    number is written to the entry [weight] of the diagnostics. *)
Theorem X5_weight P A c_op_list kwargs w A' ss_args w' :
  ss_prepare P A c_op_list kwargs w = (Ok (A', ss_args), w') ->
  if has_key kwargs "weight"
  then ss_args !! "weight" = option_of kwargs "weight" /\
       ss_args !! "info" = option_of kwargs "info"
  else exists z d,
    arr_max (stored (qdata A')) = Ok z /\
    ss_args !! "weight" = Some (PFloat (np_abs P z)) /\
    ss_args !! "info" = Some (PDict d) /\
    dict_get d "weight" = Some (PFloat (np_abs P z)).
Proof.
  intros (a0 & v & b & Ha0 & Hv & Hb & _ & H)%ss_prepare_Ok. cbv zeta in H.
  rewrite ?(option_of_Ok _ _ _ Ha0).
  destruct (has_key kwargs "weight").
  - subst ss_args. destruct (b && _); by rewrite ?lookup_insert_ne.
  - destruct H as (d & old & x & Hd & _ & Hx & ->).
    unfold auto_weight, np_mean_scalar in Hx.
    destruct (arr_max _) as [z|] eqn:Hz; [|done]. injection Hx as <-.
    exists z, (dict_set d "weight" (PFloat (np_abs P z))).
    split; [done|]. split; [by rewrite lookup_insert_ne, lookup_insert_eq|].
    split; [by rewrite lookup_insert_eq|].
    by rewrite dict_get_set, bool_decide_eq_true_2.
Qed.

Lemma X5_weight_witness :
  if has_key [] "weight"
  then damping_prepared_args !! "weight" = option_of [] "weight" /\
       damping_prepared_args !! "info" = option_of [] "info"
  else exists z d,
    arr_max (stored (qdata L_damping)) = Ok z /\
    damping_prepared_args !! "weight" = Some (PFloat (np_abs demo z)) /\
    damping_prepared_args !! "info" = Some (PDict d) /\
    dict_get d "weight" = Some (PFloat (np_abs demo z)).
Proof.
  apply (X5_weight demo L_damping [] [] [] L_damping damping_prepared_args []).
  vm_compute. reflexivity.
Defined.

(** ** What a call leaves behind *)

Lemma silent_reorder_wbm P L ss_args : silent (reorder_wbm P L ss_args).
Proof. unfold reorder_wbm. silent_run. Qed.

Lemma silent_reorder_rcm P L ss_args : silent (reorder_rcm P L ss_args).
Proof. unfold reorder_rcm. silent_run. Qed.

Lemma silent_reorder_rcm_power P L ss_args : silent (reorder_rcm_power P L ss_args).
Proof. unfold reorder_rcm_power. silent_run. Qed.

#[global] Hint Resolve silent_reorder_wbm silent_reorder_rcm silent_reorder_rcm_power : silent.

Lemma silent_LU_liouvillian P L ss_args : silent (_steadystate_LU_liouvillian P L ss_args).
Proof. unfold _steadystate_LU_liouvillian. cbv zeta. silent_run. Qed.

Lemma silent_power_liouvillian P L ss_args :
  silent (_steadystate_power_liouvillian P L ss_args).
Proof. unfold _steadystate_power_liouvillian. silent_run. Qed.

Lemma silent_permuted_rhs b perm perm2 : silent (permuted_rhs b perm perm2).
Proof. unfold permuted_rhs, permute_if_any. silent_run. Qed.

Lemma silent_unpermute v rev_perm : silent (unpermute v rev_perm).
Proof. unfold unpermute. silent_run. Qed.

Lemma silent_record_lu_options ss_args : silent (record_lu_options ss_args).
Proof. unfold record_lu_options. silent_run. Qed.

Lemma silent_return_state data dims ss_args : silent (return_state data dims ss_args).
Proof. unfold return_state. silent_run. Qed.

#[global] Hint Resolve silent_LU_liouvillian silent_power_liouvillian silent_permuted_rhs
  silent_unpermute silent_record_lu_options silent_return_state : silent.

Lemma silent_direct_sparse_solve P L b ss_args : silent (direct_sparse_solve P L b ss_args).
Proof. unfold direct_sparse_solve. silent_run. Qed.

Lemma silent_direct_sparse_finish P dims A b rev_perm ss_args v :
  silent (direct_sparse_finish P dims A b rev_perm ss_args v).
Proof. unfold direct_sparse_finish. silent_run. Qed.

Lemma silent_direct_dense P L ss_args : silent (_steadystate_direct_dense P L ss_args).
Proof. unfold _steadystate_direct_dense. cbv zeta. silent_run. Qed.

Lemma silent_eigen P L ss_args : silent (_steadystate_eigen P L ss_args).
Proof. unfold _steadystate_eigen, eigen_reorder. cbv zeta. silent_run. Qed.

Lemma silent_svd_dense P L ss_args : silent (_steadystate_svd_dense P L ss_args).
Proof. unfold _steadystate_svd_dense. cbv zeta. silent_run. Qed.

Lemma silent_iterative_precondition P A n ss_args :
  silent (_iterative_precondition P A n ss_args).
Proof. unfold _iterative_precondition. silent_run. Qed.

(** What [_iterative_precondition] returns is a linear operator, never
    [None]. *)
Lemma iterative_precondition_Ok P A n ss_args w m a w' :
  _iterative_precondition P A n ss_args w = (Ok (m, a), w') ->
  exists ilu permc drop_tol thresh fill milu,
    spilu P A permc drop_tol thresh fill milu = Ok ilu /\ m = linear_operator ilu.
Proof.
  assert (post (fun '(m, _) => exists ilu permc drop_tol thresh fill milu,
                  spilu P A permc drop_tol thresh fill milu = Ok ilu /\
                  m = linear_operator ilu)
               (_iterative_precondition P A n ss_args)) as Hpost.
  { unfold _iterative_precondition. apply post_try_reraise. post_run; eauto 10. }
  intros H. exact (Hpost _ _ _ H).
Qed.

Lemma silent_precondition_if_asked P A n applicable ss_args :
  silent (precondition_if_asked P A n applicable ss_args).
Proof.
  unfold precondition_if_asked.
  apply silent_bind; [auto with silent|]. intros m.
  apply silent_bind; [destruct (is_none m); auto using silent_ret with silent|].
  intros wanted. destruct (wanted && applicable); [|apply silent_ret].
  intros w r w'. unfold bind.
  destruct (_iterative_precondition P A n ss_args w) as [[[m' a]|e] w1] eqn:E.
  - pose proof (silent_iterative_precondition _ _ _ _ _ _ _ E) as ->.
    apply iterative_precondition_Ok in E as (ilu & ? & ? & ? & ? & ? & _ & ->).
    simpl. by intros [= _ <-].
  - pose proof (silent_iterative_precondition _ _ _ _ _ _ _ E) as ->.
    by intros [= _ <-].
Qed.

Lemma silent_call_krylov P k A b tol ss_args : silent (call_krylov P k A b tol ss_args).
Proof. unfold call_krylov. silent_run. Qed.

#[global] Hint Resolve silent_direct_sparse_solve silent_direct_sparse_finish
  silent_iterative_precondition silent_precondition_if_asked silent_call_krylov : silent.

Lemma silent_iterative_solve P A b ss_args : silent (iterative_solve P A b ss_args).
Proof. unfold iterative_solve. silent_run. Qed.

Lemma silent_iterative_finish P dims A b rev_perm ss_args v check iters :
  silent (iterative_finish P dims A b rev_perm ss_args v check iters).
Proof. unfold iterative_finish. silent_run. Qed.

Lemma silent_power_inner_tol P ss_args : silent (power_inner_tol P ss_args).
Proof. unfold power_inner_tol. silent_run. Qed.

Lemma silent_power_refine P lu A _tol ss_args v : silent (power_refine P lu A _tol ss_args v).
Proof. unfold power_refine. silent_run. Qed.

Lemma silent_power_loop P refine A tol left it v :
  (forall v, silent (refine v)) -> silent (power_loop P refine A tol left it v).
Proof.
  intros Hr. revert it v. induction left as [|left IH]; intros it v; simpl.
  - destruct (bool_decide _); apply silent_ret.
  - destruct (bool_decide _); [|apply silent_ret]. silent_run.
Qed.

Lemma silent_power_normalise L n v : silent (power_normalise L n v).
Proof. unfold power_normalise. silent_run. Qed.

#[global] Hint Resolve silent_iterative_solve silent_iterative_finish silent_power_inner_tol
  silent_power_refine silent_power_normalise : silent.

Lemma at_most_silent {A} kind (m : M A) : silent m -> at_most kind m.
Proof. intros H w r w' Hm. left. by eapply H. Qed.

Lemma at_most_emit kind e : kind e -> at_most kind (emit e).
Proof. intros He w r w' [= _ <-]. right. eauto. Qed.

Lemma at_most_bind_l {A B} kind (m : M A) (f : A -> M B) :
  at_most kind m -> (forall a, silent (f a)) -> at_most kind (bind m f).
Proof.
  intros Hm Hf w r w'. unfold bind. destruct (m w) as [[a|e] w1] eqn:E.
  - intros H. apply Hf in H as ->. by eapply Hm.
  - intros [= _ <-]. by eapply Hm.
Qed.

Lemma at_most_bind_r {A B} kind (m : M A) (f : A -> M B) :
  silent m -> (forall a, at_most kind (f a)) -> at_most kind (bind m f).
Proof.
  intros Hm Hf w r w'. unfold bind. destruct (m w) as [[a|e] w1] eqn:E.
  - apply Hm in E as ->. apply Hf.
  - apply Hm in E as ->. intros [= _ <-]. by left.
Qed.

(** Up to the one [emit], and silently from there. *)
Ltac at_most_step :=
  lazymatch goal with
  | |- at_most _ (bind (emit _) _) =>
      apply at_most_bind_l; [apply at_most_emit | intros; silent_run]
  | |- at_most _ (bind _ _) =>
      apply at_most_bind_r; [first [solve [auto with silent] | silent_run] | intros]
  | |- at_most _ (match ?x with _ => _ end) => destruct x
  end.

Lemma at_most_direct_sparse P L ss_args :
  at_most selects_solver (_steadystate_direct_sparse P L ss_args).
Proof.
  unfold _steadystate_direct_sparse.
  apply at_most_bind_l; [|intros; silent_run].
  unfold direct_sparse_prepare. cbv zeta. repeat at_most_step. by eexists.
Qed.

Lemma at_most_iterative P L ss_args :
  at_most selects_solver (_steadystate_iterative P L ss_args).
Proof.
  unfold _steadystate_iterative.
  apply at_most_bind_l; [|intros; silent_run].
  unfold iterative_prepare. cbv zeta. repeat at_most_step. by eexists.
Qed.

Lemma at_most_power P L ss_args :
  at_most selects_solver (_steadystate_power P L ss_args).
Proof.
  unfold _steadystate_power. cbv zeta.
  at_most_step. at_most_step; [by eexists|].
  all: try (apply silent_power_loop; intros; auto with silent).
Qed.

Lemma at_most_dispatch P A ss_args : at_most selects_solver (ss_dispatch P A ss_args).
Proof.
  unfold ss_dispatch.
  apply at_most_bind_r; [auto with silent|]. intros method.
  destruct (is_str method "direct").
  { apply at_most_bind_r; [auto with silent|]. intros [].
    - apply at_most_direct_sparse.
    - apply at_most_silent, silent_direct_dense. }
  destruct (is_str method "eigen"); [apply at_most_silent, silent_eigen|].
  destruct (str_in method _); [apply at_most_iterative|].
  destruct (is_str method "svd"); [apply at_most_silent, silent_svd_dense|].
  destruct (str_in method _); [apply at_most_power|].
  apply at_most_silent, silent_raise.
Qed.

Lemma setup_effects P A c_op_list w r w' :
  _steadystate_setup P A c_op_list w = (r, w') ->
  w' = w \/ (w' = w ++ [EBuildLiouvillian] /\ isoper A = true /\ c_op_list <> []).
Proof.
  unfold _steadystate_setup. destruct (isoper A).
  - case_bool_decide as Hc.
    + intros [= _ <-]. right. split; [done|]. split; [done|].
      intros ->. simpl in Hc. lia.
    + intros [= _ <-]. by left.
  - destruct (issuper A); intros [= _ <-]; by left.
Qed.

Lemma prepare_effects P A c_op_list kwargs w r w' :
  ss_prepare P A c_op_list kwargs w = (r, w') ->
  w' = w \/ (w' = w ++ [EBuildLiouvillian] /\ isoper A = true /\ c_op_list <> []).
Proof.
  unfold ss_prepare, bind at 1, lift at 1.
  destruct (apply_kwargs kwargs _default_steadystate_args) as [a0|e]; [|intros [= _ <-]; by left].
  unfold bind at 1.
  destruct (natural_if_rcm kwargs a0 w) as [[a1|e] w1] eqn:E1;
    apply silent_natural_if_rcm in E1 as ->; [|intros [= _ <-]; by left].
  unfold bind at 1.
  destruct (_steadystate_setup P A c_op_list w) as [[A'|e] w2] eqn:E2;
    apply setup_effects in E2; [|by intros [= _ <-]].
  intros H.
  match type of H with ?m _ = _ => assert (silent m) as Hs end.
  { apply silent_bind; [destruct (negb _); silent_run | intros; apply silent_ret]. }
  by apply Hs in H as ->.
Qed.

(** X6.  Whatever its result, a call of [steadystate] only adds to what was
    left behind before, and it adds at most two things, in this order: that
    a Liouvillian was built, which happens only for an operator that comes
    with collapse operators, and that the linear solver of scipy was
    configured, once.  It never warns. *)
Theorem X6_effects P A c_op_list kwargs w r w' :
  steadystate P A c_op_list kwargs w = (r, w') ->
  exists built used,
    w' = w ++ built ++ used /\
    (built = [] \/ (built = [EBuildLiouvillian] /\ isoper A = true /\ c_op_list <> [])) /\
    (used = [] \/ exists umf, used = [EUseSolver true umf]).
Proof.
  unfold steadystate, bind.
  destruct (ss_prepare P A c_op_list kwargs w) as [[[A' ss_args]|e] w1] eqn:E1;
    apply prepare_effects in E1.
  - intros [->|(e & [umf ->] & ->)]%at_most_dispatch.
    + destruct E1 as [->|(-> & HA & Hc)].
      * exists [], []. by rewrite !app_nil_r; split; [|split; left].
      * exists [EBuildLiouvillian], []. by rewrite !app_nil_r; split; [|split; [right|left]].
    + destruct E1 as [->|(-> & HA & Hc)].
      * exists [], [EUseSolver true umf].
        split; [done|]. split; [by left|]. right. by exists umf.
      * exists [EBuildLiouvillian], [EUseSolver true umf].
        split; [by rewrite <- app_assoc|]. split; [by right|]. right. by exists umf.
  - intros [= _ <-]. destruct E1 as [->|(-> & HA & Hc)].
    + exists [], []. by rewrite !app_nil_r; split; [|split; left].
    + exists [EBuildLiouvillian], []. by rewrite !app_nil_r; split; [|split; [right|left]].
Qed.

(** A Hamiltonian with a collapse operator, on the default method: the
    Liouvillian is built, the solver is configured, and the factorization,
    which the table does not hold, fails. *)
Lemma X6_effects_witness :
  exists built used,
    [EBuildLiouvillian; EUseSolver true (PBool false)] = [] ++ built ++ used /\
    (built = [] \/
     (built = [EBuildLiouvillian] /\ isoper H_free = true /\ [lowering] <> [])) /\
    (used = [] \/ exists umf, used = [EUseSolver true umf]).
Proof.
  apply (X6_effects demo_built H_free [lowering] [] []
           (Err (LibraryError "not tabulated"))).
  vm_compute. reflexivity.
Defined.

(** ** The name of the method *)

(** X7.  A method that is not one of the ten names is refused with the error
    of the invalid method, but only at the end of the preparation: by then
    the Liouvillian of a Hamiltonian has been built and the weight
    computed. *)
Theorem X7_invalid_method P A c_op_list kwargs w A' ss_args w' method :
  ss_prepare P A c_op_list kwargs w = (Ok (A', ss_args), w') ->
  method_of kwargs = Some method ->
  str_in method known_methods = false ->
  steadystate P A c_op_list kwargs w
  = (Err (ConfigurationError "Invalid method argument for steadystate."), w').
Proof.
  intros Hprep Hm Hnot. unfold steadystate.
  rewrite (bind_step _ _ _ _ _ Hprep).
  pose proof (ss_prepare_method P A c_op_list kwargs _ _ _ Hprep) as Hget.
  cbv beta iota in Hget. rewrite Hm in Hget.
  unfold ss_dispatch. rewrite (bind_step _ _ _ _ _ (get_run _ _ _ _ Hget)).
  unfold str_in, known_methods in Hnot. simpl in Hnot.
  repeat (apply orb_false_elim in Hnot as [? Hnot]).
  unfold str_in. simpl.
  repeat match goal with H : is_str method _ = false |- _ => rewrite H; clear H end.
  reflexivity.
Qed.

Lemma X7_invalid_method_witness :
  steadystate demo_built H_free [lowering] [("method"%string, PStr "lu")] []
  = (Err (ConfigurationError "Invalid method argument for steadystate."), [EBuildLiouvillian]).
Proof.
  eapply (X7_invalid_method demo_built H_free [lowering] [("method"%string, PStr "lu")] []
            L_damping _ [EBuildLiouvillian] (PStr "lu")).
  - vm_compute. reflexivity.
  - reflexivity.
  - reflexivity.
Defined.

(** ** The status of the iterative solvers and their diagnostics *)

(** X8.  When the solver reports a negative status the call fails with the
    error of the fatal failure, which carries that status; it does so with
    and without [return_info], and after the diagnostics were written. *)
Theorem X8_fatal_status P dims A b rev_perm ss_args v check iters w d pt riv ri :
  (check < 0)%Z ->
  ss_args !! "info" = Some (PDict d) ->
  dict_get d "precond_time" = Some pt ->
  ss_args !! "return_info" = Some riv -> truthy riv = Ok ri ->
  iterative_finish P dims A b rev_perm ss_args v check iters w
  = (Err (SolverFailureError check), w).
Proof.
  intros Hcheck Hinfo Hpt Hri Hb. unfold iterative_finish.
  rewrite (bind_step _ _ _ _ _ (info_set_run _ _ _ _ _ Hinfo)).
  set (a1 := <["info":=_]> ss_args).
  assert (H1 : a1 !! "info" = Some (PDict (dict_set d "iter_time" PElapsed)))
    by apply lookup_insert_eq.
  assert (Hpt1 : dict_get (dict_set d "iter_time" PElapsed) "precond_time" = Some pt)
    by (by rewrite dict_get_set, bool_decide_eq_false_2).
  rewrite (bind_step _ _ _ pt _ (info_get_run _ _ _ _ _ H1 Hpt1)).
  rewrite (bind_step _ _ _ _ _ (info_set_run _ _ _ _ _ H1)).
  set (a2 := <["info":=_]> a1).
  pose proof (lookup_insert_eq a1 "info"
                (PDict (dict_set (dict_set d "iter_time" PElapsed) "solution_time" PElapsed)))
    as H2. fold a2 in H2.
  rewrite (bind_step _ _ _ _ _ (info_set_run _ _ _ _ _ H2)).
  set (a3 := <["info":=_]> a2).
  pose proof (lookup_insert_eq a2 "info"
                (PDict (dict_set (dict_set (dict_set d "iter_time" PElapsed)
                                           "solution_time" PElapsed)
                                 "iterations" (PInt (Z.of_nat iters)))))
    as H3. fold a3 in H3.
  assert (Hri3 : a3 !! "return_info" = Some riv)
    by (unfold a3, a2, a1; by rewrite !lookup_insert_ne).
  rewrite (bind_step _ _ _ ri _ (flag_run _ _ _ _ _ Hri3 Hb)).
  assert (forall a, (if bool_decide (0 < check)%Z
                     then let* maxiter := get a "maxiter" in
                          let* residual := info_get a "residual_norm" in
                          raise (ConvergenceError [maxiter; residual])
                     else if bool_decide (check < 0)%Z
                          then raise (SolverFailureError check)
                          else let* use_rcm := flag a "use_rcm" in
                               let* v0 := (if use_rcm then unpermute v rev_perm else ret v) in
                               return_state (hermitize (vec2mat v0)) dims a) w
                    = (Err (SolverFailureError check), w)) as Hend.
  { intros a. rewrite bool_decide_eq_false_2 by lia.
    by rewrite bool_decide_eq_true_2 by done. }
  destruct ri.
  - rewrite (bind_step _ _ _ _ _ (info_set_run _ _ _ _ _ H3)). apply Hend.
  - rewrite (bind_step _ _ _ a3 _ eq_refl). apply Hend.
Qed.

Lemma X8_fatal_status_witness :
  iterative_finish demo [2] damping e0 None _default_steadystate_args e0 (-3) 1 []
  = (Err (SolverFailureError (-3)), []).
Proof.
  apply (X8_fatal_status demo [2] damping e0 None _default_steadystate_args e0 (-3) 1 []
           _empty_info_dict PNone (PBool false) false); reflexivity.
Defined.

Lemma return_state_Ok_eq data dims ss_args w r w' :
  return_state data dims ss_args w = (Ok r, w') ->
  exists riv ri, ss_args !! "return_info" = Some riv /\ truthy riv = Ok ri /\ w' = w /\
    if ri : bool
    then exists info, ss_args !! "info" = Some info /\
                      r = RetStateInfo (mkQobj data Oper dims (Some true)) info
    else r = RetState (mkQobj data Oper dims (Some true)).
Proof.
  unfold return_state.
  intros (ri & w1 & (-> & riv & Hriv & Hri)%flag_Ok & H)%bind_Ok.
  exists riv, ri. split; [done|]. split; [done|]. destruct ri.
  - apply bind_Ok in H as (info & w2 & [Hinfo ->]%get_Ok & [-> ->]%ret_Ok). eauto.
  - by apply ret_Ok in H as [-> ->].
Qed.

(** X9.  A state comes back from the iterative solvers only when the status
    is zero.  Without [return_info] it comes alone; with it, it comes with
    the diagnostics, which hold the number of iterations that the callback
    counted and the residual norm of the solution of the (reordered)
    system. *)
Theorem X9_iterative_diagnostics P dims A b rev_perm ss_args v check iters w r w' :
  iterative_finish P dims A b rev_perm ss_args v check iters w = (Ok r, w') ->
  check = 0%Z /\
  exists riv ri,
    ss_args !! "return_info" = Some riv /\ truthy riv = Ok ri /\
    if ri : bool
    then exists rho d,
      r = RetStateInfo rho (PDict d) /\
      dict_get d "iterations" = Some (PInt (Z.of_nat iters)) /\
      dict_get d "residual_norm" = Some (PFloat (la_norm P (vsub b (matvec A v)))) /\
      dict_get d "solution_time" = Some PElapsed
    else exists rho, r = RetState rho.
Proof.
  unfold iterative_finish.
  intros (a1 & w1 & (d & Hd & -> & ->)%info_set_Ok_eq & H)%bind_Ok.
  apply bind_Ok in H as (pt & w2 & (d1 & _ & _ & ->)%info_get_Ok & H).
  apply bind_Ok in H as (a2 & w3 & (d2 & Hd2 & -> & ->)%info_set_Ok_eq & H).
  rewrite lookup_insert_eq in Hd2. injection Hd2 as <-.
  apply bind_Ok in H as (a3 & w4 & (d3 & Hd3 & -> & ->)%info_set_Ok_eq & H).
  rewrite lookup_insert_eq in Hd3. injection Hd3 as <-.
  apply bind_Ok in H as (ri & w5 & (-> & riv & Hriv & Hri)%flag_Ok & H).
  rewrite !lookup_insert_ne in Hriv by done.
  apply bind_Ok in H as (a4 & w6 & H4 & H).
  case_bool_decide as Hpos.
  { apply bind_Ok in H as (? & ? & _ & (? & ? & _ & H)%bind_Ok). done. }
  case_bool_decide as Hneg; [done|].
  split; [lia|]. exists riv, ri. split; [done|]. split; [done|].
  apply bind_Ok in H as (use_rcm & w7 & (-> & _)%flag_Ok & H).
  apply bind_Ok in H as (v' & w8 & _ & H).
  apply return_state_Ok_eq in H as (riv' & ri' & Hriv' & Hri' & _ & H).
  destruct ri.
  - apply info_set_Ok_eq in H4 as (d4 & Hd4 & -> & ->).
    rewrite lookup_insert_eq in Hd4. injection Hd4 as <-.
    rewrite !lookup_insert_ne in Hriv' by done.
    assert (ri' = true) as -> by congruence.
    destruct H as (info & Hinfo & ->). rewrite lookup_insert_eq in Hinfo.
    injection Hinfo as <-. eexists _, _. split; [done|].
    rewrite !dict_get_set. by repeat (rewrite ?bool_decide_eq_true_2, ?bool_decide_eq_false_2 by done).
  - apply ret_Ok in H4 as [-> ->].
    rewrite !lookup_insert_ne in Hriv' by done.
    assert (ri' = false) as -> by congruence. eauto.
Qed.

Lemma X9_iterative_diagnostics_witness :
  0%Z = 0%Z /\
  exists riv ri,
    _default_steadystate_args !! "return_info" = Some riv /\ truthy riv = Ok ri /\
    if ri : bool
    then exists rho d,
      RetState damping_state = RetStateInfo rho (PDict d) /\
      dict_get d "iterations" = Some (PInt (Z.of_nat 1)) /\
      dict_get d "residual_norm"
      = Some (PFloat (la_norm demo (vsub e0 (matvec damping e0)))) /\
      dict_get d "solution_time" = Some PElapsed
    else exists rho, RetState damping_state = RetState rho.
Proof.
  apply (X9_iterative_diagnostics demo [2] damping e0 None _default_steadystate_args e0 0 1 []
           (RetState damping_state) []).
  vm_compute. reflexivity.
Defined.

(** ** Solvers that never return the diagnostics *)

Lemma ss_prepare_keeps P A c_op_list kwargs w A' ss_args w' k :
  ss_prepare P A c_op_list kwargs w = (Ok (A', ss_args), w') ->
  k <> "permc_spec"%string -> k <> "weight"%string -> k <> "info"%string ->
  ss_args !! k = option_of kwargs k.
Proof.
  intros (a0 & v & b & Ha0 & _ & _ & _ & H)%ss_prepare_Ok H1 H2 H3. cbv zeta in H.
  rewrite (option_of_Ok _ _ _ Ha0).
  assert ((if b && negb (has_key kwargs "permc_spec")
           then <["permc_spec" := PStr "NATURAL"]> a0 else a0) !! k = a0 !! k) as Ha1.
  { destruct (b && _); [by rewrite lookup_insert_ne | done]. }
  destruct (has_key kwargs "weight").
  - by rewrite H.
  - destruct H as (d & old & x & _ & _ & _ & ->). by rewrite !lookup_insert_ne.
Qed.

Lemma svd_single_no_info P L ss_args w r w' asv :
  ss_args !! "all_states" = Some asv -> truthy asv = Ok false ->
  _steadystate_svd_dense P L ss_args w = (Ok r, w') -> exists rho, r = RetState rho.
Proof.
  intros Has Hb. unfold _steadystate_svd_dense. cbv zeta.
  intros (a1 & w1 & (d & Hd & -> & ->)%info_pop_Ok & H)%bind_Ok.
  apply bind_Ok in H as ([[u s] vh] & w2 & _ & H).
  apply bind_Ok in H as (s0 & w3 & _ & H).
  apply bind_Ok in H as (a2 & w4 & (d2 & Hd2 & -> & ->)%info_set_Ok_eq & H).
  apply bind_Ok in H as (all_states & w5 & (-> & asv' & Has' & Hb')%flag_Ok & H).
  rewrite !lookup_insert_ne in Has' by done.
  assert (all_states = false) as -> by congruence.
  destruct (drop _ vh) as [|row rows]; [done|].
  apply bind_Ok in H as (rho & w6 & _ & [-> _]%ret_Ok). eauto.
Qed.

(** ** A Liouvillian of full rank *)

(** X11.  When no singular value falls under the threshold there is no null
    vector.  Asked for one state, the svd solver then fails with the
    IndexError of the missing column; asked for all states, it returns the
    empty list. *)
Theorem X11_svd_full_rank P L ss_args w d u s0 s vh asv (all_states : bool) riv (ri : bool) :
  ss_args !! "info" = Some (PDict d) ->
  svd P (qdata L) = Ok (u, s0 :: s, vh) ->
  (length vh <= length (filter (fun x => Qcmax q_1em12 (q_1em12 * s0) <= x)%Qc (s0 :: s)))%nat ->
  ss_args !! "all_states" = Some asv -> truthy asv = Ok all_states ->
  ss_args !! "return_info" = Some riv -> truthy riv = Ok ri ->
  _steadystate_svd_dense P L ss_args w
  = (if all_states
     then Ok (if ri
              then RetStatesInfo []
                     (PDict (dict_set (dict_pop d "weight") "solution_time" PElapsed))
              else RetStates [])
     else Err PyIndexError, w).
Proof.
  intros Hd Hsvd Hfull Has Hasb Hri Hrib. unfold _steadystate_svd_dense. cbv zeta.
  assert (info_pop ss_args "weight" w
          = (Ok (<["info" := PDict (dict_pop d "weight")]> ss_args), w)) as Hpop.
  { unfold info_pop, info_of.
    by rewrite (bind_step _ _ _ _ _ (bind_step _ _ _ _ _ (get_run _ _ _ _ Hd))). }
  rewrite (bind_step _ _ _ _ _ Hpop). set (a1 := <["info":=_]> ss_args).
  rewrite Hsvd, bind_lift_Ok. rewrite (bind_step _ _ _ s0 _ eq_refl).
  pose proof (lookup_insert_eq ss_args "info" (PDict (dict_pop d "weight"))) as H1.
  fold a1 in H1.
  rewrite (bind_step _ _ _ _ _ (info_set_run _ _ _ _ _ H1)). set (a2 := <["info":=_]> a1).
  assert (a2 !! "all_states" = Some asv) as Has2
    by (unfold a2, a1; by rewrite !lookup_insert_ne).
  assert (a2 !! "return_info" = Some riv) as Hri2
    by (unfold a2, a1; by rewrite !lookup_insert_ne).
  rewrite (bind_step _ _ _ _ _ (flag_run _ _ _ _ _ Has2 Hasb)).
  rewrite (drop_ge vh) by exact Hfull.
  destruct all_states; [|done]. simpl. rewrite bind_lift_Ok.
  rewrite (bind_step _ _ _ _ _ (flag_run _ _ _ _ _ Hri2 Hrib)).
  destruct ri; [|done].
  assert (a2 !! "info"
          = Some (PDict (dict_set (dict_pop d "weight") "solution_time" PElapsed))) as Hi2
    by apply lookup_insert_eq.
  by rewrite (bind_step _ _ _ _ _ (get_run _ _ _ _ Hi2)).
Qed.

Lemma X11_svd_full_rank_witness :
  _steadystate_svd_dense demo_full_rank L_identity _default_steadystate_args []
  = (if false
     then Ok (if false
              then RetStatesInfo []
                     (PDict (dict_set (dict_pop _empty_info_dict "weight")
                               "solution_time" PElapsed))
              else RetStates [])
     else Err PyIndexError, []).
Proof.
  apply (X11_svd_full_rank demo_full_rank L_identity _default_steadystate_args []
           _empty_info_dict (identity 4) (Q2Qc 1) [Q2Qc 1; Q2Qc 1; Q2Qc 1] (identity 4)
           (PBool false) false (PBool false) false); reflexivity.
Defined.

(** ** Sums over the diagonal places *)

Lemma Csum_add_map {A} (f g : A -> C) l :
  Csum (map (fun k => Cadd (f k) (g k)) l) = Cadd (Csum (map f l)) (Csum (map g l)).
Proof.
  induction l as [|a l IH]; simpl; [by rewrite Cadd_0_l|].
  rewrite IH. apply C_eq; simpl; ring.
Qed.

Lemma Csum_mul_l {A} (x : C) (f : A -> C) l :
  Csum (map (fun k => Cmul x (f k)) l) = Cmul x (Csum (map f l)).
Proof.
  induction l as [|a l IH]; simpl; [apply C_eq; simpl; ring|].
  rewrite IH. apply C_eq; simpl; ring.
Qed.

Lemma Csum_scale_map {A} (x : Qc) (f : A -> C) l :
  Csum (map (fun k => Cscale x (f k)) l) = Cscale x (Csum (map f l)).
Proof.
  induction l as [|a l IH]; simpl; [apply C_eq; simpl; ring|].
  rewrite IH. apply C_eq; simpl; ring.
Qed.

Lemma Csum_conj_map {A} (f : A -> C) l :
  Csum (map (fun k => Cconj (f k)) l) = Cconj (Csum (map f l)).
Proof.
  induction l as [|a l IH]; simpl; [apply C_eq; simpl; ring|].
  rewrite IH. apply C_eq; simpl; ring.
Qed.

Lemma Csum_pick (x : nat -> C) c m :
  c < m -> Csum (map (fun j => if bool_decide (j = c) then x j else C0) (seq 0 m)) = x c.
Proof.
  intros Hc.
  rewrite (map_ext _ (fun j => if bool_decide ((fun k => k) j = c) then x c else C0)).
  - rewrite Csum_single by (rewrite map_id; apply NoDup_seq).
    rewrite bool_decide_eq_true_2; [done|]. rewrite map_id. apply elem_of_seq. lia.
  - intros j. case_bool_decide; by subst.
Qed.

Lemma Csum_select (x : nat -> C) cols m :
  NoDup cols -> Forall (fun c => c < m) cols ->
  Csum (map (fun j => if bool_decide (j ∈ cols) then x j else C0) (seq 0 m))
  = Csum (map x cols).
Proof.
  induction cols as [|c cols IH]; intros Hnd Hlt.
  - rewrite (map_ext _ (fun _ => C0)); [apply Csum_zeros|].
    intros j. rewrite bool_decide_eq_false_2; [done | apply not_elem_of_nil].
  - apply NoDup_cons in Hnd as [Hc Hnd]. apply Forall_cons in Hlt as [Hcm Hlt].
    simpl. rewrite <- (IH Hnd Hlt), <- (Csum_pick x c m Hcm), <- Csum_add_map.
    f_equal. apply map_ext. intros j.
    destruct (decide (j = c)) as [->|Hne].
    + rewrite !bool_decide_eq_true_2 by (done || left).
      rewrite (bool_decide_eq_false_2 (c ∈ cols)) by done. by rewrite Cadd_0_r.
    + rewrite (bool_decide_eq_false_2 (j = c)) by done. rewrite Cadd_0_l.
      rewrite (bool_decide_ext (j ∈ c :: cols) (j ∈ cols)); [done|].
      rewrite elem_of_cons. tauto.
Qed.

(** The product of the row of the trace condition with a vector: the weight
    times the sum of the elements at the diagonal places. *)
Lemma trace_row_dot n w v :
  Csum (map (fun j => Cmul (trace_entry n w j) (vget v j)) (seq 0 (n * n)))
  = Cmul (ofQc w) (Csum (map (fun k => vget v (k * n + k)) (seq 0 n))).
Proof.
  rewrite (map_ext _ (fun j => if bool_decide (j ∈ trace_cols n)
                               then Cmul (ofQc w) (vget v j) else C0)).
  - rewrite Csum_select.
    + unfold trace_cols. rewrite map_map, Csum_mul_l. do 2 f_equal.
      apply map_ext. intros k. f_equal. lia.
    + apply NoDup_trace_cols.
    + unfold trace_cols. apply Forall_forall. intros c (k & -> & Hk%elem_of_seq)%list_elem_of_fmap.
      nia.
  - intros j. unfold trace_entry. case_bool_decide; [done|]. apply C_eq; simpl; ring.
Qed.

Lemma trace_vec2mat v n :
  length v = n * n ->
  trace (vec2mat v) = Csum (map (fun k => vget v (k * n + k)) (seq 0 n)).
Proof.
  intros Hlen. unfold vec2mat. rewrite Hlen, Nat.sqrt_square. apply trace_mk_square.
Qed.

Lemma trace_hermitize_unit v : trace (vec2mat v) = C1 -> trace (hermitize (vec2mat v)) = C1.
Proof.
  unfold vec2mat. rewrite hermitize_mk_square, !trace_mk_square.
  rewrite (Csum_scale_map half
             (fun k => Cadd (vget v (k * Nat.sqrt (length v) + k))
                            (Cconj (vget v (k * Nat.sqrt (length v) + k))))).
  rewrite Csum_add_map, Csum_conj_map. intros ->.
  apply C_eq; apply Qc_is_canon; reflexivity.
Qed.

Lemma Cmul_real_cancel (w : Qc) (S : C) :
  w <> 0%Qc -> Cmul (ofQc w) S = ofQc w -> S = C1.
Proof.
  destruct S as [x y]. intros Hw H.
  pose proof (f_equal re H) as H1. pose proof (f_equal im H) as H2.
  clear H. simpl in H1, H2. unfold C1.
  assert (w * (x - 1) = 0)%Qc as Hx.
  { replace (w * (x - 1))%Qc with ((w * x - 0 * y) - w)%Qc by ring. rewrite H1. ring. }
  assert (w * y = 0)%Qc as Hy.
  { replace (w * y)%Qc with (w * y + 0 * x)%Qc by ring. exact H2. }
  apply Qcmult_integral_l in Hx; [|done]. apply Qcmult_integral_l in Hy; [|done].
  f_equal; [|done]. replace x with ((x - 1) + 1)%Qc by ring. rewrite Hx. ring.
Qed.

(** ** The trace of the state of the dense direct solver *)

Lemma num_Ok ss_args k w x w' :
  num ss_args k w = (Ok x, w') ->
  exists v, ss_args !! k = Some v /\ as_real v = Ok x /\ w' = w.
Proof.
  unfold num. intros (v & w1 & [Hv ->]%get_Ok & [Hx ->]%lift_Ok)%bind_Ok. eauto.
Qed.

Lemma rhs_Ok m w b :
  rhs m w = Ok b -> b = ofQc w :: zeros (m - 1) /\ length b = m /\ 0 < m.
Proof.
  destruct m as [|m]; [done|]. simpl. intros [= <-]. rewrite Nat.sub_0_r.
  split; [done|]. split; [|lia]. simpl. unfold zeros. by rewrite length_replicate.
Qed.

Lemma set_row0_nrows A row A' : set_row0 A row = Ok A' -> nrows A' = nrows A.
Proof.
  unfold set_row0. destruct A as [|r0 rest]; [done|].
  case_bool_decide; [by intros [= <-]|].
  destruct row as [|x [|]]; try done. by intros [= <-].
Qed.

Lemma dense_conditioned_row L wt L' :
  let n := Nat.sqrt (nrows L) in
  ncols L = n * n -> dense_conditioned L wt = Ok L' ->
  exists r0 rest, L = r0 :: rest /\
                  L' = flatten (diag_matrix (vscale wt (ones n))) :: rest.
Proof.
  intros n Hc. unfold dense_conditioned, set_row0. fold n.
  destruct L as [|r0 rest]; [done|]. simpl in Hc.
  rewrite bool_decide_eq_true_2.
  - intros [= <-]. eauto.
  - by rewrite length_flatten_diag, length_vscale_ones.
Qed.

(** The row of the trace condition makes the diagonal places of an exact
    solution add up to one, and the averaging with the conjugate transpose
    keeps that. *)
Lemma direct_dense_unit_trace P L ss_args w r w' wv wt :
  (forall A b v, np_linalg_solve P A b = Ok v -> length v = length b /\ matvec A v = b) ->
  ncols (qdata L) = nrows (qdata L) ->
  ss_args !! "weight" = Some wv -> as_real wv = Ok wt -> wt <> 0%Qc ->
  _steadystate_direct_dense P L ss_args w = (Ok r, w') ->
  all_unit_trace r.
Proof.
  intros Hexact Hsq Hwv Hwt Hw0. unfold _steadystate_direct_dense. cbv zeta.
  set (n := Nat.sqrt (nrows (qdata L))).
  intros (wt1 & w1 & (? & Hv1 & Hx1 & ->)%num_Ok & H)%bind_Ok.
  assert (wt1 = wt) as -> by congruence.
  apply bind_Ok in H as (b & w2 & [Hb ->]%lift_Ok & H).
  apply bind_Ok in H as (wt2 & w3 & (? & Hv2 & Hx2 & ->)%num_Ok & H).
  assert (wt2 = wt) as -> by congruence.
  apply bind_Ok in H as (L' & w4 & [HL' ->]%lift_Ok & H).
  apply bind_Ok in H as (v & w5 & [Hsolve ->]%lift_Ok & H).
  apply bind_Ok in H as (a1 & w6 & _ & H).
  apply bind_Ok in H as (ri & w7 & _ & H).
  apply bind_Ok in H as (a2 & w8 & _ & [-> _]%ret_Ok).
  apply Hexact in Hsolve as [Hlen Hmv].
  apply rhs_Ok in Hb as (-> & Hlenb & Hpos).
  assert (nrows (qdata L) = n * n) as Hrows.
  { pose proof HL' as Hn. unfold dense_conditioned in Hn. apply set_row0_nrows in Hn.
    rewrite <- Hn. unfold nrows. rewrite <- (length_map (fun row => dot row v) L').
    fold (matvec L' v). rewrite Hmv, Hlenb. apply Nat.pow_2_r. }
  apply dense_conditioned_row in HL' as (r0 & rest & HL & ->); [|fold n; congruence].
  fold n in Hmv. simpl in Hmv. injection Hmv as Hdot _.
  unfold dot in Hdot. rewrite length_flatten_diag, length_vscale_ones in Hdot.
  rewrite (map_seq_ext _ (fun j => Cmul (trace_entry n wt j) (vget v j))) in Hdot.
  2:{ intros j Hj. by rewrite dense_trace_row by lia. }
  rewrite trace_row_dot in Hdot. apply Cmul_real_cancel in Hdot; [|done].
  repeat constructor. simpl. apply trace_hermitize_unit.
  rewrite (trace_vec2mat v n); [done|]. rewrite Hlen, Hlenb. apply Nat.pow_2_r.
Qed.

(** X13.  The dense direct solver, with a linear solver that is exact (its
    answer has the length of the right-hand side and solves the system), a
    square Liouvillian and a weight that is not zero: the state returned has
    trace one.  The row of the trace condition makes the diagonal places of
    the solution add up to one, and the averaging with the conjugate
    transpose keeps that. *)
Theorem X13_dense_unit_trace P L ss_args w r w' wv wt :
  (forall A b v, np_linalg_solve P A b = Ok v -> length v = length b /\ matvec A v = b) ->
  ncols (qdata L) = nrows (qdata L) ->
  ss_args !! "weight" = Some wv -> as_real wv = Ok wt -> wt <> 0%Qc ->
  _steadystate_direct_dense P L ss_args w = (Ok r, w') ->
  all_unit_trace r.
Proof. exact (direct_dense_unit_trace P L ss_args w r w' wv wt). Qed.

Lemma demo_solver_exact A b v :
  np_linalg_solve demo A b = Ok v -> length v = length b /\ matvec A v = b.
Proof.
  simpl. case_bool_decide as H; [|done]. destruct H as [-> ->]. intros [= <-].
  split; [reflexivity | compute_done].
Qed.

Lemma X13_dense_unit_trace_witness : all_unit_trace (RetState damping_state).
Proof.
  apply (X13_dense_unit_trace demo L_damping weighted_args [] (RetState damping_state) []
           (PFloat (Q2Qc 1)) (Q2Qc 1)).
  - exact demo_solver_exact.
  - reflexivity.
  - reflexivity.
  - reflexivity.
  - discriminate.
  - vm_compute. reflexivity.
Defined.

(** ** The inverse power method *)

Lemma reorder_rcm_power_keeps P L ss_args k :
  k <> "info"%string ->
  post (fun '(_, _, _, a) => a !! k = ss_args !! k) (reorder_rcm_power P L ss_args).
Proof. intros Hk. unfold reorder_rcm_power. keeps_run. Qed.

Lemma power_liouvillian_keeps P L ss_args k :
  k <> "info"%string ->
  post (fun '(_, _, _, _, a) => a !! k = ss_args !! k)
       (_steadystate_power_liouvillian P L ss_args).
Proof.
  intros Hk. unfold _steadystate_power_liouvillian.
  apply post_bind_lift. intros L1 _.
  eapply post_bind; [by apply reorder_wbm_keeps|]. intros [[L2 perm] a1] H1.
  eapply post_bind; [by apply reorder_rcm_power_keeps|]. intros [[[L3 perm2] rp] a2] H2.
  apply post_ret. congruence.
Qed.

(** A number of passes below [maxiter] is within the budget. *)
Lemma budget_lt (maxiter : Qc) (it : nat) :
  ~ (maxiter <= Q2Qc (inject_Z (Z.of_nat it)))%Qc -> it < budget maxiter.
Proof.
  intros H. apply Qcnot_le_lt in H. unfold Qclt in H. simpl in H.
  rewrite Qred_correct in H. unfold budget.
  pose proof (Qle_ceiling maxiter) as Hc.
  assert (inject_Z (Z.of_nat it) < inject_Z (Qceiling maxiter))%Q as Hlt
    by (eapply Qlt_le_trans; eassumption).
  rewrite <- Zlt_Qlt in Hlt. lia.
Qed.

Lemma unpermute_Ok v rev_perm w v' w' :
  unpermute v rev_perm w = (Ok v', w') -> exists rp, rev_perm = Some rp /\ take_ix v rp = Ok v'.
Proof.
  unfold unpermute. destruct rev_perm as [rp|]; [|done]. intros [H _]%lift_Ok. eauto.
Qed.

Lemma power_normalise_Ok L n v w data w' :
  power_normalise L n v w = (Ok data, w') ->
  let m := prod_dims (qdims L) in
  let t := dot (flatten (identity m)) v in
  issuper L = true /\ m * m = n /\ t <> C0 /\ data = vdivC v t.
Proof.
  unfold power_normalise, trace_row. destruct (issuper L); [|done].
  case_bool_decide as Hm; [|done]. rewrite bind_lift_Ok.
  case_bool_decide as Ht; [done|]. by intros [-> _]%ret_Ok.
Qed.

Lemma power_run :
  _steadystate_power demo L_damping power_args [] = (Ok power_result, [EUseSolver true PNone]).
Proof. vm_compute. reflexivity. Qed.

(** ** The trace of the state of the power method *)

Lemma flatten_identity m : flatten (identity m) = flatten (diag_matrix (vscale 1%Qc (ones m))).
Proof.
  f_equal. unfold identity, diag_matrix. rewrite length_vscale_ones.
  apply mk_matrix_ext. intros i j Hi Hj. case_bool_decide; [|done].
  by rewrite vget_vscale_ones.
Qed.

Lemma vget_vdivC v t i : vget (vdivC v t) i = Cdiv (vget v i) t.
Proof.
  unfold vget, vdivC. rewrite <- (Cdiv_0_l t) at 1.
  apply (map_nth (fun x => Cdiv x t)).
Qed.

Lemma normalised_unit_trace m v :
  let t := dot (flatten (identity m)) v in
  length v = m * m -> t <> C0 -> trace (hermitize (vec2mat (vdivC v t))) = C1.
Proof.
  intros t Hlen Ht. apply trace_hermitize_unit.
  rewrite (trace_vec2mat _ m) by (unfold vdivC; by rewrite length_map).
  rewrite (map_ext _ (fun k => Cdiv (vget v (k * m + k)) t)) by (intros; apply vget_vdivC).
  rewrite <- (map_map (fun k => vget v (k * m + k)) (fun x => Cdiv x t)), Csum_div.
  assert (t = Csum (map (fun k => vget v (k * m + k)) (seq 0 m))) as Hsum.
  { unfold t, dot.
    replace (length (flatten (identity m))) with (m * m)
      by (symmetry; apply length_flatten_mk_matrix).
    rewrite (map_seq_ext _ (fun j => Cmul (trace_entry m 1%Qc j) (vget v j))).
    - rewrite trace_row_dot. apply C_eq; simpl; ring.
    - intros j Hj. by rewrite flatten_identity, dense_trace_row by lia. }
  rewrite <- Hsum. by apply Cdiv_diag.
Qed.

(** ** The sparse pseudo-inverse *)

Lemma sp_sub_projector rho N :
  nrows rho = N -> ncols rho = N -> 0 < N ->
  exists Q, sp_sub (identity (N * N)) (kron_col_row (mat2vec rho) (mat2vec (identity N)))
            = Ok Q.
Proof.
  intros Hr Hc HN. unfold sp_sub, kron_col_row.
  rewrite nrows_identity, ncols_identity, nrows_mk_matrix.
  rewrite ncols_mk_matrix by (rewrite length_mat2vec; nia).
  rewrite !length_mat2vec, nrows_identity, ncols_identity, Hr, Hc.
  rewrite bool_decide_eq_true_2 by done. eauto.
Qed.

(** X15.  The sparse pseudo-inverse with the method 'spsolve' fails with a
    NameError: the branch reads a variable [use_umfpack] that the function
    does not have.  It does so for a Liouvillian and a steady state of the
    right shape, after the projector was built, before any solve. *)
Theorem X15_spsolve_unbound P L rhoss pseudo_args w v :
  let N := prod_dims (qdims L) in
  issuper L = true -> nrows (qdata rhoss) = N -> ncols (qdata rhoss) = N -> 0 < N ->
  pseudo_args !! "use_rcm" = Some v -> truthy v = Ok false ->
  _pseudo_inverse_sparse P L rhoss (PStr "spsolve") pseudo_args w
  = (Err (PyNameError "use_umfpack"), w).
Proof.
  intros N HL Hr Hc HN Hv Hb. unfold _pseudo_inverse_sparse, hilbert_dims. rewrite HL.
  rewrite bind_lift_Ok. cbv zeta. unfold tensor_identity. fold N.
  destruct (sp_sub_projector (qdata rhoss) N Hr Hc HN) as [Q ->].
  rewrite bind_lift_Ok.
  rewrite (bind_step _ _ _ _ _ (flag_run _ _ _ _ _ Hv Hb)).
  reflexivity.
Qed.

Lemma X15_spsolve_unbound_witness :
  _pseudo_inverse_sparse demo L_damping ground (PStr "spsolve") _default_steadystate_args []
  = (Err (PyNameError "use_umfpack"), []).
Proof.
  apply (X15_spsolve_unbound demo L_damping ground _default_steadystate_args []
           (PBool false)); try reflexivity.
  simpl. lia.
Defined.

(** ** The preconditioner *)

(** X16.  [build_preconditioner] knows two methods, 'iterative' (its
    default) and 'power'.  Any other value, the names that [steadystate]
    uses for its iterative methods among them, is refused with the error of
    the invalid preconditioning method, after the weight was computed. *)
Theorem X16_preconditioner_method P A c_op_list kwargs w a0 v b method x d :
  issuper A = true ->
  apply_kwargs kwargs (<["method" := PStr "iterative"]> _default_steadystate_args) = Ok a0 ->
  a0 !! "use_rcm" = Some v -> truthy v = Ok b ->
  a0 !! "method" = Some method ->
  is_str method "iterative" = false -> is_str method "power" = false ->
  auto_weight P A = Ok x -> a0 !! "info" = Some (PDict d) ->
  build_preconditioner P A c_op_list kwargs w
  = (Err (ConfigurationError "Invalid preconditioning method."), w).
Proof.
  intros HA Ha0 Hv Hb Hm Hit Hpow Hx Hd. unfold build_preconditioner.
  rewrite Ha0, bind_lift_Ok.
  rewrite (bind_step _ _ _ _ _ (natural_if_rcm_run kwargs _ _ _ w Hv Hb)).
  set (a1 := if b && _ then _ else a0).
  assert (a1 !! "method" = Some method) as Hm1
    by (unfold a1; destruct (b && _); by rewrite ?lookup_insert_ne).
  assert (a1 !! "info" = Some (PDict d)) as Hd1
    by (unfold a1; destruct (b && _); by rewrite ?lookup_insert_ne).
  assert (_steadystate_setup P A c_op_list w = (Ok A, w)) as Hsetup.
  { unfold _steadystate_setup. by rewrite (issuper_not_oper A HA), HA. }
  rewrite (bind_step _ _ _ _ _ Hsetup).
  assert (exists a2, (if negb (has_key kwargs "weight")
                      then let* w0 := lift (auto_weight P A) in
                           info_set (<["weight" := PFloat w0]> a1) "weight" (PFloat w0)
                      else ret a1) w = (Ok a2, w) /\ a2 !! "method" = Some method)
    as (a2 & Hstep & Hm2).
  { destruct (has_key kwargs "weight"); simpl.
    - by exists a1.
    - eexists. split.
      + rewrite Hx, bind_lift_Ok. apply (info_set_run _ d). by rewrite lookup_insert_ne.
      + by rewrite !lookup_insert_ne. }
  rewrite (bind_step _ _ _ _ _ Hstep). cbv zeta.
  rewrite (bind_step _ _ _ _ _ (get_run _ _ _ _ Hm2)).
  by rewrite Hit, Hpow.
Qed.

Lemma X16_preconditioner_method_witness :
  build_preconditioner demo L_damping [] [("method"%string, PStr "iterative-gmres")] []
  = (Err (ConfigurationError "Invalid preconditioning method."), []).
Proof.
  eapply (X16_preconditioner_method demo L_damping []
            [("method"%string, PStr "iterative-gmres")] [] _ (PBool false) false
            (PStr "iterative-gmres") (Q2Qc 1) _empty_info_dict); reflexivity.
Defined.

(** X17.  [_iterative_precondition] has two outcomes and leaves no effect:
    it returns the linear operator that applies the solve of the incomplete
    factorization that [spilu] computed, or it fails with the preconditioner
    error, whatever went wrong inside.  It never returns [None], so the
    fallback of its callers, which would warn and go on without a
    preconditioner, is never taken. *)
Theorem X17_precondition_outcomes P A n ss_args w res w' :
  _iterative_precondition P A n ss_args w = (res, w') ->
  w' = w /\
  match res with
  | Ok (m, _) =>
      is_none m = false /\
      exists ilu permc drop_tol thresh fill milu,
        spilu P A permc drop_tol thresh fill milu = Ok ilu /\ m = linear_operator ilu
  | Err e => e = PreconditionerError
  end.
Proof.
  intros H. split; [by eapply silent_iterative_precondition|].
  destruct res as [[m a]|e].
  - apply iterative_precondition_Ok in H as (ilu & ? & ? & ? & ? & ? & Hilu & ->).
    split; [done|]. eauto 10.
  - unfold _iterative_precondition, try_reraise in H.
    destruct (bind _ _ w) as [[?|?] ?]; [done|]. by injection H as <- _.
Qed.

Lemma X17_precondition_outcomes_witness :
  [] = ([] : list effect) /\ PreconditionerError = PreconditionerError.
Proof.
  apply (X17_precondition_outcomes demo damping 2 _default_steadystate_args []
           (Err PreconditionerError) []).
  reflexivity.
Defined.

(** ** The deprecated entry point *)

Lemma apply_kwargs_steady maxiter tol use_umfpack use_precond :
  exists a0,
    apply_kwargs [("maxiter", maxiter); ("tol", tol); ("use_umfpack", use_umfpack);
                  ("use_precond", use_precond)]%string _default_steadystate_args = Ok a0 /\
    a0 !! "use_rcm" = Some (PBool false).
Proof. eexists. split; reflexivity. Qed.

Lemma invalid_input_run P A c_op_list kwargs w ss_args v b :
  apply_kwargs kwargs _default_steadystate_args = Ok ss_args ->
  ss_args !! "use_rcm" = Some v -> truthy v = Ok b ->
  isoper A = true -> c_op_list = [] ->
  steadystate P A c_op_list kwargs w
  = (Err (InvalidInputError "non-dissipative system (no collapse operators given)"), w).
Proof.
  intros Hk Hv Hb HA ->. unfold steadystate, ss_prepare. rewrite Hk.
  apply bind_Err. rewrite bind_lift_Ok.
  rewrite (bind_step _ _ _ _ _ (natural_if_rcm_run kwargs _ _ _ w Hv Hb)).
  apply bind_Err. unfold _steadystate_setup. by rewrite HA.
Qed.

(** X18.  [steady] warns that it is deprecated before anything else.  Of its
    arguments, [itertol] and [method] play no role: the call goes to
    [steadystate] with the default method.  No collapse operators are passed
    on, so that a Hamiltonian is always refused. *)
Theorem X18_steady P L maxiter tol itertol method use_umfpack use_precond w r w' :
  steady P L maxiter tol itertol method use_umfpack use_precond w = (r, w') ->
  let warned := w ++ [EWarn "steady has been deprecated, use steadystate instead"] in
  (exists es, w' = warned ++ es) /\
  (forall itertol' method',
     steady P L maxiter tol itertol' method' use_umfpack use_precond w = (r, w')) /\
  (isoper L = true ->
   r = Err (InvalidInputError "non-dissipative system (no collapse operators given)") /\
   w' = warned).
Proof.
  intros H warned. unfold steady in H |- *. split; [|split].
  - unfold bind at 1 in H. simpl in H. fold warned in H.
    destruct (steadystate P L [] _ warned) as [r0 w0] eqn:E. injection H as <- <-.
    pose proof E as Hpre. unfold steadystate, bind in Hpre.
    destruct (ss_prepare P L [] _ warned) as [[[A' a]|e] w1] eqn:E1;
      apply prepare_effects in E1.
    + apply at_most_dispatch in Hpre.
      destruct E1 as [->|(-> & _)], Hpre as [->|(e & _ & ->)].
      * exists []. by rewrite app_nil_r.
      * by exists [e].
      * by exists [EBuildLiouvillian].
      * exists [EBuildLiouvillian; e]. by rewrite <- app_assoc.
    + injection Hpre as _ <-. destruct E1 as [->|(-> & _)].
      * exists []. by rewrite app_nil_r.
      * by exists [EBuildLiouvillian].
  - intros _ _. exact H.
  - intros HL. unfold bind at 1 in H. simpl in H. fold warned in H.
    destruct (apply_kwargs_steady maxiter tol use_umfpack use_precond) as (a0 & Ha0 & Hrcm).
    rewrite (invalid_input_run P L [] _ warned a0 (PBool false) false Ha0 Hrcm eq_refl HL eq_refl)
      in H.
    by injection H as <- <-.
Qed.

Lemma X18_steady_witness :
  let warned := [] ++ [EWarn "steady has been deprecated, use steadystate instead"] in
  (exists es, warned = warned ++ es) /\
  (forall itertol' method',
     steady demo sigma_z (PInt 10) (PFloat q_1em12) itertol' method' (PBool false) (PBool false) []
     = (Err (InvalidInputError "non-dissipative system (no collapse operators given)"),
        warned)) /\
  (isoper sigma_z = true ->
   Err (A:=ss_ret) (InvalidInputError "non-dissipative system (no collapse operators given)")
   = Err (InvalidInputError "non-dissipative system (no collapse operators given)") /\
   warned = warned).
Proof.
  apply (X18_steady demo sigma_z (PInt 10) (PFloat q_1em12) (PFloat q_1em15) (PStr "solve")
           (PBool false) (PBool false) []).
  reflexivity.
Defined.

(** ** A Liouvillian without entries *)

(** X19.  For a Liouvillian without stored entries the weight cannot be
    derived: a call that does not name [weight] fails with the ValueError of
    the maximum of an empty array, whatever the method, and before any
    solver is chosen. *)
Theorem X19_no_stored_entries P A c_op_list kwargs w a0 v b d old :
  issuper A = true -> stored (qdata A) = [] ->
  has_key kwargs "weight" = false ->
  apply_kwargs kwargs _default_steadystate_args = Ok a0 ->
  a0 !! "use_rcm" = Some v -> truthy v = Ok b ->
  a0 !! "info" = Some (PDict d) -> dict_get d "weight" = Some old ->
  steadystate P A c_op_list kwargs w
  = (Err (PyValueError "zero-size array to reduction operation maximum"), w).
Proof.
  intros HA Hstored Hkey Ha0 Hv Hb Hd Hold. unfold steadystate, ss_prepare.
  apply bind_Err. rewrite Ha0, bind_lift_Ok.
  rewrite (bind_step _ _ _ _ _ (natural_if_rcm_run kwargs _ _ _ w Hv Hb)).
  set (a1 := if b && _ then _ else a0).
  assert (a1 !! "info" = Some (PDict d)) as Hd1
    by (unfold a1; destruct (b && _); by rewrite ?lookup_insert_ne).
  assert (_steadystate_setup P A c_op_list w = (Ok A, w)) as Hsetup.
  { unfold _steadystate_setup. by rewrite (issuper_not_oper A HA), HA. }
  rewrite (bind_step _ _ _ _ _ Hsetup). apply bind_Err.
  rewrite Hkey. simpl.
  rewrite (bind_step _ _ _ _ _ (info_get_run _ _ _ _ _ Hd1 Hold)).
  apply bind_Err. unfold auto_weight. by rewrite Hstored.
Qed.

Lemma X19_no_stored_entries_witness :
  steadystate demo L_zero [] [("method"%string, PStr "eigen")] []
  = (Err (PyValueError "zero-size array to reduction operation maximum"), []).
Proof.
  eapply (X19_no_stored_entries demo L_zero [] [("method"%string, PStr "eigen")] [] _
            (PBool false) false _empty_info_dict PNone); reflexivity.
Defined.

(** ** The diagnostics *)

Lemma info_set_entry ss_args k v :
  post (fun a => forall k', info_entry a k'
                            = if bool_decide (k' = k) then Some v else info_entry ss_args k')
       (info_set ss_args k v).
Proof.
  intros w a w' (d & Hd & -> & ->)%info_set_Ok_eq k'. unfold info_entry.
  rewrite lookup_insert_eq, Hd. apply dict_get_set.
Qed.

Lemma info_set_entry_ne ss_args k v k' :
  k' <> k -> post (fun a => info_entry a k' = info_entry ss_args k') (info_set ss_args k v).
Proof.
  intros Hk. eapply post_weaken; [apply info_set_entry|].
  intros a H. cbv beta in H. by rewrite H, bool_decide_eq_false_2.
Qed.

Lemma info_set_entry_eq ss_args k v :
  post (fun a => info_entry a k = Some v) (info_set ss_args k v).
Proof.
  eapply post_weaken; [apply info_set_entry|].
  intros a H. cbv beta in H. by rewrite H, bool_decide_eq_true_2.
Qed.

Lemma info_perm_append_entry ss_args name k :
  k <> "perm"%string ->
  post (fun a => info_entry a k = info_entry ss_args k) (info_perm_append ss_args name).
Proof.
  intros Hk. unfold info_perm_append. post_run. by apply info_set_entry_ne.
Qed.

(** One step of a computation that leaves an entry of the diagnostics. *)
Ltac entry_step :=
  lazymatch goal with
  | |- post _ (bind (info_set _ _ _) _) =>
      eapply post_bind; [apply info_set_entry_ne; done | intros ? ?]
  | |- post _ (bind (info_perm_append _ _) _) =>
      eapply post_bind; [apply info_perm_append_entry; done | intros ? ?]
  | |- post _ (info_set _ _ _) =>
      eapply post_weaken; [apply info_set_entry_ne; done | intros ? ?]
  | |- post _ (bind (lift _) _) => apply post_bind_lift; intros
  | |- post _ (bind _ _) => apply post_bind_any; intros
  | |- post _ (ret _) => apply post_ret
  | |- post _ (raise _) => apply post_raise
  | |- post _ (match ?x with _ => _ end) => destruct x
  end.

Ltac entry_run := repeat entry_step; try congruence.

Lemma reorder_wbm_entry P L ss_args k :
  k <> "perm"%string -> k <> "wbm_time"%string ->
  post (fun '(_, _, a) => info_entry a k = info_entry ss_args k) (reorder_wbm P L ss_args).
Proof. intros H1 H2. unfold reorder_wbm. entry_run. Qed.

Lemma reorder_rcm_entry P L ss_args k :
  k <> "perm"%string -> k <> "rcm_time"%string ->
  post (fun '(_, _, _, a) => info_entry a k = info_entry ss_args k) (reorder_rcm P L ss_args).
Proof. intros H1 H2. unfold reorder_rcm. entry_run. Qed.

Lemma reorder_rcm_power_entry P L ss_args k :
  k <> "perm"%string -> k <> "rcm_time"%string ->
  post (fun '(_, _, _, a) => info_entry a k = info_entry ss_args k)
       (reorder_rcm_power P L ss_args).
Proof. intros H1 H2. unfold reorder_rcm_power. entry_run. Qed.

Lemma LU_liouvillian_entry P L ss_args k :
  k <> "perm"%string -> k <> "wbm_time"%string -> k <> "rcm_time"%string ->
  post (fun '(_, _, _, _, a) => info_entry a k = info_entry ss_args k)
       (_steadystate_LU_liouvillian P L ss_args).
Proof.
  intros H1 H2 H3. unfold _steadystate_LU_liouvillian. cbv zeta.
  apply post_bind_any. intros wt. apply post_bind_lift. intros L1 _.
  eapply post_bind; [by apply reorder_wbm_entry|]. intros [[L2 perm] a1] Ha1.
  eapply post_bind; [by apply reorder_rcm_entry|]. intros [[[L3 perm2] rp] a2] Ha2.
  apply post_ret. congruence.
Qed.

Lemma power_liouvillian_entry P L ss_args k :
  k <> "perm"%string -> k <> "wbm_time"%string -> k <> "rcm_time"%string ->
  post (fun '(_, _, _, _, a) => info_entry a k = info_entry ss_args k)
       (_steadystate_power_liouvillian P L ss_args).
Proof.
  intros H1 H2 H3. unfold _steadystate_power_liouvillian.
  apply post_bind_lift. intros L1 _.
  eapply post_bind; [by apply reorder_wbm_entry|]. intros [[L2 perm] a1] Ha1.
  eapply post_bind; [by apply reorder_rcm_power_entry|]. intros [[[L3 perm2] rp] a2] Ha2.
  apply post_ret. congruence.
Qed.

(** The five parameters, as they stand in the options, are written to the
    diagnostics; the other entries and the options stay. *)
Lemma record_lu_options_entries ss_args :
  post (fun a =>
          (forall k, k ∈ lu_option_names -> is_Some (ss_args !! k) /\
                                            info_entry a k = ss_args !! k) /\
          (forall k, k ∉ lu_option_names -> info_entry a k = info_entry ss_args k) /\
          (forall k, k <> "info"%string -> a !! k = ss_args !! k))
       (record_lu_options ss_args).
Proof.
  intros w a w'. unfold record_lu_options.
  intros (x1 & ? & [Hx1 ->]%get_Ok & H)%bind_Ok.
  apply bind_Ok in H as (a1 & ? & H1 & H).
  pose proof (info_set_entry _ _ _ _ _ _ H1) as E1. cbv beta in E1.
  pose proof (fun k => info_set_Ok _ _ _ _ _ _ k H1) as K1.
  apply info_set_Ok_eq in H1 as (_ & _ & _ & ->).
  apply bind_Ok in H as (x2 & ? & [Hx2 ->]%get_Ok & H).
  apply bind_Ok in H as (a2 & ? & H2 & H).
  pose proof (info_set_entry _ _ _ _ _ _ H2) as E2. cbv beta in E2.
  pose proof (fun k => info_set_Ok _ _ _ _ _ _ k H2) as K2.
  apply info_set_Ok_eq in H2 as (_ & _ & _ & ->).
  apply bind_Ok in H as (x3 & ? & [Hx3 ->]%get_Ok & H).
  apply bind_Ok in H as (a3 & ? & H3 & H).
  pose proof (info_set_entry _ _ _ _ _ _ H3) as E3. cbv beta in E3.
  pose proof (fun k => info_set_Ok _ _ _ _ _ _ k H3) as K3.
  apply info_set_Ok_eq in H3 as (_ & _ & _ & ->).
  apply bind_Ok in H as (x4 & ? & [Hx4 ->]%get_Ok & H).
  apply bind_Ok in H as (a4 & ? & H4 & H).
  pose proof (info_set_entry _ _ _ _ _ _ H4) as E4. cbv beta in E4.
  pose proof (fun k => info_set_Ok _ _ _ _ _ _ k H4) as K4.
  apply info_set_Ok_eq in H4 as (_ & _ & _ & ->).
  apply bind_Ok in H as (x5 & ? & [Hx5 ->]%get_Ok & H).
  pose proof (info_set_entry _ _ _ _ _ _ H) as E5. cbv beta in E5.
  pose proof (fun k => info_set_Ok _ _ _ _ _ _ k H) as K5.
  rewrite K4, K3, K2, K1 in Hx5 by done.
  rewrite K3, K2, K1 in Hx4 by done.
  rewrite K2, K1 in Hx3 by done.
  rewrite K1 in Hx2 by done.
  split; [|split].
  - intros k Hk. unfold lu_option_names in Hk.
    rewrite E5, E4, E3, E2, E1.
    repeat (apply elem_of_cons in Hk as [->|Hk]; [split; [by eexists|]; simpl; congruence|]).
    by apply elem_of_nil in Hk.
  - intros k Hk. unfold lu_option_names in Hk.
    rewrite E5, E4, E3, E2, E1.
    repeat (rewrite bool_decide_eq_false_2;
            [|intros ->; apply Hk; repeat first [left; done | right]]).
    done.
  - intros k Hk. by rewrite K5, K4, K3, K2, K1.
Qed.

Lemma direct_sparse_prepare_entries P L ss_args :
  post (fun '(_, _, _, a) =>
          (forall k, k ∈ lu_option_names -> is_Some (ss_args !! k) /\
                                            info_entry a k = ss_args !! k) /\
          info_entry a "weight" = info_entry ss_args "weight" /\
          a !! "return_info" = ss_args !! "return_info")
       (direct_sparse_prepare P L ss_args).
Proof.
  unfold direct_sparse_prepare. cbv zeta.
  apply post_bind_any. intros wt. apply post_bind_lift. intros b0 _.
  eapply (post_bind (fun '(_, _, _, _, a) =>
                       info_entry a "weight" = info_entry ss_args "weight" /\
                       forall k, k <> "info"%string -> a !! k = ss_args !! k)).
  { intros w r w' Hrun. destruct r as [[[[L' perm] perm2] rp] a]. split.
    - by apply (LU_liouvillian_entry P L ss_args "weight" ltac:(done) ltac:(done) ltac:(done)
                  _ _ _ Hrun).
    - intros k Hk. by apply (LU_liouvillian_keeps P L ss_args k Hk _ _ _ Hrun). }
  intros [[[[L' perm] perm2] rp] a] [Hw Hk].
  apply post_bind_any. intros b. apply post_bind_any. intros umf.
  apply post_bind_any. intros [].
  eapply post_bind; [apply record_lu_options_entries|].
  intros a' (H5 & Hother & Hkeep). apply post_ret.
  split; [|split].
  - intros k Hin. destruct (H5 k Hin) as [Hs He].
    assert (k <> "info"%string) as Hne.
    { intros ->. unfold lu_option_names in Hin.
      repeat (apply elem_of_cons in Hin as [?|Hin]; [done|]). by apply elem_of_nil in Hin. }
    rewrite <- (Hk k Hne). by split.
  - rewrite Hother; [done|]. unfold lu_option_names. intros Hin.
    repeat (apply elem_of_cons in Hin as [?|Hin]; [done|]). by apply elem_of_nil in Hin.
  - by rewrite Hkeep, Hk.
Qed.

Lemma direct_sparse_solve_entries P L b ss_args :
  post (fun '(_, a) =>
          (forall k, k ∉ ["solution_time"; "l_nnz"; "u_nnz"; "lu_fill_factor"]%string ->
                     info_entry a k = info_entry ss_args k) /\
          info_entry a "solution_time" = Some PElapsed /\
          a !! "return_info" = ss_args !! "return_info")
       (direct_sparse_solve P L b ss_args).
Proof.
  assert (forall k : string,
            k ∉ ["solution_time"; "l_nnz"; "u_nnz"; "lu_fill_factor"]%string ->
            k <> "solution_time"%string /\ k <> "l_nnz"%string /\ k <> "u_nnz"%string /\
            k <> "lu_fill_factor"%string) as Hnot.
  { intros k Hk. repeat split; intros ->; apply Hk; repeat first [left; done | right]. }
  assert (forall k : string,
            k ∉ ["solution_time"; "l_nnz"; "u_nnz"; "lu_fill_factor"]%string ->
            post (fun '(_, a) => info_entry a k = info_entry ss_args k)
                 (direct_sparse_solve P L b ss_args)) as Hkeep.
  { intros k (H1 & H2 & H3 & H4)%Hnot. unfold direct_sparse_solve. entry_run. }
  assert (post (fun '(_, a) => info_entry a "solution_time" = Some PElapsed)
               (direct_sparse_solve P L b ss_args)) as Htime.
  { unfold direct_sparse_solve.
    apply post_bind_any. intros umf. destruct (negb umf).
    - do 5 (apply post_bind_any; intros).
      eapply post_bind; [apply info_set_entry_eq|]. intros args1 Hargs1.
      assert ("solution_time" <> "l_nnz" /\ "solution_time" <> "u_nnz" /\
              "solution_time" <> "lu_fill_factor")%string as (? & ? & ?) by done.
      entry_run.
    - apply post_bind_any; intros.
      eapply post_bind; [apply info_set_entry_eq|]. intros args1 Hargs1.
      by apply post_ret. }
  assert (post (fun '(_, a) => a !! "return_info" = ss_args !! "return_info")
               (direct_sparse_solve P L b ss_args)) as Hri.
  { assert ("return_info" <> "info")%string by done.
    unfold direct_sparse_solve. keeps_run. }
  intros w [v a] w' Hrun. split; [|split].
  - intros k Hk. exact (Hkeep k Hk _ _ _ Hrun).
  - exact (Htime _ _ _ Hrun).
  - exact (Hri _ _ _ Hrun).
Qed.

Lemma info_entry_get ss_args info k :
  ss_args !! "info" = Some info -> info_entry ss_args k = entry info k.
Proof. unfold info_entry. by intros ->. Qed.

(** X20.  The diagnostics that the sparse direct solver returns.  The five
    solver parameters stand in them as they stood in the options when the
    solver was entered, the column ordering that the preparation may have
    set to 'NATURAL' among them; the solution time and the residual norm are
    set; the weight is the one that the options' diagnostics held. *)
Theorem X20_direct_sparse_diagnostics P L ss_args w rho info w' :
  _steadystate_direct_sparse P L ss_args w = (Ok (RetStateInfo rho info), w') ->
  (forall k, k ∈ lu_option_names -> is_Some (ss_args !! k) /\ entry info k = ss_args !! k) /\
  entry info "solution_time" = Some PElapsed /\
  (exists x, entry info "residual_norm" = Some (PFloat x)) /\
  entry info "weight" = info_entry ss_args "weight".
Proof.
  unfold _steadystate_direct_sparse.
  intros ([[[L' b] rp] a1] & w1 & Hprep & H)%bind_Ok.
  apply direct_sparse_prepare_entries in Hprep as (H5 & Hw1 & Hri1).
  apply bind_Ok in H as ([v a2] & w2 & Hsolve & H).
  apply direct_sparse_solve_entries in Hsolve as (Hk2 & Ht2 & Hri2).
  unfold direct_sparse_finish in H.
  apply bind_Ok in H as (ri & w3 & (-> & riv & Hriv & Hri)%flag_Ok & H).
  apply bind_Ok in H as (a3 & w4 & H3 & H).
  apply bind_Ok in H as (umf & w5 & _ & H).
  apply bind_Ok in H as (use_rcm & w6 & _ & H).
  apply bind_Ok in H as (v' & w7 & _ & H).
  apply return_state_Ok_eq in H as (riv' & ri' & Hriv' & Hri' & _ & H).
  destruct ri.
  - pose proof (info_set_entry _ _ _ _ _ _ H3) as E3. cbv beta in E3.
    destruct ri'; [|done]. destruct H as (info' & Hinfo & [= _ <-]).
    rewrite <- !(info_entry_get a3 info _ Hinfo), !E3.
    assert (forall k : string, k ∈ lu_option_names ->
              (k ∉ ["solution_time"; "l_nnz"; "u_nnz"; "lu_fill_factor"]%string) /\
              k <> "residual_norm"%string) as Hfive.
    { intros k Hin. unfold lu_option_names in Hin.
      repeat (apply elem_of_cons in Hin as [->|Hin];
              [split; [|done]; intros Hx;
               repeat (apply elem_of_cons in Hx as [?|Hx]; [done|]); by apply elem_of_nil in Hx|]).
      by apply elem_of_nil in Hin. }
    split; [|split; [|split]].
    + intros k Hin. destruct (Hfive k Hin) as [Hn1 Hn2]. destruct (H5 k Hin) as [Hs He].
      split; [done|]. rewrite <- (info_entry_get a3 info _ Hinfo), E3.
      rewrite bool_decide_eq_false_2 by done. by rewrite Hk2.
    + by rewrite bool_decide_eq_false_2.
    + rewrite bool_decide_eq_true_2 by done. eauto.
    + rewrite bool_decide_eq_false_2 by done. rewrite Hk2; [done|].
      intros Hx. repeat (apply elem_of_cons in Hx as [?|Hx]; [done|]). by apply elem_of_nil in Hx.
  - apply ret_Ok in H3 as [-> ->].
    assert (ri' = false) as -> by congruence. done.
Qed.

Lemma direct_info_run :
  _steadystate_direct_sparse demo_direct L_damping direct_info_args []
  = (Ok (RetStateInfo damping_state direct_info), [EUseSolver true (PBool false)]).
Proof. vm_compute. reflexivity. Qed.

Lemma X20_direct_sparse_diagnostics_witness :
  (forall k, k ∈ lu_option_names ->
             is_Some (direct_info_args !! k) /\ entry direct_info k = direct_info_args !! k) /\
  entry direct_info "solution_time" = Some PElapsed /\
  (exists x, entry direct_info "residual_norm" = Some (PFloat x)) /\
  entry direct_info "weight" = info_entry direct_info_args "weight".
Proof.
  exact (X20_direct_sparse_diagnostics demo_direct L_damping direct_info_args []
           damping_state direct_info _ direct_info_run).
Defined.

(** ** Solvers whose diagnostics have no weight *)

Lemma dict_get_absent d k : k ∉ d.*1 -> dict_get d k = None.
Proof.
  induction d as [|[k0 v0] d IH]; simpl; [done|].
  intros [Hne Hk]%not_elem_of_cons. rewrite bool_decide_eq_false_2 by done. by apply IH.
Qed.

Lemma dict_get_pop d k k' :
  NoDup d.*1 ->
  dict_get (dict_pop d k) k' = if bool_decide (k' = k) then None else dict_get d k'.
Proof.
  induction d as [|[k0 v0] d IH]; simpl.
  - intros _. by case_bool_decide.
  - intros [Hk0 Hnd]%NoDup_cons. destruct (decide (k = k0)) as [->|Hne].
    + rewrite (bool_decide_eq_true_2 (k0 = k0)) by done.
      case_bool_decide as Hk'; [subst; by apply dict_get_absent | done].
    + rewrite (bool_decide_eq_false_2 (k = k0)) by done. simpl. rewrite (IH Hnd).
      repeat case_bool_decide; congruence.
Qed.

Lemma info_pop_entry ss_args d k :
  ss_args !! "info" = Some (PDict d) -> NoDup d.*1 ->
  post (fun a => info_entry a k = None) (info_pop ss_args k).
Proof.
  intros Hd Hnd w a w' (d' & Hd' & -> & _)%info_pop_Ok.
  assert (d' = d) as -> by congruence.
  unfold info_entry. rewrite lookup_insert_eq. simpl.
  by rewrite dict_get_pop, bool_decide_eq_true_2.
Qed.

Lemma get_post ss_args k : post (fun v => ss_args !! k = Some v) (get ss_args k).
Proof. intros w v w' Hrun. apply get_Ok in Hrun as [H _]. exact H. Qed.

Lemma post_bind_ret {A B} (Q : B -> Prop) (a : A) (f : A -> M B) :
  post Q (f a) -> post Q (bind (ret a) f).
Proof. intros H w b w' Hrun. exact (H w b w' Hrun). Qed.

Lemma eigen_reorder_entry P L ss_args k :
  k <> "perm"%string ->
  post (fun '(_, _, a) => info_entry a k = info_entry ss_args k) (eigen_reorder P L ss_args).
Proof. intros Hk. unfold eigen_reorder. entry_run. Qed.

Lemma record_lu_options_entry ss_args k :
  k ∉ lu_option_names ->
  post (fun a => info_entry a k = info_entry ss_args k) (record_lu_options ss_args).
Proof.
  intros Hk. eapply post_weaken; [apply record_lu_options_entries|].
  intros a (_ & H & _). by apply H.
Qed.

Lemma not_lu_option_weight : "weight"%string ∉ lu_option_names.
Proof.
  unfold lu_option_names. intros Hin.
  repeat (apply elem_of_cons in Hin as [?|Hin]; [done|]). by apply elem_of_nil in Hin.
Qed.

Lemma iterative_precondition_weight P A n ss_args :
  post (fun '(_, a) => info_entry a "weight" = info_entry ss_args "weight")
       (_iterative_precondition P A n ss_args).
Proof.
  unfold _iterative_precondition. apply post_try_reraise.
  do 5 (apply post_bind_any; intros). apply post_bind_lift. intros ilu _.
  eapply post_bind; [apply (record_lu_options_entry _ "weight"), not_lu_option_weight|].
  intros args1 Hargs1.
  assert ("weight" <> "precond_time" /\ "weight" <> "l_nnz" /\ "weight" <> "u_nnz" /\
          "weight" <> "ilu_fill_factor" /\ "weight" <> "ilu_condest")%string
    as (? & ? & ? & ? & ?) by done.
  entry_run.
Qed.

Lemma precondition_if_asked_weight P A n applicable ss_args :
  post (fun a => info_entry a "weight" = info_entry ss_args "weight")
       (precondition_if_asked P A n applicable ss_args).
Proof.
  unfold precondition_if_asked.
  do 2 (apply post_bind_any; intros).
  destruct (_ && _); [|by apply post_ret].
  eapply post_bind; [apply iterative_precondition_weight|]. intros [m' args1] Hargs1.
  cbv zeta. assert (info_entry (<["M" := m']> args1) "weight" = info_entry ss_args "weight").
  { unfold info_entry in *. by rewrite lookup_insert_ne. }
  destruct (is_none m'); post_run; done.
Qed.

(** The end of the three solvers: the diagnostics returned are those of the
    options. *)
Ltac weight_end :=
  lazymatch goal with
  | |- post _ (bind (get ?a "info") _) =>
      let Hri := fresh "Hri" in
      eapply post_bind; [apply get_post | intros ? ?]; apply post_ret;
      intros ? Hri; simpl in Hri; injection Hri as <-; cbv beta in *;
      erewrite <- info_entry_get by eassumption; congruence
  | |- post _ (ret _) =>
      let Hri := fresh "Hri" in
      apply post_ret; intros ? Hri; simpl in Hri; discriminate Hri
  end.

Ltac weight_step :=
  lazymatch goal with
  | |- post _ (bind (get _ "info") _) => fail
  | |- post _ (bind (info_set _ _ _) _) =>
      eapply post_bind; [apply (info_set_entry_ne _ _ _ "weight"); done | intros ? ?]
  | |- post _ (bind (if ?b then _ else _) _) => destruct b
  | |- post _ (bind (ret _) _) => apply post_bind_ret
  | |- post _ (bind (lift _) _) => apply post_bind_lift; intros
  | |- post _ (bind _ _) => apply post_bind_any; intros
  | |- post _ (raise _) => apply post_raise
  | |- post _ (match ?x with _ => _ end) => destruct x
  end.

Lemma eigen_no_weight P L ss_args d :
  ss_args !! "info" = Some (PDict d) -> NoDup d.*1 ->
  post (fun r => forall info, ret_info r = Some info -> entry info "weight" = None)
       (_steadystate_eigen P L ss_args).
Proof.
  intros Hd Hnd. unfold _steadystate_eigen. cbv zeta.
  eapply post_bind; [by eapply info_pop_entry|]. intros args0 Hargs0.
  eapply post_bind; [by apply (eigen_reorder_entry _ _ _ "weight")|].
  intros [[L' rp] args1] Hargs1.
  repeat weight_step; weight_end.
Qed.

Lemma svd_no_weight P L ss_args d :
  ss_args !! "info" = Some (PDict d) -> NoDup d.*1 ->
  post (fun r => forall info, ret_info r = Some info -> entry info "weight" = None)
       (_steadystate_svd_dense P L ss_args).
Proof.
  intros Hd Hnd. unfold _steadystate_svd_dense. cbv zeta.
  eapply post_bind; [by eapply info_pop_entry|]. intros args0 Hargs0.
  repeat weight_step; weight_end.
Qed.

Lemma return_state_info data dims ss_args v :
  info_entry ss_args "weight" = v ->
  post (fun r => forall info, ret_info r = Some info -> entry info "weight" = v)
       (return_state data dims ss_args).
Proof.
  intros Hv. unfold return_state. repeat weight_step; weight_end.
Qed.

Lemma power_no_weight P L ss_args d :
  ss_args !! "info" = Some (PDict d) -> NoDup d.*1 ->
  post (fun r => forall info, ret_info r = Some info -> entry info "weight" = None)
       (_steadystate_power P L ss_args).
Proof.
  intros Hd Hnd. unfold _steadystate_power. cbv zeta.
  eapply post_bind; [by eapply info_pop_entry|]. intros args0 Hargs0.
  apply post_bind_any. intros [].
  eapply post_bind;
    [by apply (power_liouvillian_entry _ _ _ "weight")|].
  intros [[[[L' perm] perm2] rp] args1] Hargs1.
  do 3 (apply post_bind_any; intros).
  eapply post_bind; [apply precondition_if_asked_weight|]. intros args2 Hargs2.
  do 4 (apply post_bind_any; intros). apply post_bind_any. intros [it v].
  case_bool_decide; [post_run|].
  repeat weight_step; apply return_state_info; congruence.
Qed.

(** X21.  The eigenvalue solver, the svd solver and the power method take
    the entry [weight] out of the diagnostics before anything else: the
    diagnostics that they return have no such entry. *)
Theorem X21_no_weight_entry P L ss_args w r w' d info :
  ss_args !! "info" = Some (PDict d) -> NoDup d.*1 ->
  _steadystate_eigen P L ss_args w = (Ok r, w') \/
  _steadystate_svd_dense P L ss_args w = (Ok r, w') \/
  _steadystate_power P L ss_args w = (Ok r, w') ->
  ret_info r = Some info ->
  entry info "weight" = None.
Proof.
  intros Hd Hnd [Hrun|[Hrun|Hrun]] Hinfo.
  - by eapply (eigen_no_weight P L ss_args d Hd Hnd _ _ _ Hrun).
  - by eapply (svd_no_weight P L ss_args d Hd Hnd _ _ _ Hrun).
  - by eapply (power_no_weight P L ss_args d Hd Hnd _ _ _ Hrun).
Qed.

Lemma X21_no_weight_entry_witness : entry power_info "weight" = None.
Proof.
  apply (X21_no_weight_entry demo L_damping power_info_args []
           (RetStateInfo power_info_state power_info) [EUseSolver true PNone]
           _empty_info_dict power_info).
  - reflexivity.
  - compute_done.
  - right. right. vm_compute. reflexivity.
  - reflexivity.
Defined.

(** ** The entry point of the pseudo-inverse *)

(** X22.  Given a steady state, every call of [pseudo_inverse] with
    recognized keywords fails in the same way, for the sparse and the dense
    functions and for every method: the options, which always hold the key
    [method], are passed on next to the argument [method], and the call of
    the internal function raises a TypeError before its body runs. *)
Theorem X22_pseudo_inverse_fails P L rho sparse method kwargs w a0 v b sp :
  apply_kwargs kwargs _default_steadystate_args = Ok a0 ->
  a0 !! "use_rcm" = Some v -> truthy v = Ok b ->
  truthy sparse = Ok sp ->
  pseudo_inverse P L (Some rho) sparse method kwargs w
  = (Err (PyTypeError "got multiple values for keyword argument"), w).
Proof.
  intros Ha0 Hv Hb Hsp. unfold pseudo_inverse.
  rewrite Ha0, bind_lift_Ok.
  rewrite (bind_step _ _ _ _ _ (natural_if_rcm_run kwargs _ _ _ w Hv Hb)).
  set (a1 := if b && _ then _ else a0).
  assert (is_Some (a1 !! "method")) as Hm.
  { assert (is_Some (a0 !! "method")) as H0.
    { apply elem_of_dom. rewrite (apply_kwargs_dom _ _ _ Ha0). by apply elem_of_dom. }
    unfold a1. destruct (b && _); by rewrite ?lookup_insert_ne. }
  rewrite (bind_step _ _ _ (RetState rho) _ eq_refl).
  rewrite Hsp, bind_lift_Ok.
  destruct sp; unfold call_with_kwargs; simpl; by rewrite bool_decide_eq_true_2.
Qed.

Lemma X22_pseudo_inverse_fails_witness :
  pseudo_inverse demo L_damping (Some ground) (PBool true) (PStr "splu")
    [("use_rcm"%string, PBool true)] []
  = (Err (PyTypeError "got multiple values for keyword argument"), []).
Proof.
  eapply (X22_pseudo_inverse_fails demo L_damping ground (PBool true) (PStr "splu")
            [("use_rcm"%string, PBool true)] [] _ (PBool true) true true); reflexivity.
Defined.

(** * The solvers, run by run *)

(** ** What a successful solve went through *)

Lemma flag_is_Ok ss_args k b w w' :
  flag ss_args k w = (Ok b, w') -> flag_is ss_args k b /\ w' = w.
Proof. intros (-> & v & ? & ?)%flag_Ok. split; [by exists v | done]. Qed.

Lemma num_is_Ok ss_args k x w w' :
  num ss_args k w = (Ok x, w') -> num_is ss_args k x /\ w' = w.
Proof. intros (v & ? & ? & ->)%num_Ok. split; [by exists v | done]. Qed.

Lemma flag_is_keeps a ss_args k b :
  a !! k = ss_args !! k -> flag_is a k b -> flag_is ss_args k b.
Proof. intros Hk (v & Hv & Ht). exists v. by rewrite <- Hk. Qed.

Lemma num_is_keeps a ss_args k x :
  a !! k = ss_args !! k -> num_is a k x -> num_is ss_args k x.
Proof. intros Hk (v & Hv & Ht). exists v. by rewrite <- Hk. Qed.

Lemma flag_is_inj ss_args k b b' : flag_is ss_args k b -> flag_is ss_args k b' -> b = b'.
Proof. intros (v & Hv & Ht) (v' & Hv' & Ht'). congruence. Qed.

Lemma num_is_inj ss_args k x x' : num_is ss_args k x -> num_is ss_args k x' -> x = x'.
Proof. intros (v & Hv & Ht) (v' & Hv' & Ht'). congruence. Qed.

Lemma reorder_wbm_Ok P L ss_args w L2 perm a w' :
  reorder_wbm P L ss_args w = (Ok (L2, perm, a), w') ->
  exists use_wbm, flag_is ss_args "use_wbm" use_wbm /\ matched P use_wbm L L2 perm.
Proof.
  unfold reorder_wbm.
  intros (use_wbm & w1 & [Hf ->]%flag_is_Ok & H)%bind_Ok.
  exists use_wbm. split; [done|]. destruct use_wbm; simpl.
  - apply bind_Ok in H as (q & ? & [Hq ->]%lift_Ok & H).
    apply bind_Ok in H as (L' & ? & [HL ->]%lift_Ok & H).
    apply bind_Ok in H as (a1 & ? & _ & H).
    apply bind_Ok in H as (a2 & ? & _ & H).
    apply ret_Ok in H as [[= -> -> ->] _]. eauto.
  - by apply ret_Ok in H as [[= -> -> ->] _].
Qed.

Lemma reorder_rcm_Ok P L ss_args w L3 perm2 rev_perm a w' :
  reorder_rcm P L ss_args w = (Ok (L3, perm2, rev_perm, a), w') ->
  exists use_rcm, flag_is ss_args "use_rcm" use_rcm /\ ordered P use_rcm L L3 perm2 rev_perm.
Proof.
  unfold reorder_rcm.
  intros (use_rcm & w1 & [Hf ->]%flag_is_Ok & H)%bind_Ok.
  exists use_rcm. split; [done|]. destruct use_rcm; simpl.
  - apply bind_Ok in H as (p & ? & [Hp ->]%lift_Ok & H).
    apply bind_Ok in H as (L' & ? & [HL ->]%lift_Ok & H).
    apply bind_Ok in H as (a1 & ? & _ & H).
    apply bind_Ok in H as (a2 & ? & _ & H).
    apply ret_Ok in H as [[= -> -> -> ->] _]. eauto 6.
  - by apply ret_Ok in H as [[= -> -> -> ->] _].
Qed.

Lemma reorder_rcm_power_Ok P L ss_args w L3 perm2 rev_perm a w' :
  reorder_rcm_power P L ss_args w = (Ok (L3, perm2, rev_perm, a), w') ->
  exists use_rcm, flag_is ss_args "use_rcm" use_rcm /\ ordered P use_rcm L L3 perm2 rev_perm.
Proof.
  unfold reorder_rcm_power.
  intros (use_rcm & w1 & [Hf ->]%flag_is_Ok & H)%bind_Ok.
  exists use_rcm. split; [done|]. destruct use_rcm; simpl.
  - apply bind_Ok in H as (a1 & ? & _ & H).
    apply bind_Ok in H as (p & ? & [Hp ->]%lift_Ok & H).
    apply bind_Ok in H as (a2 & ? & _ & H).
    apply bind_Ok in H as (L' & ? & [HL ->]%lift_Ok & H).
    apply ret_Ok in H as [[= -> -> -> ->] _]. eauto 6.
  - by apply ret_Ok in H as [[= -> -> -> ->] _].
Qed.

Lemma permute_if_any_Ok b perm w b' w' :
  permute_if_any b perm w = (Ok b', w') -> reordered perm b b'.
Proof.
  unfold permute_if_any, reordered. destruct (np_any perm) eqn:Hany.
  - destruct perm as [p|]; [|done]. simpl. intros [H _]%lift_Ok. eauto.
  - by intros [-> _]%ret_Ok.
Qed.

(** The conditioned and reordered system of [_steadystate_direct_sparse] and
    [_steadystate_iterative], whose first lines are the same. *)
Lemma lu_system_Ok P L ss_args w L' perm perm2 rev_perm a1 w1 b0 wt b w2 :
  num_is ss_args "weight" wt ->
  rhs (Nat.sqrt (nrows (qdata L)) ^ 2) wt = Ok b0 ->
  _steadystate_LU_liouvillian P L ss_args w = (Ok (L', perm, perm2, rev_perm, a1), w1) ->
  permuted_rhs b0 perm perm2 w1 = (Ok b, w2) ->
  exists use_rcm, lu_system P L ss_args use_rcm perm perm2 rev_perm L' b.
Proof.
  intros Hwt Hb0. unfold _steadystate_LU_liouvillian. cbv zeta.
  intros (wt' & ? & [Hwt' ->]%num_is_Ok & H)%bind_Ok Hb.
  assert (wt' = wt) as -> by (by eapply num_is_inj).
  apply bind_Ok in H as (L1 & ? & [HL1 ->]%lift_Ok & H).
  apply bind_Ok in H as ([[L2 pm] a2] & w3 & Hwbm & H).
  pose proof (reorder_wbm_keeps P L1 ss_args "use_rcm" ltac:(done) _ _ _ Hwbm) as Hk.
  cbv beta iota in Hk.
  apply reorder_wbm_Ok in Hwbm as (use_wbm & Hfw & Hm).
  apply bind_Ok in H as ([[[L3 pm2] rp] a3] & w4 & Hrcm & H).
  apply reorder_rcm_Ok in Hrcm as (use_rcm & Hfr & Ho).
  apply ret_Ok in H as [[= -> -> -> -> ->] _].
  unfold permuted_rhs in Hb.
  apply bind_Ok in Hb as (b1 & w5 & Hb1%permute_if_any_Ok & Hb2%permute_if_any_Ok).
  exists use_rcm, wt, b0, L1, L2, use_wbm, b1.
  repeat (split; [done|]). split; [by eapply flag_is_keeps|]. done.
Qed.

Lemma direct_sparse_prepare_system P L ss_args w L' b rev_perm a w' :
  direct_sparse_prepare P L ss_args w = (Ok (L', b, rev_perm, a), w') ->
  (exists use_rcm perm perm2, lu_system P L ss_args use_rcm perm perm2 rev_perm L' b) /\
  (forall k, k <> "info"%string -> a !! k = ss_args !! k).
Proof.
  unfold direct_sparse_prepare. cbv zeta.
  intros (wt & ? & [Hwt ->]%num_is_Ok & H)%bind_Ok.
  apply bind_Ok in H as (b0 & ? & [Hb0 ->]%lift_Ok & H).
  apply bind_Ok in H as ([[[[L1 perm] perm2] rp] a1] & w1 & HLU & H).
  apply bind_Ok in H as (b1 & w2 & Hb & H).
  apply bind_Ok in H as (umf & ? & [_ ->]%get_Ok & H).
  apply bind_Ok in H as ([] & w3 & _ & H).
  apply bind_Ok in H as (a2 & w4 & Hrec & H).
  apply ret_Ok in H as [[= -> -> -> ->] ->].
  split.
  - destruct (lu_system_Ok _ _ _ _ _ _ _ _ _ _ _ _ _ _ Hwt Hb0 HLU Hb) as [use_rcm Hsys].
    eauto.
  - intros k Hk.
    rewrite (record_lu_options_keeps a1 k Hk _ _ _ Hrec).
    exact (LU_liouvillian_keeps P L ss_args k Hk _ _ _ HLU).
Qed.

Lemma direct_sparse_solve_Ok P A b ss_args w v a w' :
  direct_sparse_solve P A b ss_args w = (Ok (v, a), w') ->
  (exists use_umfpack,
     flag_is ss_args "use_umfpack" use_umfpack /\ solved_direct P ss_args use_umfpack A b v) /\
  (forall k, k <> "info"%string -> a !! k = ss_args !! k).
Proof.
  unfold direct_sparse_solve.
  intros (umf & ? & [Humf ->]%flag_is_Ok & H)%bind_Ok.
  destruct umf; simpl in H.
  - apply bind_Ok in H as (v1 & ? & [Hv ->]%lift_Ok & H).
    apply bind_Ok in H as (a1 & ? & H1 & H).
    apply ret_Ok in H as [[= -> ->] _]. split.
    + exists true. by split.
    + intros k Hk. by eapply info_set_Ok.
  - apply bind_Ok in H as (permc & ? & [Hpermc ->]%get_Ok & H).
    apply bind_Ok in H as (thresh & ? & [Hthresh ->]%get_Ok & H).
    apply bind_Ok in H as (milu & ? & [Hmilu ->]%get_Ok & H).
    apply bind_Ok in H as (lu & ? & [Hlu ->]%lift_Ok & H).
    apply bind_Ok in H as (v1 & ? & [Hv ->]%lift_Ok & H).
    apply bind_Ok in H as (a1 & ? & H1 & H).
    apply bind_Ok in H as (ri & ? & _ & H).
    assert (v = v1 /\ forall k, k <> "info"%string -> a !! k = a1 !! k) as [-> Hk1].
    { destruct (ri && scipy_check P).
      - apply bind_Ok in H as (a2 & ? & H2 & H).
        apply bind_Ok in H as (a3 & ? & H3 & H).
        apply bind_Ok in H as (rt & ? & _ & H).
        apply bind_Ok in H as (a4 & ? & H4 & H).
        apply ret_Ok in H as [[= -> ->] _]. split; [done|]. intros k Hk.
        erewrite (info_set_Ok a3), (info_set_Ok a2), (info_set_Ok a1); done.
      - by apply ret_Ok in H as [[= -> ->] _]. }
    split.
    + exists false. split; [done|]. simpl. eauto 10.
    + intros k Hk. rewrite Hk1 by done. by eapply info_set_Ok.
Qed.

Lemma unpermuted_Ok (use_rcm : bool) v rev_perm w v' w' :
  (if use_rcm then unpermute v rev_perm else ret v) w = (Ok v', w') ->
  unpermuted use_rcm rev_perm v v'.
Proof.
  destruct use_rcm; simpl.
  - apply unpermute_Ok.
  - by intros [-> _]%ret_Ok.
Qed.

Lemma direct_sparse_finish_state P dims A b rev_perm ss_args v w r w' :
  direct_sparse_finish P dims A b rev_perm ss_args v w = (Ok r, w') ->
  exists use_umfpack undo v',
    flag_is ss_args "use_umfpack" use_umfpack /\
    (if use_umfpack then undo = false else flag_is ss_args "use_rcm" undo) /\
    unpermuted undo rev_perm v v' /\
    qdata <$> ret_states r = [hermitize (vec2mat v')].
Proof.
  unfold direct_sparse_finish.
  intros (ri & w1 & _ & H)%bind_Ok.
  apply bind_Ok in H as (a1 & w2 & H1 & H).
  assert (forall k, k <> "info"%string -> a1 !! k = ss_args !! k) as Hkeep.
  { intros k Hk. destruct ri; [by eapply info_set_Ok | by apply ret_Ok in H1 as [-> _]]. }
  apply bind_Ok in H as (umf & w3 & [Humf ->]%flag_is_Ok & H).
  apply bind_Ok in H as (undo & w4 & Hundo & H).
  apply bind_Ok in H as (v' & w5 & Hv'%unpermuted_Ok & H%return_state_Ok).
  exists umf, undo, v'. split; [eapply flag_is_keeps; [|done]; by apply Hkeep|].
  split; [|done]. destruct umf; simpl in Hundo.
  - by apply ret_Ok in Hundo as [-> _].
  - apply flag_is_Ok in Hundo as [Hundo _]. eapply flag_is_keeps; [|done]. by apply Hkeep.
Qed.

Lemma lu_system_use_rcm P L ss_args use_rcm perm perm2 rev_perm L' b :
  lu_system P L ss_args use_rcm perm perm2 rev_perm L' b -> flag_is ss_args "use_rcm" use_rcm.
Proof. intros (wt & b0 & L1 & L2 & use_wbm & b1 & H). tauto. Qed.

(** What a successful run of [_steadystate_direct_sparse] went through. *)
Lemma direct_sparse_chain P L ss_args w r w' :
  _steadystate_direct_sparse P L ss_args w = (Ok r, w') ->
  exists use_rcm perm perm2 rev_perm L' b use_umfpack v v',
    lu_system P L ss_args use_rcm perm perm2 rev_perm L' b /\
    flag_is ss_args "use_umfpack" use_umfpack /\
    solved_direct P ss_args use_umfpack L' b v /\
    unpermuted (negb use_umfpack && use_rcm) rev_perm v v' /\
    qdata <$> ret_states r = [hermitize (vec2mat v')].
Proof.
  unfold _steadystate_direct_sparse.
  intros ([[[L' b] rev_perm] a1] & w1 & [Hsys Hk1]%direct_sparse_prepare_system & H)%bind_Ok.
  destruct Hsys as (use_rcm & perm & perm2 & Hsys).
  apply bind_Ok in H as ([v a2] & w2 & [Hsolve Hk2]%direct_sparse_solve_Ok & H).
  destruct Hsolve as (umf & Humf & Hsolve).
  apply direct_sparse_finish_state in H as (umf' & undo & v' & Humf' & Hundo & Hv' & Hr).
  assert (forall k, k <> "info"%string -> a2 !! k = ss_args !! k) as Hk.
  { intros k Hk. by rewrite Hk2, Hk1. }
  apply (flag_is_keeps _ ss_args) in Humf; [|by apply Hk1].
  apply (flag_is_keeps _ ss_args) in Humf'; [|by apply Hk].
  assert (umf' = umf) as -> by (by eapply flag_is_inj).
  exists use_rcm, perm, perm2, rev_perm, L', b, umf, v, v'.
  split; [done|]. split; [done|]. split.
  { unfold solved_direct in *. destruct umf; [done|].
    destruct Hsolve as (permc & thresh & milu & lu & H1 & H2 & H3 & H4).
    exists permc, thresh, milu, lu. rewrite <- !Hk1 by done. done. }
  split; [|done]. destruct umf; simpl.
  - by subst undo.
  - apply (flag_is_keeps _ ss_args) in Hundo; [|by apply Hk].
    by rewrite (flag_is_inj _ _ _ _ (lu_system_use_rcm _ _ _ _ _ _ _ _ _ Hsys) Hundo).
Qed.

Lemma iterative_prepare_system P L ss_args w L' b rev_perm a w' :
  iterative_prepare P L ss_args w = (Ok (L', b, rev_perm, a), w') ->
  (exists use_rcm perm perm2, lu_system P L ss_args use_rcm perm perm2 rev_perm L' b) /\
  (forall k, k <> "info"%string -> k <> "M"%string -> a !! k = ss_args !! k).
Proof.
  unfold iterative_prepare. cbv zeta.
  intros (wt & ? & [Hwt ->]%num_is_Ok & H)%bind_Ok.
  apply bind_Ok in H as (b0 & ? & [Hb0 ->]%lift_Ok & H).
  apply bind_Ok in H as ([[[[L1 perm] perm2] rp] a1] & w1 & HLU & H).
  apply bind_Ok in H as (b1 & w2 & Hb & H).
  apply bind_Ok in H as (umf & ? & [_ ->]%get_Ok & H).
  apply bind_Ok in H as ([] & w3 & _ & H).
  apply bind_Ok in H as (a2 & w4 & Hpre & H).
  apply ret_Ok in H as [[= -> -> -> ->] ->].
  split.
  - destruct (lu_system_Ok _ _ _ _ _ _ _ _ _ _ _ _ _ _ Hwt Hb0 HLU Hb) as [use_rcm Hsys].
    eauto.
  - intros k Hk HM.
    rewrite (precondition_if_asked_keeps P _ _ true a1 k Hk HM _ _ _ Hpre).
    exact (LU_liouvillian_keeps P L ss_args k Hk _ _ _ HLU).
Qed.

Lemma call_krylov_args P k A b tol ss_args w r w' :
  call_krylov P k A b tol ss_args w = (Ok r, w') ->
  exists m x0 restart maxiter,
    ss_args !! "x0" = Some x0 /\ ss_args !! "maxiter" = Some maxiter /\
    krylov_solve P k A b tol m x0 restart maxiter = Ok r.
Proof.
  unfold call_krylov.
  intros (m & w1 & [_ ->]%get_Ok & H)%bind_Ok.
  apply bind_Ok in H as (x0 & w2 & [Hx0 ->]%get_Ok & H).
  apply bind_Ok in H as (restart & w3 & _ & H).
  apply bind_Ok in H as (maxiter & w4 & [Hmx _]%get_Ok & H).
  apply lift_Ok in H as [H _]. eauto 8.
Qed.

Lemma iterative_finish_state P dims A b rev_perm ss_args v check iters w r w' :
  iterative_finish P dims A b rev_perm ss_args v check iters w = (Ok r, w') ->
  check = 0%Z /\
  exists use_rcm v',
    flag_is ss_args "use_rcm" use_rcm /\ unpermuted use_rcm rev_perm v v' /\
    qdata <$> ret_states r = [hermitize (vec2mat v')].
Proof.
  unfold iterative_finish.
  intros (a1 & w1 & H1 & H)%bind_Ok.
  apply bind_Ok in H as (pt & w2 & _ & H).
  apply bind_Ok in H as (a2 & w3 & H2 & H).
  apply bind_Ok in H as (a3 & w4 & H3 & H).
  apply bind_Ok in H as (ri & w5 & _ & H).
  apply bind_Ok in H as (a4 & w6 & H4 & H).
  assert (a4 !! "use_rcm" = ss_args !! "use_rcm") as Hkeep.
  { transitivity (a3 !! "use_rcm").
    - destruct ri; [by eapply info_set_Ok | by apply ret_Ok in H4 as [-> _]].
    - erewrite (info_set_Ok a2), (info_set_Ok a1), (info_set_Ok ss_args); done. }
  case_bool_decide as Hpos.
  { apply bind_Ok in H as (? & ? & _ & H). by apply bind_Ok in H as (? & ? & _ & H). }
  case_bool_decide as Hneg; [done|].
  split; [lia|].
  apply bind_Ok in H as (use_rcm & w7 & [Hf _]%flag_is_Ok & H).
  apply bind_Ok in H as (v' & w8 & Hv'%unpermuted_Ok & H%return_state_Ok).
  exists use_rcm, v'. split; [by eapply flag_is_keeps|]. done.
Qed.

(** What a successful run of [_steadystate_iterative] went through. *)
Lemma iterative_chain P L ss_args w r w' :
  _steadystate_iterative P L ss_args w = (Ok r, w') ->
  exists use_rcm perm perm2 rev_perm L' b v v',
    lu_system P L ss_args use_rcm perm perm2 rev_perm L' b /\
    solved_iterative P ss_args L' b v /\
    unpermuted use_rcm rev_perm v v' /\
    qdata <$> ret_states r = [hermitize (vec2mat v')].
Proof.
  unfold _steadystate_iterative.
  intros ([[[L' b] rev_perm] a1] & w1 & [Hsys Hk1]%iterative_prepare_system & H)%bind_Ok.
  destruct Hsys as (use_rcm & perm & perm2 & Hsys).
  apply bind_Ok in H as ([[v check] iters] & w2 & Hsolve & H).
  apply iterative_finish_state in H as (-> & use_rcm' & v' & Hf & Hv' & Hr).
  apply (flag_is_keeps _ ss_args) in Hf; [|by apply Hk1].
  rewrite <- (flag_is_inj _ _ _ _ (lu_system_use_rcm _ _ _ _ _ _ _ _ _ Hsys) Hf) in Hv'.
  exists use_rcm, perm, perm2, rev_perm, L', b, v, v'.
  split; [done|]. split; [|done].
  unfold iterative_solve in Hsolve.
  apply bind_Ok in Hsolve as (method & ? & [Hm ->]%get_Ok & Hsolve).
  destruct (which_krylov method "iterative-") as [k|] eqn:Hk; [|done].
  apply bind_Ok in Hsolve as (tol & ? & [Htol ->]%get_Ok & Hsolve).
  apply call_krylov_args in Hsolve as (m & x0 & restart & maxiter & Hx0 & Hmx & Hkr).
  exists method, k, tol, m, x0, restart, maxiter, iters.
  rewrite <- !Hk1 by done. done.
Qed.

(** ** C4: the order of the right-hand side and of the solution *)

Lemma reordered_valid perm b b' :
  permutes perm (length b) -> reordered perm b b' -> b' = in_order perm b.
Proof.
  unfold reordered. destruct perm as [p|]; simpl; intros Hp.
  - destruct (existsb _ p) eqn:Hany.
    + intros (q & [= <-] & Hq). rewrite take_ix_valid in Hq by done. congruence.
    + intros ->. symmetry. apply ix_small; [done|]. by eapply np_any_false_small.
  - done.
Qed.

Lemma lu_system_orders P L ss_args use_rcm perm perm2 rev_perm L' b :
  lu_system P L ss_args use_rcm perm perm2 rev_perm L' b ->
  if use_rcm then exists p, perm2 = Some p /\ rev_perm = Some (argsort p)
  else perm2 = None /\ rev_perm = None.
Proof.
  intros (wt & b0 & L1 & L2 & use_wbm & b1 & _ & _ & _ & _ & _ & _ & Ho & _).
  unfold ordered in Ho. destruct use_rcm.
  - destruct Ho as (p & _ & _ & -> & ->). eauto.
  - tauto.
Qed.

(** C4 (as amended).  In the iterative solvers and in the sparse direct
    solver the library is handed the system [lu_system]: the right-hand side
    in the order of the matching first and of the Cuthill-McKee ordering
    second.  The initial guess reaches the iterative solver as the options
    hold it, in no new order.  The solution is put back with [rev_perm]
    alone, which is [np.argsort] of the Cuthill-McKee ordering (the matching
    moves rows only): in the iterative solvers whenever [use_rcm] is set, in
    the sparse direct solver when moreover umfpack is not selected; the
    result is reshaped and averaged with its conjugate transpose.  An index
    array that permutes the places reorders as [ix] does, and [np.argsort]
    of it undoes it. *)
Theorem C4_permutations :
  (forall P L ss_args w r w',
     _steadystate_iterative P L ss_args w = (Ok r, w') ->
     exists use_rcm perm perm2 rev_perm L' b v v',
       lu_system P L ss_args use_rcm perm perm2 rev_perm L' b /\
       solved_iterative P ss_args L' b v /\
       unpermuted use_rcm rev_perm v v' /\
       qdata <$> ret_states r = [hermitize (vec2mat v')]) /\
  (forall P L ss_args w r w',
     _steadystate_direct_sparse P L ss_args w = (Ok r, w') ->
     exists use_rcm perm perm2 rev_perm L' b use_umfpack v v',
       lu_system P L ss_args use_rcm perm perm2 rev_perm L' b /\
       flag_is ss_args "use_umfpack" use_umfpack /\
       solved_direct P ss_args use_umfpack L' b v /\
       unpermuted (negb use_umfpack && use_rcm) rev_perm v v' /\
       qdata <$> ret_states r = [hermitize (vec2mat v')]) /\
  (forall P L ss_args use_rcm perm perm2 rev_perm L' b,
     lu_system P L ss_args use_rcm perm perm2 rev_perm L' b ->
     if use_rcm then exists p, perm2 = Some p /\ rev_perm = Some (argsort p)
     else perm2 = None /\ rev_perm = None) /\
  (forall perm b b',
     permutes perm (length b) -> reordered perm b b' -> b' = in_order perm b) /\
  (forall v p, p ≡ₚ seq 0 (length v) -> ix (ix v p) (argsort p) = v).
Proof.
  split; [exact iterative_chain|].
  split; [exact direct_sparse_chain|].
  split; [exact lu_system_orders|].
  split; [exact reordered_valid | exact ix_argsort].
Qed.

Lemma both_run :
  _steadystate_iterative demo L_damping both_args []
  = (Ok both_result, [EUseSolver true (PBool false)]).
Proof. vm_compute. reflexivity. Qed.

Lemma direct_both_run :
  _steadystate_direct_sparse demo_exact L_damping direct_both_args []
  = (Ok direct_both_result, [EUseSolver true (PBool false)]).
Proof. vm_compute. reflexivity. Qed.

(** The system of the solve with both reorderings: the matching is the
    identity, the Cuthill-McKee ordering the reversal of the four places. *)
Lemma both_system :
  lu_system demo L_damping both_args true
    (Some [0; 1; 2; 3]) (Some [3; 2; 1; 0]) (Some [3; 2; 1; 0]) reordered_LU_matrix e3.
Proof.
  exists (Q2Qc 1), e0, damping_LU_matrix, damping_LU_matrix, true, e0.
  split; [exists (PFloat (Q2Qc 1)); split; reflexivity|].
  split; [reflexivity|]. split; [vm_compute; reflexivity|].
  split; [exists (PBool true); split; reflexivity|].
  split; [exists [0; 1; 2; 3]; repeat split; vm_compute; reflexivity|].
  split; [exists (PBool true); split; reflexivity|].
  split; [exists [3; 2; 1; 0]; repeat split; vm_compute; reflexivity|].
  split; [exists [0; 1; 2; 3]; split; reflexivity|].
  exists [3; 2; 1; 0]. split; reflexivity.
Qed.

Lemma C4_permutations_witness :
  lu_system demo L_damping both_args true
    (Some [0; 1; 2; 3]) (Some [3; 2; 1; 0]) (Some [3; 2; 1; 0]) reordered_LU_matrix e3 /\
  (exists use_rcm perm perm2 rev_perm L' b v v',
     lu_system demo L_damping both_args use_rcm perm perm2 rev_perm L' b /\
     solved_iterative demo both_args L' b v /\
     unpermuted use_rcm rev_perm v v' /\
     qdata <$> ret_states both_result = [hermitize (vec2mat v')]) /\
  (exists use_rcm perm perm2 rev_perm L' b use_umfpack v v',
     lu_system demo_exact L_damping direct_both_args use_rcm perm perm2 rev_perm L' b /\
     flag_is direct_both_args "use_umfpack" use_umfpack /\
     solved_direct demo_exact direct_both_args use_umfpack L' b v /\
     unpermuted (negb use_umfpack && use_rcm) rev_perm v v' /\
     qdata <$> ret_states direct_both_result = [hermitize (vec2mat v')]) /\
  (if true then exists p, Some [3; 2; 1; 0] = Some p /\ Some [3; 2; 1; 0] = Some (argsort p)
   else Some [3; 2; 1; 0] = None /\ Some [3; 2; 1; 0] = None) /\
  ix e0 [3; 2; 1; 0] = in_order (Some [3; 2; 1; 0]) e0 /\
  ix (ix guess [3; 2; 1; 0]) (argsort [3; 2; 1; 0]) = guess.
Proof.
  pose proof C4_permutations as (Hit & Hdir & Hord & Hre & Hback).
  split; [exact both_system|].
  split; [exact (Hit demo L_damping both_args [] both_result _ both_run)|].
  split; [exact (Hdir demo_exact L_damping direct_both_args [] direct_both_result _
                   direct_both_run)|].
  split; [exact (Hord _ _ _ _ _ _ _ _ _ both_system)|].
  split.
  - apply (Hre (Some [3; 2; 1; 0]) e0); [exact reversal_permutes|].
    exists [3; 2; 1; 0]. split; reflexivity.
  - exact (Hback guess [3; 2; 1; 0] reversal_permutes).
Defined.

(** ** The dense direct solver and the diagnostics *)

Lemma set_row0_ncols A row A' : set_row0 A row = Ok A' -> ncols A' = ncols A.
Proof.
  unfold set_row0. destruct A as [|r0 rest]; [done|].
  case_bool_decide as Hlen; [by intros [= <-]|].
  destruct row as [|x [|]]; try done. intros [= <-]. simpl. apply repeat_length.
Qed.

Lemma dense_residual_Ok P L b v x : dense_residual P L b v = Ok x -> ncols L = 1.
Proof.
  unfold dense_residual, matrix_times_1d. by case_bool_decide.
Qed.

Lemma dense_residual_Err P L b v :
  ncols L <> 1 -> dense_residual P L b v = Err (PyValueError "shapes not aligned").
Proof.
  intros H. unfold dense_residual, matrix_times_1d. by rewrite bool_decide_eq_false_2.
Qed.

(** What a successful run of [_steadystate_direct_dense] went through. *)
Lemma direct_dense_chain P L ss_args w r w' :
  _steadystate_direct_dense P L ss_args w = (Ok r, w') ->
  exists wt b L' v return_info,
    num_is ss_args "weight" wt /\ rhs (Nat.sqrt (nrows (qdata L)) ^ 2) wt = Ok b /\
    dense_conditioned (qdata L) wt = Ok L' /\ np_linalg_solve P L' b = Ok v /\
    flag_is ss_args "return_info" return_info /\
    (return_info = true -> ncols (qdata L) = 1) /\
    r = RetState (mkQobj (hermitize (vec2mat v)) Oper (qdims L) (Some true)).
Proof.
  unfold _steadystate_direct_dense. cbv zeta.
  intros (wt & ? & [Hwt ->]%num_is_Ok & H)%bind_Ok.
  apply bind_Ok in H as (b & ? & [Hb ->]%lift_Ok & H).
  apply bind_Ok in H as (wt2 & ? & [Hwt2 ->]%num_is_Ok & H).
  assert (wt2 = wt) as -> by (by eapply num_is_inj).
  apply bind_Ok in H as (L' & ? & [HL' ->]%lift_Ok & H).
  apply bind_Ok in H as (v & ? & [Hsolve ->]%lift_Ok & H).
  apply bind_Ok in H as (a1 & ? & H1 & H).
  apply bind_Ok in H as (ri & ? & [Hri ->]%flag_is_Ok & H).
  apply bind_Ok in H as (a2 & ? & H2 & [-> _]%ret_Ok).
  exists wt, b, L', v, ri. repeat (split; [done|]).
  split; [eapply flag_is_keeps; [|done]; by eapply info_set_Ok|].
  split; [|done]. intros ->.
  apply bind_Ok in H2 as (res & ? & [Hres%dense_residual_Ok _]%lift_Ok & _).
  unfold dense_conditioned in HL'. apply set_row0_ncols in HL'. congruence.
Qed.

(** X10.  Two solvers never return the diagnostics: the dense direct solver,
    and the svd solver when it is asked for one state.  A successful call on
    these paths returns the state alone.  On the dense path a call that asks
    for the diagnostics succeeds only for a Liouvillian of one column: the
    residual multiplies the matrix with the one-dimensional solution. *)
Theorem X10_no_diagnostics P A c_op_list kwargs w r w' :
  steadystate P A c_op_list kwargs w = (Ok r, w') ->
  (method_of kwargs = Some (PStr "direct") /\
   exists v, option_of kwargs "sparse" = Some v /\ truthy v = Ok false) \/
  (method_of kwargs = Some (PStr "svd") /\
   exists v, option_of kwargs "all_states" = Some v /\ truthy v = Ok false) ->
  (exists rho, r = RetState rho) /\
  (method_of kwargs = Some (PStr "direct") ->
   exists A' ss_args w1 riv return_info,
     ss_prepare P A c_op_list kwargs w = (Ok (A', ss_args), w1) /\
     option_of kwargs "return_info" = Some riv /\ truthy riv = Ok return_info /\
     (return_info = true -> ncols (qdata A') = 1)).
Proof.
  unfold steadystate. intros ([A' ss_args] & w1 & Hprep & Hrun)%bind_Ok Hcase.
  pose proof (ss_prepare_method P A c_op_list kwargs _ _ _ Hprep) as Hm.
  cbv beta iota in Hm.
  unfold ss_dispatch in Hrun.
  apply bind_Ok in Hrun as (method & w2 & [Hget ->]%get_Ok & Hrun).
  destruct Hcase as [[Hmethod (v & Hv & Hb)]|[Hmethod (v & Hv & Hb)]].
  - assert (method = PStr "direct") as -> by congruence. simpl in Hrun.
    apply bind_Ok in Hrun as (sparse & w3 & (-> & v' & Hv' & Hb')%flag_Ok & Hrun).
    rewrite (ss_prepare_keeps _ _ _ _ _ _ _ _ "sparse" Hprep) in Hv' by done.
    assert (sparse = false) as -> by congruence.
    apply direct_dense_chain in Hrun
      as (wt & b & L' & x & ri & _ & _ & _ & _ & (riv & Hriv & Hri) & Hcols & ->).
    split; [eauto|]. intros _.
    rewrite (ss_prepare_keeps _ _ _ _ _ _ _ _ "return_info" Hprep) in Hriv by done.
    exists A', ss_args, w1, riv, ri. done.
  - assert (method = PStr "svd") as -> by congruence. simpl in Hrun.
    split; [|congruence].
    eapply svd_single_no_info; [|exact Hb|exact Hrun].
    by rewrite (ss_prepare_keeps _ _ _ _ _ _ _ _ "all_states" Hprep).
Qed.

Lemma X10_no_diagnostics_witness :
  ((exists rho, RetState skew_state = RetState rho) /\
   (method_of svd_info_kwargs = Some (PStr "direct") ->
    exists A' ss_args w1 riv return_info,
      ss_prepare demo L_skew [] svd_info_kwargs [] = (Ok (A', ss_args), w1) /\
      option_of svd_info_kwargs "return_info" = Some riv /\ truthy riv = Ok return_info /\
      (return_info = true -> ncols (qdata A') = 1))) /\
  ((exists rho, RetState damping_state = RetState rho) /\
   (method_of dense_kwargs = Some (PStr "direct") ->
    exists A' ss_args w1 riv return_info,
      ss_prepare demo L_damping [] dense_kwargs [] = (Ok (A', ss_args), w1) /\
      option_of dense_kwargs "return_info" = Some riv /\ truthy riv = Ok return_info /\
      (return_info = true -> ncols (qdata A') = 1))).
Proof.
  split.
  - apply (X10_no_diagnostics demo L_skew [] svd_info_kwargs [] (RetState skew_state) []).
    + vm_compute. reflexivity.
    + right. split; [reflexivity|]. exists (PBool false). split; reflexivity.
  - apply (X10_no_diagnostics demo L_damping [] dense_kwargs [] (RetState damping_state) []).
    + vm_compute. reflexivity.
    + left. split; [reflexivity|]. exists (PBool false). split; reflexivity.
Defined.

(** X23.  The dense direct solver, asked for the diagnostics, fails once
    the system is solved: [L*v] of the matrix and the one-dimensional
    solution needs a matrix of one column, and the residual raises the
    ValueError of misaligned shapes for any other. *)
Theorem X23_dense_diagnostics_raise P L ss_args w wt b L' v d :
  num_is ss_args "weight" wt -> rhs (Nat.sqrt (nrows (qdata L)) ^ 2) wt = Ok b ->
  dense_conditioned (qdata L) wt = Ok L' -> np_linalg_solve P L' b = Ok v ->
  ss_args !! "info" = Some (PDict d) -> flag_is ss_args "return_info" true ->
  ncols (qdata L) <> 1 ->
  _steadystate_direct_dense P L ss_args w = (Err (PyValueError "shapes not aligned"), w).
Proof.
  intros (wv & Hwv & Hwt) Hb HL' Hsolve Hd (riv & Hriv & Hri) Hcols.
  unfold _steadystate_direct_dense. cbv zeta.
  rewrite (bind_step _ _ _ _ _ (num_run _ _ _ _ w Hwv Hwt)).
  rewrite Hb, bind_lift_Ok.
  rewrite (bind_step _ _ _ _ _ (num_run _ _ _ _ w Hwv Hwt)).
  rewrite HL', bind_lift_Ok. rewrite Hsolve, bind_lift_Ok.
  rewrite (bind_step _ _ _ _ _ (info_set_run _ _ _ _ _ Hd)).
  assert ((<["info" := PDict (dict_set d "solution_time" PElapsed)]> ss_args) !! "return_info"
          = Some riv) as Hriv' by (by rewrite lookup_insert_ne).
  rewrite (bind_step _ _ _ _ _ (flag_run _ _ _ _ _ Hriv' Hri)).
  rewrite dense_residual_Err; [done|].
  unfold dense_conditioned in HL'. apply set_row0_ncols in HL'. congruence.
Qed.

Lemma X23_dense_diagnostics_raise_witness :
  _steadystate_direct_dense demo L_damping direct_info_args []
  = (Err (PyValueError "shapes not aligned"), []).
Proof.
  apply (X23_dense_diagnostics_raise demo L_damping direct_info_args [] (Q2Qc 1) e0
           damping_dense_matrix e0 _empty_info_dict).
  - exists (PFloat (Q2Qc 1)). split; reflexivity.
  - reflexivity.
  - reflexivity.
  - reflexivity.
  - reflexivity.
  - exists (PBool true). split; reflexivity.
  - vm_compute. lia.
Defined.

(** ** The run of the inverse power method *)

Lemma power_liouvillian_system P L ss_args w A perm perm2 rev_perm a w' :
  _steadystate_power_liouvillian P L ss_args w = (Ok (A, perm, perm2, rev_perm, a), w') ->
  exists L1 L2 use_wbm use_rcm,
    shifted (qdata L) = Ok L1 /\
    flag_is ss_args "use_wbm" use_wbm /\ matched P use_wbm L1 L2 perm /\
    flag_is ss_args "use_rcm" use_rcm /\ ordered P use_rcm L2 A perm2 rev_perm.
Proof.
  unfold _steadystate_power_liouvillian.
  intros (L1 & ? & [HL1 ->]%lift_Ok & H)%bind_Ok.
  apply bind_Ok in H as ([[L2 pm] a2] & w3 & Hwbm & H).
  pose proof (reorder_wbm_keeps P L1 ss_args "use_rcm" ltac:(done) _ _ _ Hwbm) as Hk.
  cbv beta iota in Hk.
  apply reorder_wbm_Ok in Hwbm as (use_wbm & Hfw & Hm).
  apply bind_Ok in H as ([[[L3 pm2] rp] a3] & w4 & Hrcm & H).
  apply reorder_rcm_power_Ok in Hrcm as (use_rcm & Hfr & Ho).
  apply ret_Ok in H as [[= -> -> -> -> ->] _].
  exists L1, L2, use_wbm, use_rcm. repeat (split; [done|]).
  split; [by eapply flag_is_keeps | done].
Qed.

(** What a successful run of [_steadystate_power] went through; every step
    after the announcement of the solver leaves the effects as they are. *)
Lemma power_chain P L ss_args w r w' :
  _steadystate_power P L ss_args w = (Ok r, w') ->
  let n := nrows (qdata L) in
  let m := prod_dims (qdims L) in
  let w1 := w ++ [EUseSolver true PNone] in
  exists d A perm perm2 rev_perm a1 use_rcm v0 method a2 lu _tol tol maxiter it v v',
    ss_args !! "info" = Some (PDict d) /\
    _steadystate_power_liouvillian P L (<["info" := PDict (dict_pop d "weight")]> ss_args) w1
    = (Ok (A, perm, perm2, rev_perm, a1), w1) /\
    flag_is ss_args "use_rcm" use_rcm /\
    unpermuted use_rcm perm2 (ones n) v0 /\
    ss_args !! "method" = Some method /\
    precondition_if_asked P A (Nat.sqrt n)
      (str_in method ["power-gmres"; "power-lgmres"; "power-bicgstab"]%string) a1 w1
    = (Ok a2, w1) /\
    (if is_str method "power"
     then exists permc thresh milu l,
            ss_args !! "permc_spec" = Some permc /\
            ss_args !! "diag_pivot_thresh" = Some thresh /\
            ss_args !! "ILU_MILU" = Some milu /\
            splu P A permc thresh milu = Ok l /\ lu = Some l
     else lu = None) /\
    num_is ss_args "tol" tol /\
    np_max_scalar P (tol / Q2Qc (inject_Z 10))%Qc (PFloat q_1em15) = Ok _tol /\
    num_is ss_args "maxiter" maxiter /\
    power_loop P (power_refine P lu A _tol a2) A tol (budget maxiter) 0 v0 w1
    = (Ok (it, v), w1) /\
    (Q2Qc (inject_Z (Z.of_nat it)) < maxiter)%Qc /\
    (la_norm_inf P (matvec A v) <= tol)%Qc /\
    unpermuted use_rcm rev_perm v v' /\
    issuper L = true /\ m * m = n /\ dot (flatten (identity m)) v' <> C0 /\
    qdata <$> ret_states r
    = [hermitize (vec2mat (vdivC v' (dot (flatten (identity m)) v')))].
Proof.
  unfold _steadystate_power. cbv zeta.
  intros (a0 & w0 & (d & Hd & -> & ->)%info_pop_Ok & H)%bind_Ok.
  apply bind_Ok in H as ([] & w1 & [= <-] & H).
  apply bind_Ok in H as ([[[[A perm] perm2] rev_perm] a1] & w2 & Hliou & H).
  pose proof (silent_power_liouvillian _ _ _ _ _ _ Hliou) as ->.
  assert (forall k, k <> "info"%string -> a1 !! k = ss_args !! k) as Hk1.
  { intros k Hk.
    rewrite (power_liouvillian_keeps P L _ k Hk _ _ _ Hliou). by rewrite lookup_insert_ne. }
  apply bind_Ok in H as (use_rcm & ? & [Hrcm ->]%flag_is_Ok & H).
  apply (flag_is_keeps _ ss_args) in Hrcm; [|by apply Hk1].
  apply bind_Ok in H as (v0 & w4 & Hv0 & H).
  assert (w4 = w ++ [EUseSolver true PNone]) as ->.
  { destruct use_rcm; [by apply silent_unpermute in Hv0 | by apply ret_Ok in Hv0 as [_ ->]]. }
  apply unpermuted_Ok in Hv0.
  apply bind_Ok in H as (method & ? & [Hmethod ->]%get_Ok & H).
  rewrite Hk1 in Hmethod by done.
  apply bind_Ok in H as (a2 & w6 & Hprec & H).
  pose proof (silent_precondition_if_asked _ _ _ _ _ _ _ _ Hprec) as ->.
  assert (forall k, k <> "info"%string -> k <> "M"%string -> a2 !! k = ss_args !! k) as Hk2.
  { intros k Hk HM.
    rewrite (precondition_if_asked_keeps P _ _ _ _ k Hk HM _ _ _ Hprec). by apply Hk1. }
  apply bind_Ok in H as (lu & w7 & Hlu & H).
  assert (w7 = w ++ [EUseSolver true PNone] /\
          if is_str method "power"
          then exists permc thresh milu l,
                 ss_args !! "permc_spec" = Some permc /\
                 ss_args !! "diag_pivot_thresh" = Some thresh /\
                 ss_args !! "ILU_MILU" = Some milu /\
                 splu P A permc thresh milu = Ok l /\ lu = Some l
          else lu = None) as [-> Hlu'].
  { destruct (is_str method "power").
    - apply bind_Ok in Hlu as (permc & ? & [Hpermc ->]%get_Ok & Hlu).
      apply bind_Ok in Hlu as (thresh & ? & [Hthresh ->]%get_Ok & Hlu).
      apply bind_Ok in Hlu as (milu & ? & [Hmilu ->]%get_Ok & Hlu).
      apply bind_Ok in Hlu as (l & ? & [Hl ->]%lift_Ok & Hlu).
      apply ret_Ok in Hlu as [-> ->]. split; [done|].
      exists permc, thresh, milu, l. rewrite <- !Hk2 by done. done.
    - by apply ret_Ok in Hlu as [-> ->]. }
  apply bind_Ok in H as (_tol & w8 & Htol_ & H).
  unfold power_inner_tol in Htol_.
  apply bind_Ok in Htol_ as (tol0 & ? & [Htol0 ->]%num_is_Ok & [Hmax ->]%lift_Ok).
  apply bind_Ok in H as (tol & ? & [Htol ->]%num_is_Ok & H).
  assert (tol0 = tol) as -> by (by eapply num_is_inj).
  apply (num_is_keeps _ ss_args) in Htol; [|by apply Hk2].
  apply bind_Ok in H as (maxiter & ? & [Hmx ->]%num_is_Ok & H).
  pose proof Hmx as (mxv & Hmxv & _).
  apply (num_is_keeps _ ss_args) in Hmx; [|by apply Hk2].
  apply bind_Ok in H as ([it v] & w11 & Hloop & H).
  assert (w11 = w ++ [EUseSolver true PNone]) as ->.
  { eapply silent_power_loop; [|exact Hloop]. intros u. apply silent_power_refine. }
  case_bool_decide as Hbudget.
  { apply bind_Ok in H as (? & ? & _ & H). done. }
  apply bind_Ok in H as (a3 & w12 & H3 & H).
  apply bind_Ok in H as (a4 & w13 & H4 & H).
  apply bind_Ok in H as (ri & w14 & _ & H).
  apply bind_Ok in H as (a5 & w15 & H5 & H).
  assert (a5 !! "use_rcm" = ss_args !! "use_rcm") as Hk5.
  { transitivity (a4 !! "use_rcm").
    - destruct ri; [by eapply info_set_Ok | by apply ret_Ok in H5 as [-> _]].
    - erewrite (info_set_Ok a3), (info_set_Ok a2); [|done..]. by apply Hk2. }
  apply bind_Ok in H as (use_rcm' & w16 & [Hrcm' _]%flag_is_Ok & H).
  apply (flag_is_keeps _ ss_args) in Hrcm'; [|done].
  assert (use_rcm' = use_rcm) as -> by (by eapply flag_is_inj).
  apply bind_Ok in H as (v' & w17 & Hv'%unpermuted_Ok & H).
  apply bind_Ok in H as (data & w18 & Hnorm & H%return_state_Ok).
  apply power_normalise_Ok in Hnorm as (Hsuper & Hm & Ht & ->).
  exists d, A, perm, perm2, rev_perm, a1, use_rcm, v0, method, a2, lu, _tol, tol, maxiter,
         it, v, v'.
  repeat (split; [done|]).
  split; [by apply Qcnot_le_lt|]. split; [|done].
  apply Qcnot_lt_le. eapply (power_loop_count _ _ _ _ _ _ _ _ _ _ _ Hloop).
  apply budget_lt in Hbudget. lia.
Qed.



(** ** The trace of the state of the power method *)

Lemma length_argsort p : length (argsort p) = length p.
Proof.
  unfold argsort. rewrite length_fmap, merge_sort_Permutation.
  rewrite length_zip_with, length_seq. lia.
Qed.

Lemma take_ix_length v p v' : take_ix v p = Ok v' -> length v' = length p.
Proof. unfold take_ix. destruct (forallb _ p); [|done]. intros [= <-]. apply length_ix. Qed.

Lemma rescale_length P v v' : rescale P v = Ok v' -> length v' = length v.
Proof.
  unfold rescale. case_bool_decide; [done|]. intros [= <-]. unfold vscale. apply length_map.
Qed.

Lemma power_loop_length P refine A tol left it v w it' v' w' :
  (forall u u' w1 w2, refine u w1 = (Ok u', w2) -> length u' = length u) ->
  power_loop P refine A tol left it v w = (Ok (it', v'), w') -> length v' = length v.
Proof.
  intros Href. revert it v w. induction left as [|left IH]; intros it v w; simpl.
  - by case_bool_decide; intros [[= <- <-] _]%ret_Ok.
  - case_bool_decide as Hc.
    + intros (v1 & w1 & H1 & (v2 & w2 & [H2 _]%lift_Ok & H)%bind_Ok)%bind_Ok.
      apply IH in H. apply Href in H1. apply rescale_length in H2. congruence.
    + by intros [[= <- <-] _]%ret_Ok.
Qed.

Lemma power_refine_length P lu A _tol ss_args u u' w1 w2 :
  (forall l b x, lu = Some l -> lu_solve l b = Ok x -> length x = length b) ->
  (forall k A b tol m x0 restart maxiter x check iters,
     krylov_solve P k A b tol m x0 restart maxiter = Ok (x, check, iters) ->
     length x = length b) ->
  power_refine P lu A _tol ss_args u w1 = (Ok u', w2) -> length u' = length u.
Proof.
  intros Hlu Hkr. unfold power_refine.
  intros (method & ? & _ & H)%bind_Ok.
  destruct (is_str method "power").
  - destruct lu as [l|]; [|done]. apply lift_Ok in H as [H _]. by eapply Hlu.
  - destruct (which_krylov method "power-") as [k|]; [|done].
    apply bind_Ok in H as ([[y check] iters] & wc & Hcall & [-> _]%ret_Ok).
    apply call_krylov_args in Hcall as (pm & x0 & rs & mx & _ & _ & Hcall). by eapply Hkr.
Qed.

Lemma nrows_shifted L L1 : shifted L = Ok L1 -> nrows L1 = nrows L.
Proof.
  unfold shifted. case_bool_decide; [|done]. intros [= <-]. unfold msub.
  apply nrows_mk_matrix.
Qed.

(** The state of the power method has trace one when the answers of the
    library have the lengths that they have in the library. *)
Lemma power_unit_trace P L ss_args w r w' :
  (forall A permc thresh milu lu b x,
     splu P A permc thresh milu = Ok lu -> lu_solve lu b = Ok x -> length x = length b) ->
  (forall k A b tol m x0 restart maxiter x check iters,
     krylov_solve P k A b tol m x0 restart maxiter = Ok (x, check, iters) ->
     length x = length b) ->
  (forall A p, reverse_cuthill_mckee P A = Ok p -> length p = nrows A) ->
  (forall A q B,
     weighted_bipartite_matching P A = Ok q -> sp_permute P A q [] = Ok B ->
     nrows B = nrows A) ->
  _steadystate_power P L ss_args w = (Ok r, w') ->
  all_unit_trace r.
Proof.
  intros Hlu Hkr Hrcm Hwbm Hrun. apply power_chain in Hrun. cbv zeta in Hrun.
  destruct Hrun as (d & A & perm & perm2 & rev_perm & a1 & use_rcm & v0 & method & a2 & lu
                    & _tol & tol & maxiter & it & v & v' & Hd & Hliou & Hf & Hv0 & Hmethod
                    & Hprec & Hsplu & Htol & H_tol & Hmx & Hloop & Hit & Hconv & Hv' & Hsuper
                    & Hm & Ht & Hr).
  apply power_liouvillian_system in Hliou
    as (L1 & L2 & use_wbm & use_rcm' & HL1 & Hfw & Hmatched & Hfr & Hordered).
  assert (use_rcm' = use_rcm) as ->.
  { eapply flag_is_inj; [|exact Hf]. eapply flag_is_keeps; [|exact Hfr].
    by rewrite lookup_insert_ne. }
  set (n := nrows (qdata L)) in *.
  assert (nrows L2 = n) as HL2.
  { apply nrows_shifted in HL1. unfold matched in Hmatched. destruct use_wbm.
    - destruct Hmatched as (q & Hq & HB & _). rewrite (Hwbm _ _ _ Hq HB). done.
    - destruct Hmatched as [-> _]. done. }
  assert (length v0 = n /\ (length v = n -> length v' = n)) as [Hlen0 Hlen'].
  { unfold ordered in Hordered. unfold unpermuted in Hv0, Hv'. destruct use_rcm.
    - destruct Hordered as (p & Hp & _ & -> & ->). apply Hrcm in Hp.
      destruct Hv0 as (p' & [= <-] & Hv0%take_ix_length).
      destruct Hv' as (rp & [= <-] & Hv'%take_ix_length).
      rewrite length_argsort in Hv'. split; [congruence | intros _; congruence].
    - subst v0 v'. split; [|done]. unfold ones. apply length_replicate. }
  assert (length v = n) as Hlen.
  { rewrite <- Hlen0. eapply power_loop_length; [|exact Hloop].
    intros u u' wa wb. apply power_refine_length; [|exact Hkr].
    intros l b x -> Hx. destruct (is_str method "power"); [|done].
    destruct Hsplu as (permc & thresh & milu & l' & _ & _ & _ & Hl & [= <-]).
    by eapply Hlu. }
  unfold all_unit_trace.
  assert (Forall (fun A : matrix => trace A = C1) (qdata <$> ret_states r)) as Hall.
  { rewrite Hr. repeat constructor.
    apply normalised_unit_trace; [|done]. rewrite Hlen' by done. by rewrite Hm. }
  by rewrite Forall_fmap in Hall.
Qed.


Lemma demo_exact_lu A permc thresh milu lu b x :
  splu demo_exact A permc thresh milu = Ok lu -> lu_solve lu b = Ok x ->
  length x = length b /\ matvec A x = b.
Proof.
  simpl. repeat case_bool_decide; try done; intros [= <-]; simpl;
    (case_bool_decide as Hb; [|done]); intros [= <-]; subst; split;
    solve [reflexivity | compute_done].
Qed.

Lemma demo_exact_spsolve A b x :
  spsolve demo_exact A b = Ok x -> length x = length b /\ matvec A x = b.
Proof.
  simpl. case_bool_decide as H; [|done]. destruct H as [-> ->]. intros [= <-].
  split; [reflexivity | compute_done].
Qed.

Lemma demo_exact_krylov k A b tol m x0 restart maxiter x check iters :
  krylov_solve demo_exact k A b tol m x0 restart maxiter = Ok (x, check, iters) ->
  length x = length b /\ matvec A x = b.
Proof.
  simpl. case_bool_decide as H.
  - destruct H as [-> ->]. intros [= <- _ _]. split; [reflexivity | compute_done].
  - case_bool_decide as H'; [|done]. destruct H' as [-> ->]. intros [= <- _ _].
    split; [reflexivity | compute_done].
Qed.

Lemma demo_exact_rcm_length A p :
  reverse_cuthill_mckee demo_exact A = Ok p -> length p = nrows A.
Proof. simpl. intros [= <-]. by rewrite length_reverse, length_seq. Qed.

Lemma demo_exact_wbm_rows A q B :
  weighted_bipartite_matching demo_exact A = Ok q -> sp_permute demo_exact A q [] = Ok B ->
  nrows B = nrows A.
Proof.
  simpl. intros [= <-] [= <-]. unfold reorder, nrows. rewrite length_map.
  case_bool_decide as Hq; [|apply length_seq]. by rewrite length_seq.
Qed.

Lemma power_run_exact :
  _steadystate_power demo_exact L_damping power_args []
  = (Ok power_result, [EUseSolver true PNone]).
Proof. vm_compute. reflexivity. Qed.


(** ** C1: what the solvers return *)

Lemma hermitize_vec2mat_average v :
  hermitize (vec2mat v) = mk_matrix (Nat.sqrt (length v)) (Nat.sqrt (length v)) (averaged v).
Proof. unfold vec2mat. by rewrite hermitize_mk_square. Qed.

Lemma states_singleton r (X : matrix) :
  qdata <$> ret_states r = [X] -> exists rho, ret_states r = [rho] /\ qdata rho = X.
Proof.
  destruct (ret_states r) as [|rho [|rho' l]]; try done. intros [= <-]. eauto.
Qed.

Lemma returned_average r v :
  qdata <$> ret_states r = [hermitize (vec2mat v)] ->
  exists rho, ret_states r = [rho] /\ is_average v rho.
Proof.
  intros (rho & Hr & Hrho)%states_singleton. exists rho. split; [done|].
  unfold is_average. by rewrite Hrho, hermitize_vec2mat_average.
Qed.

Lemma qobj_div_average_over_trace v dims flag rho :
  let out := mkQobj (hermitize (vec2mat v)) Oper dims flag in
  qobj_div out (qobj_tr out) = Ok rho -> is_average_over_trace v rho.
Proof.
  intros out [Hz Hrho]%qobj_div_Ok. unfold qobj_tr, out in *. simpl in *.
  rewrite hermitize_vec2mat_average in Hz, Hrho.
  rewrite trace_mk_square in Hz, Hrho. rewrite mdivC_mk_matrix in Hrho.
  split; [exact Hz | exact Hrho].
Qed.

Lemma svd_state_raw_over_trace dims row rho :
  svd_state dims row = Ok rho -> is_raw_over_trace (map Cconj row) rho.
Proof.
  unfold svd_state. intros [Hz Hrho]%qobj_div_Ok. unfold qobj_tr in *. simpl in *.
  unfold vec2mat in Hz, Hrho.
  rewrite trace_mk_square in Hz, Hrho. rewrite mdivC_mk_matrix in Hrho.
  split; [exact Hz | exact Hrho].
Qed.

Lemma eigen_reorder_keeps P L ss_args k :
  k <> "info"%string ->
  post (fun '(_, _, a) => a !! k = ss_args !! k) (eigen_reorder P L ss_args).
Proof. intros Hk. unfold eigen_reorder. keeps_run. Qed.

Lemma eigen_reorder_Ok P L ss_args w L' rev_perm a w' :
  eigen_reorder P L ss_args w = (Ok (L', rev_perm, a), w') ->
  exists use_rcm perm2,
    flag_is ss_args "use_rcm" use_rcm /\ ordered P use_rcm L L' perm2 rev_perm.
Proof.
  unfold eigen_reorder.
  intros (use_rcm & w1 & [Hf ->]%flag_is_Ok & H)%bind_Ok.
  exists use_rcm. destruct use_rcm; simpl.
  - apply bind_Ok in H as (a1 & ? & _ & H).
    apply bind_Ok in H as (p & ? & [Hp ->]%lift_Ok & H).
    apply bind_Ok in H as (L1 & ? & [HL ->]%lift_Ok & H).
    apply ret_Ok in H as [[= -> -> ->] _]. exists (Some p). split; [done|]. eauto 6.
  - apply ret_Ok in H as [[= -> -> ->] _]. by exists None.
Qed.

(** What a successful run of [_steadystate_eigen] went through. *)
Lemma eigen_chain P L ss_args w r w' :
  _steadystate_eigen P L ss_args w = (Ok r, w') ->
  exists use_rcm perm2 rev_perm L' tol maxiter eigval v v' rho,
    flag_is ss_args "use_rcm" use_rcm /\
    ordered P use_rcm (qdata L) L' perm2 rev_perm /\
    ss_args !! "tol" = Some tol /\ ss_args !! "maxiter" = Some maxiter /\
    eigs P L' tol maxiter = Ok (eigval, v) /\
    unpermuted use_rcm rev_perm v v' /\
    ret_states r = [rho] /\ is_average_over_trace v' rho.
Proof.
  unfold _steadystate_eigen. cbv zeta.
  intros (a0 & w0 & (d & Hd & -> & ->)%info_pop_Ok & H)%bind_Ok.
  apply bind_Ok in H as ([[L' rev_perm] a1] & w1 & Hre & H).
  assert (forall k, k <> "info"%string -> a1 !! k = ss_args !! k) as Hk1.
  { intros k Hk.
    rewrite (eigen_reorder_keeps P _ _ k Hk _ _ _ Hre). by rewrite lookup_insert_ne. }
  apply eigen_reorder_Ok in Hre as (use_rcm & perm2 & Hf & Ho).
  apply (flag_is_keeps _ ss_args) in Hf; [|by rewrite lookup_insert_ne].
  apply bind_Ok in H as (tol & ? & [Htol ->]%get_Ok & H).
  apply bind_Ok in H as (maxiter & ? & [Hmx ->]%get_Ok & H).
  rewrite Hk1 in Htol, Hmx by done.
  apply bind_Ok in H as ([eigval v] & ? & [Heigs ->]%lift_Ok & H).
  apply bind_Ok in H as (a2 & w2 & H2 & H).
  apply bind_Ok in H as (ri & w3 & _ & H).
  apply bind_Ok in H as (a3 & w4 & H3 & H).
  assert (a3 !! "use_rcm" = ss_args !! "use_rcm") as Hk3.
  { transitivity (a2 !! "use_rcm").
    - destruct ri; [by eapply info_set_Ok | by apply ret_Ok in H3 as [-> _]].
    - erewrite (info_set_Ok a1); [|done..]. by apply Hk1. }
  apply bind_Ok in H as (use_rcm' & w5 & [Hf' _]%flag_is_Ok & H).
  apply (flag_is_keeps _ ss_args) in Hf'; [|done].
  assert (use_rcm' = use_rcm) as -> by (by eapply flag_is_inj).
  apply bind_Ok in H as (v' & w6 & Hv'%unpermuted_Ok & H).
  apply bind_Ok in H as (ri' & w7 & _ & H).
  assert (exists rho, ret_states r = [rho] /\ is_average_over_trace v' rho) as (rho & Hr & Hrho).
  { destruct ri'.
    - apply bind_Ok in H as (rho & ? & [Hrho%qobj_div_average_over_trace _]%lift_Ok & H).
      apply bind_Ok in H as (info & ? & _ & [-> _]%ret_Ok). by exists rho.
    - apply bind_Ok in H as (rho & ? & [Hrho%qobj_div_average_over_trace _]%lift_Ok & H).
      apply ret_Ok in H as [-> _]. by exists rho. }
  exists use_rcm, perm2, rev_perm, L', tol, maxiter, eigval, v, v', rho. done.
Qed.

Lemma all_ok_Forall2 {A B} (f : A -> result B) (l : list A) r :
  all_ok (map f l) = Ok r -> Forall2 (fun x a => f x = Ok a) l r.
Proof.
  revert r. induction l as [|x l IH]; simpl; intros r H.
  - injection H as <-. constructor.
  - destruct (f x) as [a|e] eqn:Hx; [|done].
    destruct (all_ok (map f l)) as [r'|e'] eqn:E; [|done]. injection H as <-.
    constructor; [done | by apply IH].
Qed.

(** What a successful run of [_steadystate_svd_dense] went through: the
    states are those of the rows of [vh] that are kept, all of them or the
    first. *)
Lemma svd_chain P L ss_args w r w' :
  _steadystate_svd_dense P L ss_args w = (Ok r, w') ->
  exists u s0 s vh all_states,
    svd P (qdata L) = Ok (u, s0 :: s, vh) /\
    flag_is ss_args "all_states" all_states /\
    let kept := drop (length (filter (fun x => Qcmax q_1em12 (q_1em12 * s0) <= x)%Qc
                                (s0 :: s))) vh in
    (all_states = false -> kept <> []) /\
    Forall2 (fun row rho => is_raw_over_trace (map Cconj row) rho)
      (if all_states then kept else take 1 kept) (ret_states r).
Proof.
  unfold _steadystate_svd_dense. cbv zeta.
  intros (a1 & w1 & (d & Hd & -> & ->)%info_pop_Ok & H)%bind_Ok.
  apply bind_Ok in H as ([[u s] vh] & ? & [Hsvd ->]%lift_Ok & H).
  apply bind_Ok in H as (s0 & w3 & Hs0 & H).
  destruct s as [|x s]; [done|]. apply ret_Ok in Hs0 as [-> ->].
  apply bind_Ok in H as (a2 & w4 & (d2 & Hd2 & -> & ->)%info_set_Ok_eq & H).
  apply bind_Ok in H as (all_states & w5 & [Has ->]%flag_is_Ok & H).
  apply (flag_is_keeps _ ss_args) in Has; [|by rewrite !lookup_insert_ne].
  exists u, x, s, vh, all_states. split; [done|]. split; [done|]. cbv zeta.
  destruct all_states.
  - split; [done|].
    apply bind_Ok in H as (rhos & ? & [Hall%all_ok_Forall2 ->]%lift_Ok & H).
    assert (ret_states r = rhos) as ->.
    { apply bind_Ok in H as ([] & ? & _ & H).
      - by apply bind_Ok in H as (info & ? & _ & [-> _]%ret_Ok).
      - by apply ret_Ok in H as [-> _]. }
    eapply Forall2_impl; [exact Hall|]. intros row rho. apply svd_state_raw_over_trace.
  - destruct (drop _ vh) as [|row rows]; [done|]. split; [done|].
    apply bind_Ok in H as (rho & ? & [Hrho%svd_state_raw_over_trace _]%lift_Ok & [-> _]%ret_Ok).
    simpl. rewrite take_0. constructor; [exact Hrho | constructor].
Qed.

(** The solver that a successful call ran. *)
Lemma steadystate_dispatch P A c_op_list kwargs w r w' :
  steadystate P A c_op_list kwargs w = (Ok r, w') ->
  exists A' ss_args w1,
    ss_prepare P A c_op_list kwargs w = (Ok (A', ss_args), w1) /\
    (_steadystate_direct_sparse P A' ss_args w1 = (Ok r, w') \/
     _steadystate_direct_dense P A' ss_args w1 = (Ok r, w') \/
     _steadystate_eigen P A' ss_args w1 = (Ok r, w') \/
     _steadystate_iterative P A' ss_args w1 = (Ok r, w') \/
     _steadystate_svd_dense P A' ss_args w1 = (Ok r, w') \/
     _steadystate_power P A' ss_args w1 = (Ok r, w')).
Proof.
  unfold steadystate. intros ([A' ss_args] & w1 & Hprep & Hrun)%bind_Ok.
  exists A', ss_args, w1. split; [done|].
  unfold ss_dispatch in Hrun.
  apply bind_Ok in Hrun as (method & w2 & [Hget ->]%get_Ok & Hrun).
  destruct (is_str method "direct").
  { apply bind_Ok in Hrun as ([] & w3 & [_ ->]%flag_is_Ok & Hrun); tauto. }
  destruct (is_str method "eigen"); [tauto|].
  destruct (str_in method _) in Hrun; [tauto|].
  destruct (is_str method "svd"); [tauto|].
  destruct (str_in method _) in Hrun; [tauto | done].
Qed.

(** ** The trace of the state of the sparse direct and iterative solvers *)

Lemma Csum_swap {A B} (f : A -> B -> C) (la : list A) (lb : list B) :
  Csum (map (fun a => Csum (map (f a) lb)) la)
  = Csum (map (fun b => Csum (map (fun a => f a b) la)) lb).
Proof.
  induction la as [|a la IH]; simpl.
  - symmetry. apply Csum_zeros.
  - rewrite IH, <- Csum_add_map. reflexivity.
Qed.

Lemma Csum_mul_r {A} (x : C) (f : A -> C) l :
  Csum (map (fun k => Cmul (f k) x) l) = Cmul (Csum (map f l)) x.
Proof.
  induction l as [|a l IH]; simpl; [apply C_eq; simpl; ring|].
  rewrite IH. apply C_eq; simpl; ring.
Qed.

Lemma Csum_Permutation (l l' : list C) : l ≡ₚ l' -> Csum l = Csum l'.
Proof.
  induction 1 as [|x l l' _ IH|x y l|l l' l'' _ IH1 _ IH2]; simpl.
  - done.
  - by rewrite IH.
  - apply C_eq; simpl; ring.
  - congruence.
Qed.

(** The right-hand side [weight * e0] at the diagonal places. *)
Lemma rhs_diagonal_sum n wt b0 :
  rhs (n ^ 2) wt = Ok b0 ->
  Csum (map (fun k => vget b0 (k * (n + 1))) (seq 0 n)) = ofQc wt.
Proof.
  intros (-> & _ & Hpos)%rhs_Ok. assert (0 < n) as Hn by (destruct n; simpl in *; lia).
  rewrite (map_seq_ext _ (fun k => if bool_decide (k = 0) then ofQc wt else C0)).
  - by rewrite (Csum_pick (fun _ => ofQc wt) 0 n Hn).
  - intros k Hk. case_bool_decide as Hk0; [by subst k|].
    destruct (k * (n + 1)) as [|j] eqn:Hj; [nia|]. unfold vget, zeros. simpl.
    rewrite nth_lookup. by destruct (replicate _ _ !! j) eqn:E;
      [apply lookup_replicate in E as [-> _]|].
Qed.

(** The trace condition at the diagonal places: only its first row counts. *)
Lemma coo_diagonal_sum n wt j :
  j < n ^ 2 ->
  Csum (map (fun k =>
          mget (coo_matrix (vscale wt (ones n)) (repeat 0 n) (trace_cols n) (n ^ 2) (n ^ 2))
               (k * (n + 1)) j) (seq 0 n))
  = trace_entry n wt j.
Proof.
  intros Hj. assert (0 < n) as Hn by (destruct n; simpl in *; lia).
  rewrite (map_seq_ext _ (fun k => if bool_decide (k = 0) then trace_entry n wt j else C0)).
  - by rewrite (Csum_pick (fun _ => trace_entry n wt j) 0 n Hn).
  - intros k Hk. rewrite coo_trace_row by (rewrite ?Nat.pow_2_r in *; nia).
    apply (f_equal (fun b : bool => if b then trace_entry n wt j else C0)).
    apply bool_decide_ext. nia.
Qed.

(** The shape of the conditioned matrix. *)
Lemma sp_add_conditioned L n wt L1 :
  0 < n ^ 2 ->
  sp_add L (coo_matrix (vscale wt (ones n)) (repeat 0 n) (trace_cols n) (n ^ 2) (n ^ 2))
  = Ok L1 ->
  nrows L = n ^ 2 /\ ncols L = n ^ 2 /\
  L1 = mk_matrix (n ^ 2) (n ^ 2) (fun i j =>
         Cadd (mget L i j)
           (mget (coo_matrix (vscale wt (ones n)) (repeat 0 n) (trace_cols n) (n ^ 2) (n ^ 2))
              i j)).
Proof.
  intros Hpos. unfold sp_add. case_bool_decide as Hshape; [|done]. intros [= <-].
  destruct Hshape as [Hr Hc]. unfold coo_matrix in Hr, Hc.
  rewrite nrows_mk_matrix in Hr. rewrite ncols_mk_matrix in Hc by done.
  split; [done|]. split; [done|]. unfold madd. by rewrite Hr, Hc.
Qed.

(** A solution of the conditioned system of a Liouvillian that preserves
    the trace has, as a matrix, trace one. *)
Lemma conditioned_unit_trace L wt L1 b0 v :
  let n := Nat.sqrt (nrows L) in
  trace_preserving L -> wt <> 0%Qc ->
  sp_add L (coo_matrix (vscale wt (ones n)) (repeat 0 n) (trace_cols n) (n ^ 2) (n ^ 2))
  = Ok L1 ->
  rhs (n ^ 2) wt = Ok b0 ->
  length v = n ^ 2 -> solves (n ^ 2) L1 b0 v ->
  trace (vec2mat v) = C1.
Proof.
  intros n Htp Hw Hadd Hb Hlen Hsolves. unfold trace_preserving in Htp. fold n in Htp.
  pose proof (rhs_diagonal_sum n wt b0 Hb) as Hsum.
  apply rhs_Ok in Hb as (_ & Hlenb & Hpos).
  apply sp_add_conditioned in Hadd as (Hr & Hc & ->); [|done].
  rewrite (map_seq_ext _ (fun k => Csum (map (fun j =>
             Cmul (Cadd (mget L (k * (n + 1)) j)
                     (mget (coo_matrix (vscale wt (ones n)) (repeat 0 n) (trace_cols n)
                              (n ^ 2) (n ^ 2)) (k * (n + 1)) j))
                  (vget v j)) (seq 0 (n ^ 2))))) in Hsum.
  2:{ intros k Hk. rewrite Hsolves by (rewrite Nat.pow_2_r; nia).
      f_equal. apply map_seq_ext. intros j Hj.
      rewrite mget_mk_matrix by (rewrite ?Nat.pow_2_r in *; nia). done. }
  rewrite (Csum_swap (fun k j =>
             Cmul (Cadd (mget L (k * (n + 1)) j)
                     (mget (coo_matrix (vscale wt (ones n)) (repeat 0 n) (trace_cols n)
                              (n ^ 2) (n ^ 2)) (k * (n + 1)) j))
                  (vget v j))) in Hsum.
  rewrite (map_seq_ext _ (fun j => Cmul (trace_entry n wt j) (vget v j))) in Hsum.
  2:{ intros j Hj.
      rewrite (Csum_mul_r (vget v j)
                 (fun k => Cadd (mget L (k * (n + 1)) j)
                             (mget (coo_matrix (vscale wt (ones n)) (repeat 0 n)
                                      (trace_cols n) (n ^ 2) (n ^ 2)) (k * (n + 1)) j))).
      rewrite Csum_add_map, Htp, coo_diagonal_sum, Cadd_0_l by (rewrite ?Nat.pow_2_r in *; lia).
      done. }
  rewrite Nat.pow_2_r, trace_row_dot in Hsum. apply Cmul_real_cancel in Hsum; [|done].
  rewrite (trace_vec2mat v n); [done|]. rewrite Hlen. apply Nat.pow_2_r.
Qed.

(** *** Systems in a new order *)

Lemma matvec_solves N A b v :
  nrows A = N -> Forall (fun row => length row = N) A -> matvec A v = b -> solves N A b v.
Proof.
  intros Hr Hrows <- i Hi. unfold matvec, vget at 1. rewrite nth_lookup.
  change (map (fun row => dot row v) A) with ((fun row => dot row v) <$> A).
  rewrite list_lookup_fmap.
  destruct (lookup_lt_is_Some_2 A i ltac:(unfold nrows in Hr; lia)) as [row Hrow].
  rewrite Hrow. simpl. unfold dot.
  rewrite (proj1 (Forall_forall _ _) Hrows row) by (by eapply list_elem_of_lookup_2).
  f_equal. apply map_seq_ext. intros j Hj. f_equal.
  unfold mget. rewrite (nth_lookup A), Hrow. done.
Qed.

Lemma reorder_rows A rp cp :
  rp <> [] -> cp <> [] ->
  nrows (reorder A rp cp) = length rp /\
  Forall (fun row => length row = length cp) (reorder A rp cp).
Proof.
  intros Hrp Hcp. unfold reorder. rewrite !bool_decide_eq_false_2 by done. split.
  - unfold nrows. by rewrite length_map.
  - apply Forall_forall. intros row (i & -> & _)%list_elem_of_fmap. by rewrite length_map.
Qed.

Lemma mget_reorder A rp cp i j :
  rp <> [] -> cp <> [] -> i < length rp -> j < length cp ->
  mget (reorder A rp cp) i j = mget A (nth i rp 0) (nth j cp 0).
Proof.
  intros Hrp Hcp Hi Hj. unfold reorder. rewrite !bool_decide_eq_false_2 by done.
  destruct (lookup_lt_is_Some_2 rp i Hi) as [x Hx].
  destruct (lookup_lt_is_Some_2 cp j Hj) as [y Hy].
  rewrite (nth_lookup rp), (nth_lookup cp), Hx, Hy. simpl.
  unfold mget at 1. rewrite (nth_lookup (map _ rp)), list_lookup_fmap, Hx. simpl.
  by rewrite nth_lookup, list_lookup_fmap, Hy.
Qed.

Lemma reorder_rows_only A rp :
  rp <> [] ->
  nrows (reorder A rp []) = length rp /\
  Forall (fun row => length row = ncols A) (reorder A rp []).
Proof.
  intros Hrp. unfold reorder. rewrite (bool_decide_eq_false_2 (rp = [])) by done.
  rewrite (bool_decide_eq_true_2 (@nil nat = [])) by done. split.
  - unfold nrows. by rewrite length_map.
  - apply Forall_forall. intros row (i & -> & _)%list_elem_of_fmap.
    by rewrite length_map, length_seq.
Qed.

Lemma mget_reorder_rows A rp i j :
  rp <> [] -> i < length rp -> j < ncols A ->
  mget (reorder A rp []) i j = mget A (nth i rp 0) j.
Proof.
  intros Hrp Hi Hj. unfold reorder. rewrite (bool_decide_eq_false_2 (rp = [])) by done.
  rewrite (bool_decide_eq_true_2 (@nil nat = [])) by done.
  destruct (lookup_lt_is_Some_2 rp i Hi) as [x Hx].
  rewrite (nth_lookup rp), Hx. simpl.
  unfold mget at 1. rewrite (nth_lookup (map _ rp)), list_lookup_fmap, Hx. simpl.
  by rewrite nth_lookup, list_lookup_fmap, lookup_seq_lt.
Qed.

Lemma argsort_Permutation p : argsort p ≡ₚ seq 0 (length p).
Proof.
  unfold argsort. rewrite merge_sort_Permutation, snd_zip; [done|].
  by rewrite length_seq.
Qed.

(** [np.argsort] of a permutation is a right inverse of it. *)
Lemma argsort_right_inverse p k :
  p ≡ₚ seq 0 (length p) -> k < length p -> nth (nth k (argsort p) 0) p 0 = k.
Proof.
  intros Hp Hk. pose proof (sorted_keys p Hp) as Hkeys.
  set (s := merge_sort key_le (zip p (seq 0 (length p)))) in *.
  assert (length s = length p) as Hlen.
  { unfold s. rewrite merge_sort_Permutation, length_zip_with, length_seq. lia. }
  destruct (lookup_lt_is_Some_2 s k ltac:(lia)) as [[x i] Hxi].
  assert (x = k) as ->.
  { assert (s.*1 !! k = Some x) as H1 by (by rewrite list_lookup_fmap, Hxi).
    rewrite Hkeys in H1. by apply lookup_seq in H1 as [-> _]. }
  assert (nth k (argsort p) 0 = i) as ->.
  { unfold argsort. fold s. by rewrite nth_lookup, list_lookup_fmap, Hxi. }
  assert ((k, i) ∈ zip p (seq 0 (length p))) as Hin.
  { rewrite <- (merge_sort_Permutation key_le). by eapply list_elem_of_lookup_2. }
  apply list_elem_of_lookup in Hin as [j Hj].
  apply lookup_zip_Some in Hj as [Hpj Hsj]. apply lookup_seq in Hsj as [-> _].
  simpl in *. by rewrite nth_lookup, Hpj.
Qed.

Lemma nth_seq_list (l : list nat) : map (fun k => nth k l 0) (seq 0 (length l)) = l.
Proof.
  apply list_eq. intros i. rewrite list_lookup_fmap.
  destruct (decide (i < length l)) as [Hi|Hi].
  - rewrite lookup_seq_lt by done. simpl. rewrite nth_lookup.
    destruct (lookup_lt_is_Some_2 l i Hi) as [x Hx]. by rewrite Hx.
  - rewrite lookup_seq_ge by lia. simpl. symmetry. apply lookup_ge_None. lia.
Qed.

Lemma vget_ix v p i : i < length p -> vget (ix v p) i = vget v (nth i p 0).
Proof.
  intros Hi. unfold ix, vget at 1. rewrite nth_lookup, list_lookup_fmap.
  destruct (lookup_lt_is_Some_2 p i Hi) as [x Hx]. rewrite Hx. simpl.
  by rewrite (nth_lookup p), Hx.
Qed.

(** A solution of the system reordered by [p] in rows and columns, put
    back with [np.argsort] of [p], solves the system. *)
Lemma solves_unpermuted N A b y p :
  p ≡ₚ seq 0 N -> 0 < N ->
  solves N (reorder A p p) (ix b p) y -> solves N A b (ix y (argsort p)).
Proof.
  intros Hp HN Hy i Hi.
  assert (length p = N) as Hlen by (by rewrite Hp, length_seq).
  assert (p <> []) as Hne by (intros ->; simpl in Hlen; lia).
  rewrite <- Hlen in Hp.
  pose proof (argsort_Permutation p) as Ha. set (a := argsort p) in *.
  assert (length a = N) as Hlena by (by rewrite Ha, length_seq).
  assert (forall k, k < N -> nth k a 0 < N) as Hbound.
  { assert (forall x, x ∈ a -> x < N) as Hall.
    { intros x Hx. rewrite Ha in Hx. apply elem_of_seq in Hx. lia. }
    intros k Hk. apply Hall. rewrite nth_lookup.
    destruct (lookup_lt_is_Some_2 a k ltac:(lia)) as [x Hx].
    rewrite Hx. simpl. by eapply list_elem_of_lookup_2. }
  pose proof (Hy (nth i a 0) (Hbound i Hi)) as Hrow.
  rewrite vget_ix in Hrow by (rewrite Hlen; by apply Hbound).
  unfold a in Hrow at 1. rewrite argsort_right_inverse in Hrow by (done || lia).
  rewrite Hrow.
  rewrite (map_seq_ext _ (fun j => Cmul (mget A i (nth j p 0)) (vget y j))).
  2:{ intros j Hj. rewrite mget_reorder by (done || rewrite ?Hlen; solve [lia | by apply Hbound]).
      unfold a. rewrite argsort_right_inverse by (done || lia). done. }
  rewrite Hlen in Ha.
  rewrite <- (Csum_Permutation _ _
                (Permutation_map (fun j => Cmul (mget A i (nth j p 0)) (vget y j)) Ha)).
  replace (map (fun j => Cmul (mget A i (nth j p 0)) (vget y j)) a)
    with (map (fun j => Cmul (mget A i (nth j p 0)) (vget y j))
            (map (fun k => nth k a 0) (seq 0 (length a))))
    by (by rewrite nth_seq_list).
  rewrite map_map, Hlena. f_equal. apply map_seq_ext. intros k Hk.
  unfold a at 1. rewrite argsort_right_inverse by (done || lia).
  rewrite vget_ix by lia. done.
Qed.

(** A solution of the system with its rows reordered by [q] solves the
    system. *)
Lemma solves_rows_reordered N A b v q :
  q ≡ₚ seq 0 N -> ncols A = N ->
  solves N (reorder A q []) (ix b q) v -> solves N A b v.
Proof.
  intros Hq Hc Hv m Hm.
  assert (length q = N) as Hlen by (by rewrite Hq, length_seq).
  assert (q <> []) as Hne by (intros ->; simpl in Hlen; lia).
  assert (m ∈ q) as Hin by (rewrite Hq; apply elem_of_seq; lia).
  apply list_elem_of_lookup in Hin as [i Hi].
  assert (i < N) as HiN by (rewrite <- Hlen; by eapply lookup_lt_Some).
  assert (nth i q 0 = m) as Hnth by (by rewrite nth_lookup, Hi).
  pose proof (Hv i HiN) as Hrow.
  rewrite vget_ix, Hnth in Hrow by lia. rewrite Hrow.
  f_equal. apply map_seq_ext. intros j Hj.
  rewrite mget_reorder_rows by (done || lia). by rewrite Hnth.
Qed.

Lemma take_ix_Ok v p v' : take_ix v p = Ok v' -> v' = ix v p.
Proof. unfold take_ix. destruct (forallb _ p); [|done]. by intros [= <-]. Qed.

(** The solution of the system that the library is handed, put back in
    order, solves the conditioned system; the library reorders as [reorder]
    does, and its orderings permute the rows. *)
Lemma lu_system_solves P L ss_args use_rcm perm perm2 rev_perm L' b y v' :
  (forall A rp cp B, sp_permute P A rp cp = Ok B -> B = reorder A rp cp) ->
  (forall A p, reverse_cuthill_mckee P A = Ok p -> p ≡ₚ seq 0 (nrows A)) ->
  (forall A q, weighted_bipartite_matching P A = Ok q -> q ≡ₚ seq 0 (nrows A)) ->
  lu_system P L ss_args use_rcm perm perm2 rev_perm L' b ->
  length y = length b -> matvec L' y = b ->
  unpermuted use_rcm rev_perm y v' ->
  let n := Nat.sqrt (nrows (qdata L)) in
  exists wt L1 b0,
    num_is ss_args "weight" wt /\ rhs (n ^ 2) wt = Ok b0 /\
    sp_add (qdata L)
      (coo_matrix (vscale wt (ones n)) (repeat 0 n) (trace_cols n) (n ^ 2) (n ^ 2)) = Ok L1 /\
    length v' = n ^ 2 /\ solves (n ^ 2) L1 b0 v'.
Proof.
  intros Hsp Hrcm Hwbm
    (wt & b0 & L1 & L2 & use_wbm & b1 & Hwt & Hb0 & HL1 & Hfw & Hm & Hfr & Ho & Hb1 & Hb)
    Hlen Hmv Hv' n.
  fold n in Hb0, HL1. exists wt, L1, b0. repeat (split; [done|]).
  set (N := n ^ 2) in *.
  pose proof Hb0 as (_ & Hlen0 & Hpos)%rhs_Ok.
  pose proof HL1 as (Hr & Hc & HL1eq)%sp_add_conditioned; [|done].
  assert (nrows L1 = N /\ ncols L1 = N /\ Forall (fun row => length row = N) L1)
    as (Hr1 & Hc1 & Hu1).
  { rewrite HL1eq. split; [apply nrows_mk_matrix|].
    split; [by apply ncols_mk_matrix | apply mk_matrix_uniform]. }
  assert (nrows L2 = N /\ Forall (fun row => length row = N) L2 /\ length b1 = N /\
          forall v, solves N L2 b1 v -> solves N L1 b0 v) as (Hr2 & Hu2 & Hlen1 & Hstep).
  { unfold matched in Hm. destruct use_wbm.
    - destruct Hm as (q & Hq & HB & ->). apply Hwbm in Hq. rewrite Hr1 in Hq.
      apply Hsp in HB as ->.
      assert (length q = N) as Hlq by (by rewrite Hq, length_seq).
      assert (q <> []) as Hne by (intros ->; simpl in Hlq; lia).
      apply (reordered_valid (Some q)) in Hb1; [|simpl; by rewrite Hlen0].
      simpl in Hb1. subst b1.
      destruct (reorder_rows_only L1 q Hne) as [Hrq Huq].
      split; [congruence|]. split; [by rewrite <- Hc1|].
      split; [by rewrite length_ix|].
      intros v. by apply solves_rows_reordered.
    - destruct Hm as [-> ->]. unfold reordered in Hb1. simpl in Hb1. subst b1. done. }
  unfold ordered in Ho. unfold unpermuted in Hv'. destruct use_rcm.
  - destruct Ho as (p & Hp & HB & -> & ->). apply Hrcm in Hp. rewrite Hr2 in Hp.
    apply Hsp in HB as ->.
    assert (length p = N) as Hlp by (by rewrite Hp, length_seq).
    assert (p <> []) as Hne by (intros ->; simpl in Hlp; lia).
    apply (reordered_valid (Some p)) in Hb; [|simpl; by rewrite Hlen1].
    simpl in Hb. subst b.
    destruct Hv' as (rp & [= <-] & ->%take_ix_Ok).
    split; [by rewrite length_ix, length_argsort|].
    apply Hstep, solves_unpermuted; [done..|].
    destruct (reorder_rows L2 p p Hne Hne) as [Hrp Hup].
    apply matvec_solves; [congruence | by rewrite <- Hlp | done].
  - destruct Ho as (-> & -> & ->). unfold reordered in Hb. simpl in Hb. subst b v'.
    split; [congruence|]. apply Hstep. by apply matvec_solves.
Qed.

Lemma unit_trace_state r v :
  qdata <$> ret_states r = [hermitize (vec2mat v)] -> trace (vec2mat v) = C1 ->
  all_unit_trace r.
Proof.
  intros Hr Ht. unfold all_unit_trace.
  assert (Forall (fun A : matrix => trace A = C1) (qdata <$> ret_states r)) as Hall.
  { rewrite Hr. repeat constructor. by apply trace_hermitize_unit. }
  by rewrite Forall_fmap in Hall.
Qed.

(** The state of the sparse direct solver has trace one: the library is
    exact, the Liouvillian preserves the trace, the weight is not zero, and
    umfpack is not used together with the Cuthill-McKee ordering. *)
Lemma direct_sparse_unit_trace P L ss_args w r w' wt :
  (forall A permc thresh milu lu b x,
     splu P A permc thresh milu = Ok lu -> lu_solve lu b = Ok x ->
     length x = length b /\ matvec A x = b) ->
  (forall A b x, spsolve P A b = Ok x -> length x = length b /\ matvec A x = b) ->
  (forall A rp cp B, sp_permute P A rp cp = Ok B -> B = reorder A rp cp) ->
  (forall A p, reverse_cuthill_mckee P A = Ok p -> p ≡ₚ seq 0 (nrows A)) ->
  (forall A q, weighted_bipartite_matching P A = Ok q -> q ≡ₚ seq 0 (nrows A)) ->
  (flag_is ss_args "use_umfpack" true -> flag_is ss_args "use_rcm" false) ->
  num_is ss_args "weight" wt -> wt <> 0%Qc -> trace_preserving (qdata L) ->
  _steadystate_direct_sparse P L ss_args w = (Ok r, w') ->
  all_unit_trace r.
Proof.
  intros Hlu Hspsolve Hsp Hrcm Hwbm Humfrcm Hwt Hw0 Htp
    (use_rcm & perm & perm2 & rev_perm & L' & b & umf & v & v' & Hsys & Humf & Hsolve & Hv'
     & Hr)%direct_sparse_chain.
  assert (length v = length b /\ matvec L' v = b) as [Hlen Hmv].
  { unfold solved_direct in Hsolve. destruct umf; [by apply Hspsolve|].
    destruct Hsolve as (permc & thresh & milu & lu & _ & _ & _ & H1 & H2). by eapply Hlu. }
  assert (negb umf && use_rcm = use_rcm) as Hundo.
  { destruct umf; [|done]. simpl. symmetry.
    eapply flag_is_inj; [by eapply lu_system_use_rcm | by apply Humfrcm]. }
  rewrite Hundo in Hv'.
  destruct (lu_system_solves _ _ _ _ _ _ _ _ _ _ _ Hsp Hrcm Hwbm Hsys Hlen Hmv Hv')
    as (wt' & L1 & b0 & Hwt' & Hb0 & HL1 & Hlen' & Hsolves).
  assert (wt' = wt) as -> by (by eapply num_is_inj).
  eapply unit_trace_state; [exact Hr|]. by eapply conditioned_unit_trace.
Qed.

(** The state of the iterative solvers has trace one: the solver that ends
    with status zero is exact, the Liouvillian preserves the trace and the
    weight is not zero. *)
Lemma iterative_unit_trace P L ss_args w r w' wt :
  (forall k A b tol m x0 restart maxiter x iters,
     krylov_solve P k A b tol m x0 restart maxiter = Ok (x, 0%Z, iters) ->
     length x = length b /\ matvec A x = b) ->
  (forall A rp cp B, sp_permute P A rp cp = Ok B -> B = reorder A rp cp) ->
  (forall A p, reverse_cuthill_mckee P A = Ok p -> p ≡ₚ seq 0 (nrows A)) ->
  (forall A q, weighted_bipartite_matching P A = Ok q -> q ≡ₚ seq 0 (nrows A)) ->
  num_is ss_args "weight" wt -> wt <> 0%Qc -> trace_preserving (qdata L) ->
  _steadystate_iterative P L ss_args w = (Ok r, w') ->
  all_unit_trace r.
Proof.
  intros Hkr Hsp Hrcm Hwbm Hwt Hw0 Htp
    (use_rcm & perm & perm2 & rev_perm & L' & b & v & v' & Hsys & Hsolve & Hv' & Hr)
      %iterative_chain.
  destruct Hsolve as (method & k & tol & m & x0 & restart & maxiter & iters & _ & _ & _ & _ & _
                      & [Hlen Hmv]%Hkr).
  destruct (lu_system_solves _ _ _ _ _ _ _ _ _ _ _ Hsp Hrcm Hwbm Hsys Hlen Hmv Hv')
    as (wt' & L1 & b0 & Hwt' & Hb0 & HL1 & Hlen' & Hsolves).
  assert (wt' = wt) as -> by (by eapply num_is_inj).
  eapply unit_trace_state; [exact Hr|]. by eapply conditioned_unit_trace.
Qed.

Lemma damping_trace_preserving : trace_preserving (qdata L_damping).
Proof.
  unfold trace_preserving. cbv zeta. intros j Hj.
  do 4 (destruct j as [|j]; [vm_compute; reflexivity|]). vm_compute in Hj. lia.
Qed.

Lemma demo_exact_reorders A rp cp B :
  sp_permute demo_exact A rp cp = Ok B -> B = reorder A rp cp.
Proof. simpl. by intros [= <-]. Qed.

Lemma demo_exact_rcm A p :
  reverse_cuthill_mckee demo_exact A = Ok p -> p ≡ₚ seq 0 (nrows A).
Proof. simpl. intros [= <-]. apply reverse_Permutation. Qed.

Lemma demo_exact_wbm A q :
  weighted_bipartite_matching demo_exact A = Ok q -> q ≡ₚ seq 0 (nrows A).
Proof. simpl. by intros [= <-]. Qed.

(** ** C1: the theorem *)

Lemma average_hermitian v rho : is_average v rho -> is_hermitian (qdata rho).
Proof.
  unfold is_average. intros ->. rewrite <- hermitize_vec2mat_average.
  apply hermitize_vec2mat_hermitian.
Qed.

Lemma average_over_trace_facts v rho :
  is_average_over_trace v rho -> is_hermitian (qdata rho) /\ trace (qdata rho) = C1.
Proof.
  unfold is_average_over_trace. cbv zeta. set (n := Nat.sqrt (length v)).
  intros [Hz ->].
  replace (mk_matrix n n (over_trace (averaged v) n))
    with (mdivC (hermitize (vec2mat v)) (trace (hermitize (vec2mat v)))).
  - split.
    + apply mdivC_real_hermitian, trace_hermitize_real.
    + rewrite hermitize_vec2mat_average. fold n. apply trace_normalised.
      by rewrite trace_mk_square.
  - rewrite hermitize_vec2mat_average. fold n. by rewrite trace_mk_square, mdivC_mk_matrix.
Qed.

Lemma raw_over_trace_unit v rho : is_raw_over_trace v rho -> trace (qdata rho) = C1.
Proof.
  unfold is_raw_over_trace. cbv zeta. set (n := Nat.sqrt (length v)).
  intros [Hz ->].
  replace (mk_matrix n n (over_trace (reshaped v) n))
    with (mdivC (mk_matrix n n (reshaped v)) (trace (mk_matrix n n (reshaped v)))).
  - apply trace_normalised. by rewrite trace_mk_square.
  - by rewrite trace_mk_square, mdivC_mk_matrix.
Qed.

Lemma direct_sparse_average P L ss_args w r w' :
  _steadystate_direct_sparse P L ss_args w = (Ok r, w') ->
  exists use_rcm perm perm2 rev_perm L' b use_umfpack v v' rho,
    lu_system P L ss_args use_rcm perm perm2 rev_perm L' b /\
    flag_is ss_args "use_umfpack" use_umfpack /\
    solved_direct P ss_args use_umfpack L' b v /\
    unpermuted (negb use_umfpack && use_rcm) rev_perm v v' /\
    ret_states r = [rho] /\ is_average v' rho.
Proof.
  intros (use_rcm & perm & perm2 & rev_perm & L' & b & umf & v & v' & Hsys & Humf & Hsolve
          & Hv' & (rho & Hr & Hrho)%returned_average)%direct_sparse_chain.
  exists use_rcm, perm, perm2, rev_perm, L', b, umf, v, v', rho. done.
Qed.

Lemma direct_dense_average P L ss_args w r w' :
  _steadystate_direct_dense P L ss_args w = (Ok r, w') ->
  exists wt b L' v rho,
    num_is ss_args "weight" wt /\ rhs (Nat.sqrt (nrows (qdata L)) ^ 2) wt = Ok b /\
    dense_conditioned (qdata L) wt = Ok L' /\ np_linalg_solve P L' b = Ok v /\
    ret_states r = [rho] /\ is_average v rho.
Proof.
  intros (wt & b & L' & v & ri & Hwt & Hb & HL' & Hv & _ & _ & ->)%direct_dense_chain.
  exists wt, b, L', v, (mkQobj (hermitize (vec2mat v)) Oper (qdims L) (Some true)).
  repeat (split; [done|]). unfold is_average. simpl. apply hermitize_vec2mat_average.
Qed.

Lemma iterative_average P L ss_args w r w' :
  _steadystate_iterative P L ss_args w = (Ok r, w') ->
  exists use_rcm perm perm2 rev_perm L' b v v' rho,
    lu_system P L ss_args use_rcm perm perm2 rev_perm L' b /\
    solved_iterative P ss_args L' b v /\
    unpermuted use_rcm rev_perm v v' /\
    ret_states r = [rho] /\ is_average v' rho.
Proof.
  intros (use_rcm & perm & perm2 & rev_perm & L' & b & v & v' & Hsys & Hsolve
          & Hv' & (rho & Hr & Hrho)%returned_average)%iterative_chain.
  exists use_rcm, perm, perm2, rev_perm, L', b, v, v', rho. done.
Qed.

Lemma power_average P L ss_args w r w' :
  _steadystate_power P L ss_args w = (Ok r, w') ->
  let m := prod_dims (qdims L) in
  exists use_rcm rev_perm it v v' rho,
    power_iterate P L ss_args (w ++ [EUseSolver true PNone]) use_rcm rev_perm it v /\
    unpermuted use_rcm rev_perm v v' /\
    issuper L = true /\ m * m = nrows (qdata L) /\
    dot (flatten (identity m)) v' <> C0 /\
    ret_states r = [rho] /\
    is_average (vdivC v' (dot (flatten (identity m)) v')) rho.
Proof.
  intros Hrun m. apply power_chain in Hrun. cbv zeta in Hrun. fold m in Hrun.
  destruct Hrun as (d & A & perm & perm2 & rev_perm & a1 & use_rcm & v0 & method & a2 & lu
                    & _tol & tol & maxiter & it & v & v' & Hd & Hliou & Hf & Hv0 & Hmethod
                    & Hprec & Hsplu & Htol & H_tol & Hmx & Hloop & Hit & Hconv & Hv' & Hsuper
                    & Hm & Ht & (rho & Hr & Hrho)%returned_average).
  exists use_rcm, rev_perm, it, v, v', rho. split; [|done].
  exists d, A, perm, perm2, a1, v0, method, a2, lu, _tol, tol, maxiter. done.
Qed.


Lemma svd_info_run :
  steadystate demo L_skew [] svd_info_kwargs [] = (Ok (RetState skew_state), []).
Proof. vm_compute. reflexivity. Qed.

Lemma svd_default_run :
  _steadystate_svd_dense demo L_skew _default_steadystate_args []
  = (Ok (RetState skew_state), []).
Proof. vm_compute. reflexivity. Qed.

Lemma dense_weighted_run :
  _steadystate_direct_dense demo L_damping weighted_args [] = (Ok (RetState damping_state), []).
Proof. vm_compute. reflexivity. Qed.

Lemma iterative_both_run :
  _steadystate_iterative demo_exact L_damping iterative_both_args []
  = (Ok iterative_both_result, [EUseSolver true (PBool false)]).
Proof. vm_compute. reflexivity. Qed.

Lemma both_flags :
  (flag_is direct_both_args "use_umfpack" true -> flag_is direct_both_args "use_rcm" false) /\
  num_is direct_both_args "weight" (Q2Qc 1) /\
  num_is iterative_both_args "weight" (Q2Qc 1).
Proof.
  split; [|split; exists (PFloat (Q2Qc 1)); split; reflexivity].
  intros (v & Hv & Ht). vm_compute in Hv. injection Hv as <-. discriminate Ht.
Qed.

